(** * T1-SMA: discrete-event simulation of a network of G/G/c/K queues

    Shallow embedding of [gerador.py] and [rede_filas.py].

    Conventions of the embedding.
    - Python [float] values (times, deviates, probabilities) are exact
      rationals [Q]; floating-point rounding is abstracted away, and
      "equal within tolerance" becomes [Qeq].
    - Python [int] values are [Z].
    - A Python object mutated in place is a component of an explicit state;
      a raised exception is an outcome that still carries the state reached
      when it was raised (Python keeps the mutations done before a raise).
    - [dict]s iterated in insertion order are association lists with
      Python's update-in-place / append-at-end semantics.
    - [heapq] is taken by its contract: [heappop] removes the least event
      for the dataclass order. *)

From Stdlib Require Import ZArith QArith Qminmax List String Bool Lia Lqa.
From Stdlib Require Import Permutation Sorted Setoid Morphisms.
Import ListNotations.

Set Implicit Arguments.

(* ------------------------------------------------------------------ *)
(** ** Exceptions and the state-and-exception monad *)

Inductive exn : Type :=
| RuntimeError (msg : string)
| IndexError
| KeyError (key : string)
| OverflowError.

Inductive outcome (S A : Type) : Type :=
| Return (a : A) (s : S)
| Raise (e : exn) (s : S).

Arguments Return {S A} a s.
Arguments Raise {S A} e s.

Definition M (S A : Type) : Type := S -> outcome S A.

Definition ret {S A} (a : A) : M S A := fun s => Return a s.

Definition bind {S A B} (c : M S A) (f : A -> M S B) : M S B :=
  fun s => match c s with
           | Return a s' => f a s'
           | Raise e s' => Raise e s'
           end.

Definition raise {S A} (e : exn) : M S A := fun s => Raise e s.
Definition get {S} : M S S := fun s => Return s s.
Definition put {S} (s : S) : M S unit := fun _ => Return tt s.
Definition modify {S} (f : S -> S) : M S unit := fun s => Return tt (f s).

Declare Scope py_scope.
Delimit Scope py_scope with py.
Notation "x <- c1 ;; c2" := (bind c1 (fun x => c2))
  (at level 61, c1 at next level, right associativity) : py_scope.
Notation "c1 ;; c2" := (bind c1 (fun _ => c2))
  (at level 61, right associativity) : py_scope.

(** The state an outcome ends in, whether it returned or raised. *)
Definition final_state {S A} (o : outcome S A) : S :=
  match o with Return _ s => s | Raise _ s => s end.

(* ------------------------------------------------------------------ *)
(** ** Python containers *)

Section Containers.
Variable A : Type.

(** [d.get(key)] on an insertion-ordered dict. *)
Fixpoint dict_get (d : list (string * A)) (key : string) : option A :=
  match d with
  | [] => None
  | (k', v) :: d' => if String.eqb k' key then Some v else dict_get d' key
  end.

(** [d[key] = v]: replaces in place when the key exists, appends otherwise. *)
Fixpoint dict_set (d : list (string * A)) (key : string) (v : A)
  : list (string * A) :=
  match d with
  | [] => [(key, v)]
  | (k', v') :: d' =>
      if String.eqb k' key then (k', v) :: d'
      else (k', v') :: dict_set d' key v
  end.

(** Position denoted by a Python index [i] in a list of length [len l]:
    negative indices count from the end, anything else is out of range. *)
Definition py_index (l : list A) (i : Z) : option nat :=
  let len := Z.of_nat (List.length l) in
  if ((0 <=? i) && (i <? len))%Z then Some (Z.to_nat i)
  else if ((- len <=? i) && (i <? 0))%Z then Some (Z.to_nat (len + i))
  else None.

Fixpoint list_set (l : list A) (i : nat) (x : A) : list A :=
  match l, i with
  | [], _ => []
  | _ :: l', O => x :: l'
  | y :: l', S i' => y :: list_set l' i' x
  end.
End Containers.

(* ------------------------------------------------------------------ *)
(** ** gerador.py *)

Module LinearCongruentialGenerator.
Record t : Type := mk { state : Z; a : Z; c : Z; m : Z }.

(** [__init__(seed=1, a=1664525, c=1013904223, m=2**32)]; the simulator
    only ever passes [seed]. *)
Definition init (seed : Z) : t := mk seed 1664525 1013904223 (2 ^ 32).

(** [next_random]: advances the state and returns [state / m]. *)
Definition next_random (g : t) : Q * t :=
  let s' := ((a g * state g + c g) mod m g)%Z in
  ((inject_Z s' / inject_Z (m g))%Q, mk s' (a g) (c g) (m g)).
End LinearCongruentialGenerator.

(* ------------------------------------------------------------------ *)
(** ** rede_filas.py: events *)

Inductive EType : Type := ARRIVAL | DEPARTURE.

Record Event : Type := mkEvent {
  ev_time : Q;
  ev_seq : Z;
  ev_etype : EType;
  ev_node_name : string (* field(compare=False) *)
}.

(** ["ARRIVAL" < "DEPARTURE"] as Python strings. *)
Definition etype_ltb (x y : EType) : bool :=
  match x, y with
  | ARRIVAL, DEPARTURE => true
  | _, _ => false
  end.

Definition Qltb (x y : Q) : bool := negb (Qle_bool y x).

(** [@dataclass(order=True)]: lexicographic order on [(time, seq, etype)]. *)
Definition event_ltb (x y : Event) : bool :=
  Qltb (ev_time x) (ev_time y)
  || (Qeq_bool (ev_time x) (ev_time y)
      && ((ev_seq x <? ev_seq y)%Z
          || ((ev_seq x =? ev_seq y)%Z && etype_ltb (ev_etype x) (ev_etype y)))).

(** [pop_least e rest] takes the least event out of [e :: rest]. *)
Fixpoint pop_least (e : Event) (rest : list Event) : Event * list Event :=
  match rest with
  | [] => (e, [])
  | x :: xs =>
      if event_ltb x e
      then let (least, r) := pop_least x xs in (least, e :: r)
      else let (least, r) := pop_least e xs in (least, x :: r)
    end.

(** [heapq.heappop]; [None] stands for the [IndexError] on an empty heap. *)
Definition heappop (h : list Event) : option (Event * list Event) :=
  match h with
  | [] => None
  | e :: rest => Some (pop_least e rest)
  end.

(** [heapq.heappush]. *)
Definition heappush (h : list Event) (e : Event) : list Event := h ++ [e].

(* ------------------------------------------------------------------ *)
(** ** rede_filas.py: Node *)

Module Node.
Record t : Type := mk {
  name : string;
  c : Z;                            (* servidores *)
  k : Z;                            (* capacidade total (fila + servico) *)
  service_sampler : Q * Q;          (* closure over (min_val, max_val) *)
  arrival_sampler : option (Q * Q);
  n : Z;
  tempo_estado : list Q;
  atendidos : Z;
  perdas : Z;
  admitted : Z  (* ghost: number of [admit] calls that returned True *)
}.

(** Construction followed by [__post_init__]:
    [tempo_estado = [0.0 for _ in range(k + 1)]]. *)
Definition init (name : string) (c k : Z) (service : Q * Q)
    (arrival : option (Q * Q)) : t :=
  mk name c k service arrival 0 (repeat 0%Q (Z.to_nat (k + 1))) 0 0 0.

(** [admit] of the source; the bare name is reserved here. *)
Definition admit_ (nd : t) : bool * t :=
  if (k nd <=? n nd)%Z then
    (false,
     mk (name nd) (c nd) (k nd) (service_sampler nd) (arrival_sampler nd)
        (n nd) (tempo_estado nd) (atendidos nd) (perdas nd + 1) (admitted nd))
  else
    (true,
     mk (name nd) (c nd) (k nd) (service_sampler nd) (arrival_sampler nd)
        (n nd + 1) (tempo_estado nd) (atendidos nd) (perdas nd)
        (admitted nd + 1)).

Definition start_service_if_possible (nd : t) : bool := (c nd <? n nd)%Z.

Definition finish_service_one (nd : t) : t :=
  mk (name nd) (c nd) (k nd) (service_sampler nd) (arrival_sampler nd)
     (n nd - 1) (tempo_estado nd) (atendidos nd + 1) (perdas nd)
     (admitted nd).

(** [node.tempo_estado[node.n] += dt]; [None] is Python's [IndexError]. *)
Definition add_time (dt : Q) (nd : t) : option t :=
  match py_index (tempo_estado nd) (n nd) with
  | Some i =>
      Some (mk (name nd) (c nd) (k nd) (service_sampler nd)
               (arrival_sampler nd) (n nd)
               (list_set (tempo_estado nd) i
                         (nth i (tempo_estado nd) 0 + dt)%Q)
               (atendidos nd) (perdas nd) (admitted nd))
  | None => None
  end.
End Node.

(* ------------------------------------------------------------------ *)
(** ** rede_filas.py: SimulationRNG *)

Module SimulationRNG.
Inductive source : Type :=
| FromList (numbers : list Q)                   (* self.source == 'list' *)
| FromLcg (lcg : LinearCongruentialGenerator.t) (* self.source == 'lcg' *).

Record t : Type := mk { src : source; used : Z }.

Definition exhausted : exn :=
  RuntimeError "Lista de números aleatórios esgotada.".

(** [u]: the counter is bumped first, so it also counts a failing call. *)
Definition u : M t Q := fun r =>
  let used' := (used r + 1)%Z in
  match src r with
  | FromList [] => Raise exhausted (mk (FromList []) used')
  | FromList (x :: rest) => Return x (mk (FromList rest) used')
  | FromLcg g =>
      let (x, g') := LinearCongruentialGenerator.next_random g in
      Return x (mk (FromLcg g') used')
  end.
End SimulationRNG.

(* ------------------------------------------------------------------ *)
(** ** Configuration (the dict handed to the constructors)

    Keys that the code reads with [d[key]] are plain fields; keys it reads
    with [in] or [.get] are optional. *)

Record QueueParams : Type := mkQueueParams {
  servers : Z;
  capacity : option Z;       (* params.get('capacity', float('inf')) *)
  minService : Q;
  maxService : Q;
  minArrival : option Q;
  maxArrival : option Q
}.

Record Rule : Type := mkRule {
  source : string;
  target : string;
  probability : Q
}.

Record Config : Type := mkConfig {
  rndnumbers : option (list Q);
  seeds : option (list Z);
  seed : option Z;
  queues : list (string * QueueParams);   (* config.get('queues', {}) *)
  network : list Rule;                    (* config.get('network', []) *)
  arrivals : list (string * Z)            (* config.get('arrivals', {}) *)
}.

Inductive result (A : Type) : Type :=
| Ok (a : A)
| Err (e : exn).

Arguments Ok {A} a.
Arguments Err {A} e.

Module RNGInit.
Import SimulationRNG.

(** [SimulationRNG.__init__]: the replay list is used when ['rndnumbers']
    is present and ['seeds'] is absent; otherwise the generator is seeded
    with [config.get('seed', 1)]. *)
Definition init (config : Config) : SimulationRNG.t :=
  match rndnumbers config, seeds config with
  | Some nums, None => mk (FromList nums) 0
  | _, _ =>
      let sd := match seed config with Some v => v | None => 1%Z end in
      mk (FromLcg (LinearCongruentialGenerator.init sd)) 0
  end.
End RNGInit.

(* ------------------------------------------------------------------ *)
(** ** rede_filas.py: NetworkSimulator *)

Module NetworkSimulator.

Record t : Type := mk {
  rng : SimulationRNG.t;
  nodes : list (string * Node.t);
  routing_table : list (string * list (string * Q));
  total_arrivals_target : Z;
  total_arrivals_count : Z;
  time : Q;
  last_update_time : Q;
  events : list Event;
  seq_counter : Z;
  processed : list Event  (* ghost: events popped so far, oldest first *)
}.

Definition set_rng (r : SimulationRNG.t) (s : t) : t :=
  mk r (nodes s) (routing_table s) (total_arrivals_target s)
     (total_arrivals_count s) (time s) (last_update_time s) (events s)
     (seq_counter s) (processed s).

Definition set_nodes (nds : list (string * Node.t)) (s : t) : t :=
  mk (rng s) nds (routing_table s) (total_arrivals_target s)
     (total_arrivals_count s) (time s) (last_update_time s) (events s)
     (seq_counter s) (processed s).

Definition set_routing_table (rt : list (string * list (string * Q)))
    (s : t) : t :=
  mk (rng s) (nodes s) rt (total_arrivals_target s)
     (total_arrivals_count s) (time s) (last_update_time s) (events s)
     (seq_counter s) (processed s).

Definition set_total_arrivals_target (v : Z) (s : t) : t :=
  mk (rng s) (nodes s) (routing_table s) v
     (total_arrivals_count s) (time s) (last_update_time s) (events s)
     (seq_counter s) (processed s).

Definition set_total_arrivals_count (v : Z) (s : t) : t :=
  mk (rng s) (nodes s) (routing_table s) (total_arrivals_target s)
     v (time s) (last_update_time s) (events s)
     (seq_counter s) (processed s).

Definition set_time (v : Q) (s : t) : t :=
  mk (rng s) (nodes s) (routing_table s) (total_arrivals_target s)
     (total_arrivals_count s) v (last_update_time s) (events s)
     (seq_counter s) (processed s).

Definition set_last_update_time (v : Q) (s : t) : t :=
  mk (rng s) (nodes s) (routing_table s) (total_arrivals_target s)
     (total_arrivals_count s) (time s) v (events s)
     (seq_counter s) (processed s).

(** [schedule]'s two writes: the counter and the heap. *)
Definition set_schedule (sq : Z) (evs : list Event) (s : t) : t :=
  mk (rng s) (nodes s) (routing_table s) (total_arrivals_target s)
     (total_arrivals_count s) (time s) (last_update_time s) evs
     sq (processed s).

(** A pop: the heap shrinks and the ghost history grows. *)
Definition set_popped (ev : Event) (evs : list Event) (s : t) : t :=
  mk (rng s) (nodes s) (routing_table s) (total_arrivals_target s)
     (total_arrivals_count s) (time s) (last_update_time s) evs
     (seq_counter s) (processed s ++ [ev]).

Local Open Scope py_scope.

(** [self.rng.u()] *)
Definition rng_u : M t Q := fun s =>
  match SimulationRNG.u (rng s) with
  | Return x r => Return x (set_rng r s)
  | Raise e r => Raise e (set_rng r s)
  end.

(** The closure returned by [_make_sampler(min_val, max_val)]. *)
Definition sample (range : Q * Q) : M t Q :=
  let (min_val, max_val) := range in
  u <- rng_u ;;
  ret (min_val + (max_val - min_val) * u)%Q.

(** [self.nodes[key]] *)
Definition get_node (key : string) : M t Node.t := fun s =>
  match dict_get (nodes s) key with
  | Some nd => Return nd s
  | None => Raise (KeyError key) s
  end.

(** Writing back the node object stored under [key]. *)
Definition put_node (key : string) (nd : Node.t) : M t unit :=
  modify (fun s => set_nodes (dict_set (nodes s) key nd) s).

(* --- construction ------------------------------------------------ *)

Definition build_node (name : string) (params : QueueParams)
  : result Node.t :=
  let service_sampler := (minService params, maxService params) in
  let arrival_sampler :=
    match minArrival params, maxArrival params with
    | Some lo, Some hi => Some (lo, hi)
    | _, _ => None
    end in
  match capacity params with
  | None => Err OverflowError              (* int(float('inf')) *)
  | Some capacity =>
      Ok (Node.init name (servers params) capacity
                    service_sampler arrival_sampler)
  end.

Fixpoint build_nodes (qs : list (string * QueueParams))
    (acc : list (string * Node.t)) : result (list (string * Node.t)) :=
  match qs with
  | [] => Ok acc
  | (name, params) :: qs' =>
      match build_node name params with
      | Ok nd => build_nodes qs' (dict_set acc name nd)
      | Err e => Err e
      end
  end.

(** [raw_routing]: rules grouped by source, in order of appearance. *)
Definition raw_routing (rules : list Rule)
  : list (string * list (string * Q)) :=
  fold_left
    (fun raw rule =>
       let old := match dict_get raw (source rule) with
                  | Some l => l
                  | None => []
                  end in
       dict_set raw (source rule) (old ++ [(target rule, probability rule)]))
    rules [].

(** [destinations.sort(key=lambda x: x['prob'])]: a stable sort. *)
Fixpoint insert_by_prob (x : string * Q) (l : list (string * Q))
  : list (string * Q) :=
  match l with
  | [] => [x]
  | y :: l' =>
      if Qltb (snd y) (snd x) then y :: insert_by_prob x l'
      else x :: y :: l'
  end.

Definition sort_by_prob (l : list (string * Q)) : list (string * Q) :=
  fold_right insert_by_prob [] l.

Fixpoint cumulative (cumulative_prob : Q) (dests : list (string * Q))
  : list (string * Q) :=
  match dests with
  | [] => []
  | (tgt, prob) :: rest =>
      let cumulative_prob := (cumulative_prob + prob)%Q in
      (tgt, cumulative_prob) :: cumulative cumulative_prob rest
  end.

Definition build_routing (rules : list Rule)
  : list (string * list (string * Q)) :=
  fold_left
    (fun table entry =>
       dict_set table (fst entry) (cumulative 0 (sort_by_prob (snd entry))))
    (raw_routing rules) [].

Definition sum_Z (l : list Z) : Z := fold_left Z.add l 0%Z.

(** [__init__], with [_build_network] inlined in its place. *)
Definition init (config : Config) : result t :=
  let rng := RNGInit.init config in
  match build_nodes (queues config) [] with
  | Err e => Err e
  | Ok nodes =>
      Ok (mk rng nodes (build_routing (network config))
             (sum_Z (map snd (arrivals config))) 0
             0 0 [] 0 [])
  end.

(* --- engine ------------------------------------------------------ *)

Definition schedule (time : Q) (etype : EType) (node_name : string)
  : M t unit :=
  modify (fun s =>
    let sq := (seq_counter s + 1)%Z in
    set_schedule sq (heappush (events s) (mkEvent time sq etype node_name)) s).

(** The [for node in self.nodes.values()] loop of [update_time_stats];
    the flag is false when some [tempo_estado[node.n]] was out of
    range, in which case the nodes before it are already updated. *)
Fixpoint add_time_nodes (dt : Q) (nds : list (string * Node.t))
  : list (string * Node.t) * bool :=
  match nds with
  | [] => ([], true)
  | (key, nd) :: rest =>
      match Node.add_time dt nd with
      | None => ((key, nd) :: rest, false)
      | Some nd' =>
          let (rest', ok) := add_time_nodes dt rest in
          ((key, nd') :: rest', ok)
      end
  end.

Definition update_time_stats (t_new : Q) : M t unit :=
  s <- get ;;
  let dt := (t_new - last_update_time s)%Q in
  (if Qltb 0 dt then
     let (nds, ok) := add_time_nodes dt (nodes s) in
     modify (set_nodes nds) ;;
     if ok then ret tt else raise IndexError
   else ret tt) ;;
  modify (set_last_update_time t_new).

Fixpoint first_match (u : Q) (rules : list (string * Q)) : option string :=
  match rules with
  | [] => None
  | (tgt, cumulative_prob) :: rest =>
      if Qltb u cumulative_prob then Some tgt else first_match u rest
  end.

Definition pick_destination (source_node_name : string)
  : M t (option string) :=
  s <- get ;;
  match dict_get (routing_table s) source_node_name with
  | None | Some [] => ret None
  | Some rules =>
      u <- rng_u ;;
      ret (first_match u rules)
  end.

(** [if fila.admit(): if fila.n <= fila.c: ... schedule(DEPARTURE)],
    on the node object stored under [key]. *)
Definition admit_and_serve (key : string) : M t unit :=
  fila <- get_node key ;;
  let (admitted, fila) := Node.admit_ fila in
  put_node key fila ;;
  if admitted then
    if (Node.n fila <=? Node.c fila)%Z then
      service_time <- sample (Node.service_sampler fila) ;;
      s <- get ;;
      schedule (time s + service_time)%Q DEPARTURE (Node.name fila)
    else ret tt
  else ret tt.

Definition on_arrival (key : string) : M t unit :=
  fila_origem <- get_node key ;;
  modify (fun s => set_total_arrivals_count (total_arrivals_count s + 1)%Z s) ;;
  match Node.arrival_sampler fila_origem with
  | Some range =>
      next_ia <- sample range ;;
      s <- get ;;
      schedule (time s + next_ia)%Q ARRIVAL (Node.name fila_origem)
  | None => ret tt
  end ;;
  admit_and_serve key.

(** Python truthiness of [dest_name]: [None] and [""] are false. *)
Definition truthy (dest_name : option string) : option string :=
  match dest_name with
  | Some EmptyString => None
  | other => other
  end.

Definition on_departure (key : string) : M t unit :=
  fila_origem <- get_node key ;;
  let fila_origem := Node.finish_service_one fila_origem in
  put_node key fila_origem ;;
  (if (Node.c fila_origem <=? Node.n fila_origem)%Z then
     service_time <- sample (Node.service_sampler fila_origem) ;;
     s <- get ;;
     schedule (time s + service_time)%Q DEPARTURE (Node.name fila_origem)
   else ret tt) ;;
  dest_name <- pick_destination (Node.name fila_origem) ;;
  match truthy dest_name with
  | Some dest => admit_and_serve dest
  | None => ret tt
  end.

(** One iteration of the [while] body. *)
Definition step : M t unit :=
  s <- get ;;
  match heappop (events s) with
  | None => raise IndexError
  | Some (ev, rest) =>
      modify (set_popped ev rest) ;;
      update_time_stats (ev_time ev) ;;
      modify (set_time (ev_time ev)) ;;
      match ev_etype ev with
      | ARRIVAL => on_arrival (ev_node_name ev)
      | DEPARTURE => on_departure (ev_node_name ev)
      end
  end.

(** The [while] condition. *)
Definition running (s : t) : bool :=
  match events s with
  | [] => false
  | _ :: _ =>
      (total_arrivals_target s =? 0)%Z
      || (total_arrivals_count s <? total_arrivals_target s)%Z
  end.

(** The [while] loop; [None] when [fuel] iterations did not end it. *)
Fixpoint loop (fuel : nat) (s : t) : option (outcome t unit) :=
  if running s then
    match fuel with
    | O => None
    | S fuel' =>
        match step s with
        | Return _ s' => loop fuel' s'
        | Raise e s' => Some (Raise e s')
        end
    end
  else Some (Return tt s).

(** The first [for] loop of [run]. *)
Fixpoint schedule_first_arrivals (items : list (string * Node.t))
  : M t unit :=
  match items with
  | [] => ret tt
  | (name, node) :: rest =>
      match Node.arrival_sampler node with
      | Some range =>
          first_arrival_time <- sample range ;;
          schedule first_arrival_time ARRIVAL name
      | None => ret tt
      end ;;
      schedule_first_arrivals rest
  end.

Record QueueResult : Type := mkQueueResult {
  servidores : Z;
  capacidade : Z;
  res_atendidos : Z;
  res_perdas : Z;
  res_tempo_estado : list Q;
  prob_estado : list Q
}.

Record Results : Type := mkResults {
  tempo_global : Q;
  randoms_usados : Z;
  chegadas_totais : Z;
  filas : list (string * QueueResult)
}.

Definition sum_Q (l : list Q) : Q := fold_left Qplus l 0%Q.

Definition node_result (node : Node.t) : QueueResult :=
  let total_time := sum_Q (Node.tempo_estado node) in
  mkQueueResult (Node.c node) (Node.k node) (Node.atendidos node)
    (Node.perdas node) (Node.tempo_estado node)
    (map (fun tm => if Qltb 0 total_time then (tm / total_time)%Q else 0%Q)
         (Node.tempo_estado node)).

Definition _get_results (s : t) : Results :=
  mkResults (time s) (SimulationRNG.used (rng s)) (total_arrivals_count s)
    (fold_left (fun acc item => dict_set acc (fst item) (node_result (snd item)))
               (nodes s) []).

(** [run]; [None] when the loop needs more than [fuel] iterations. *)
Definition run (fuel : nat) (s : t) : option (outcome t Results) :=
  match schedule_first_arrivals (nodes s) s with
  | Raise e s1 => Some (Raise e s1)
  | Return _ s1 =>
      match loop fuel s1 with
      | None => None
      | Some (Raise e s2) => Some (Raise e s2)
      | Some (Return _ s2) =>
          match update_time_stats (time s2) s2 with
          | Raise e s3 => Some (Raise e s3)
          | Return _ s3 => Some (Return (_get_results s3) s3)
          end
      end
  end.

End NetworkSimulator.

(* ------------------------------------------------------------------ *)
(** ** Scenario configurations *)

Module Scenario.
Local Open Scope string_scope.

(** Single node, c=1, k=1, arrivals every 1, services of 0.5, target of
    3 external arrivals, replay sequence of [len] zeros. *)
Definition single_queue : QueueParams :=
  mkQueueParams 1 (Some 1%Z) (1 # 2) (1 # 2) (Some 1%Q) (Some 1%Q).

Definition single (len : nat) : Config :=
  mkConfig (Some (repeat 0%Q len)) None None
           [("Q1", single_queue)] [] [("Q1", 3%Z)].

(** Routing rules source->A 0.3 and source->B 0.7, one replay deviate. *)
Definition plain_queue : QueueParams :=
  mkQueueParams 1 (Some 5%Z) 1 2 None None.

Definition routed (rules : list Rule) (u : Q) : Config :=
  mkConfig (Some [u]) None None
           [("source", plain_queue); ("A", plain_queue); ("B", plain_queue)]
           rules [].

Definition rules_full : list Rule :=
  [mkRule "source" "B" (7 # 10); mkRule "source" "A" (3 # 10)].

Definition rules_residual : list Rule :=
  [mkRule "source" "A" (3 # 10); mkRule "source" "B" (6 # 10)].

(** A seed together with a replay list, a negative capacity and a
    probability above 1. *)
Definition contradictory : Config :=
  mkConfig (Some [1 # 2]) None (Some 7%Z)
           [("Q1", mkQueueParams 1 (Some (-1)%Z) 1 2 (Some 1%Q) (Some 2%Q))]
           [mkRule "Q1" "Q1" (3 # 2)] [("Q1", 2%Z)].

(** A queue definition that leaves ['capacity'] out. *)
Definition no_capacity : Config :=
  mkConfig None None (Some 1%Z)
           [("Q1", mkQueueParams 1 None 1 2 (Some 1%Q) (Some 2%Q))]
           [] [("Q1", 2%Z)].

(** Services that end before they start: arrivals every 2, services
    of -1, two target arrivals. *)
Definition backwards : Config :=
  mkConfig (Some (repeat 0%Q 10)) None None
           [("Q1", mkQueueParams 1 (Some 1%Z) (-1) (-1) (Some 2%Q) (Some 2%Q))]
           [] [("Q1", 2%Z)].

(** A node of capacity -1 with immediate arrivals: every arrival comes
    at time 0 and is turned away. *)
Definition negative_capacity : Config :=
  mkConfig (Some (repeat 0%Q 10)) None None
           [("Q1", mkQueueParams 1 (Some (-1)%Z) 1 1 (Some 0%Q) (Some 0%Q))]
           [] [("Q1", 2%Z)].

(** What the spec calls malformed or contradictory construction input. *)
Definition malformed (config : Config) : Prop :=
  (rndnumbers config <> None /\ seed config <> None)
  \/ Exists (fun q => exists cap, capacity (snd q) = Some cap /\ (cap < 0)%Z)
            (queues config)
  \/ Exists (fun r => ~ (0 <= probability r <= 1)%Q) (network config).

(** [NetworkSimulator(config).run()] with a bound on the loop. *)
Definition simulate (fuel : nat) (config : Config)
  : result (option (outcome NetworkSimulator.t NetworkSimulator.Results)) :=
  match NetworkSimulator.init config with
  | Ok s => Ok (NetworkSimulator.run fuel s)
  | Err e => Err e
  end.
End Scenario.

(* ------------------------------------------------------------------ *)
(** ** Specification predicates *)

Import NetworkSimulator.

(** Hoare triples for the monad: [Q] after a return, [E] after a raise. *)
Definition triple {S A} (P : S -> Prop) (c : M S A)
    (Q : A -> S -> Prop) (E : S -> Prop) : Prop :=
  forall s, P s ->
    match c s with
    | Return a s' => Q a s'
    | Raise _ s' => E s'
    end.

(** The routing decision in the words of the spec: the first entry of the
    table whose cumulative probability is strictly above [u]. *)
Definition first_above (u : Q) (rules : list (string * Q))
    (tgt : string) : Prop :=
  exists before cum after,
    rules = before ++ (tgt, cum) :: after
    /\ (u < cum)%Q
    /\ Forall (fun entry => (snd entry <= u)%Q) before.

(** Concrete states used to exercise the statements below. *)
Module Sample.
Local Open Scope string_scope.

Definition replay (numbers : list Q) : SimulationRNG.t :=
  SimulationRNG.mk (SimulationRNG.FromList numbers) 0.

(** A simulator whose only content is a routing table and a replay list. *)
Definition routing_state (numbers : list Q) : NetworkSimulator.t :=
  NetworkSimulator.mk (replay numbers) []
    [("source", [("A", 3 # 10); ("B", 1)]); ("sink", [])]
    0 0 0 0 [] 0 [].

Definition empty : NetworkSimulator.t :=
  NetworkSimulator.mk (replay []) [] [] 0 0 0 0 [] 0 [].

(** The simulator constructed from [config]. *)
Definition constructed (config : Config) : NetworkSimulator.t :=
  match NetworkSimulator.init config with
  | Ok s => s
  | Err _ => empty
  end.

(** The state a run of [config] ends in when it completes within [fuel]
    iterations. *)
Definition completed (fuel : nat) (config : Config)
  : option NetworkSimulator.t :=
  match Scenario.simulate fuel config with
  | Ok (Some (Return _ s)) => Some s
  | _ => None
  end.

Definition final (fuel : nat) (config : Config) : NetworkSimulator.t :=
  match completed fuel config with
  | Some s => s
  | None => empty
  end.

(** The node stored under [key]. *)
Definition node (s : NetworkSimulator.t) (key : string) : Node.t :=
  match dict_get (nodes s) key with
  | Some nd => nd
  | None => Node.init "" 0 0 (0, 0) None
  end.

(** The state in which a run of [config] was aborted by an exception. *)
Definition aborted (fuel : nat) (config : Config)
  : option (exn * NetworkSimulator.t) :=
  match Scenario.simulate fuel config with
  | Ok (Some (Raise e s)) => Some (e, s)
  | _ => None
  end.

(** Per node: name, occupancy, capacity, served, lost, time in state. *)
Definition census (s : NetworkSimulator.t)
  : list (string * Z * Z * Z * Z * list Q) :=
  map (fun item =>
         (fst item, Node.n (snd item), Node.k (snd item),
          Node.atendidos (snd item), Node.perdas (snd item),
          map Qred (Node.tempo_estado (snd item))))
      (nodes s).

(** The single-node scenario with seven deviates: the constructed
    simulator, the state its run ends in, and its node at that point. *)
Definition single_start : NetworkSimulator.t :=
  Eval vm_compute in constructed (Scenario.single 7).

Definition single_end : NetworkSimulator.t :=
  Eval vm_compute in final 10 (Scenario.single 7).

Definition single_node : Node.t :=
  Eval vm_compute in node single_end "Q1".
End Sample.

(** *** Reachable states of [run] *)

(** States at the head of the [while] loop of a run started in [s0]. *)
Inductive at_loop_head (s0 : NetworkSimulator.t) : NetworkSimulator.t -> Prop :=
| head_first : forall s1,
    schedule_first_arrivals (nodes s0) s0 = Return tt s1 ->
    at_loop_head s0 s1
| head_step : forall s s',
    at_loop_head s0 s ->
    running s = true ->
    step s = Return tt s' ->
    at_loop_head s0 s'.

(** Every state a run started in [s0] can be observed in: the constructed
    simulator, the loop heads, the state an exception leaves behind, and the
    state after the final statistics update. *)
Inductive reachable (s0 : NetworkSimulator.t) : NetworkSimulator.t -> Prop :=
| reach_constructed : reachable s0 s0
| reach_first_raise : forall e s1,
    schedule_first_arrivals (nodes s0) s0 = Raise e s1 ->
    reachable s0 s1
| reach_head : forall s, at_loop_head s0 s -> reachable s0 s
| reach_step_raise : forall s e s',
    at_loop_head s0 s ->
    running s = true ->
    step s = Raise e s' ->
    reachable s0 s'
| reach_final : forall s,
    at_loop_head s0 s ->
    running s = false ->
    reachable s0 (final_state (update_time_stats (time s) s)).

(** *** Occupancy bookkeeping *)

Definition is_departure_of (key : string) (e : Event) : bool :=
  match ev_etype e with
  | DEPARTURE => String.eqb (ev_node_name e) key
  | ARRIVAL => false
  end.

(** Number of DEPARTURE events waiting in the heap for the node [key]. *)
Definition pending_departures (key : string) (evs : list Event) : Z :=
  Z.of_nat (List.length (filter (is_departure_of key) evs)).

(** Number of customers in service: [min(n, c)], and none without servers. *)
Definition busy_servers (nd : Node.t) : Z :=
  Z.max 0 (Z.min (Node.n nd) (Node.c nd)).

Definition node_ok (nd : Node.t) : Prop :=
  (0 <= Node.n nd)%Z
  /\ ((0 <= Node.k nd)%Z -> (Node.n nd <= Node.k nd)%Z)
  /\ Node.admitted nd = (Node.atendidos nd + Node.n nd)%Z.

(** Occupancy is within bounds and every admitted customer is accounted
    for, at each node of the dict. *)
Definition bounds (s : NetworkSimulator.t) : Prop :=
  forall key nd,
    dict_get (nodes s) key = Some nd ->
    Node.name nd = key /\ node_ok nd.

(** [bounds], and the heap holds one DEPARTURE per customer in service,
    up to [extra key] departures in flight inside the current step. *)
Definition wf (extra : string -> Z) (s : NetworkSimulator.t) : Prop :=
  forall key nd,
    dict_get (nodes s) key = Some nd ->
    Node.name nd = key /\ node_ok nd
    /\ (pending_departures key (events s) + extra key = busy_servers nd)%Z.

Definition none_in_flight : string -> Z := fun _ => 0%Z.

Definition in_flight (ev : Event) : string -> Z :=
  fun key => if is_departure_of key ev then 1%Z else 0%Z.

(** One departure of the node [name] is in flight. *)
Definition departing (name : string) : string -> Z :=
  fun key => if String.eqb name key then 1%Z else 0%Z.

(** [nd'] differs from [nd] in its time-in-state vector at most. *)
Definition same_but_tempo (nd nd' : Node.t) : Prop :=
  Node.name nd' = Node.name nd
  /\ Node.c nd' = Node.c nd
  /\ Node.k nd' = Node.k nd
  /\ Node.service_sampler nd' = Node.service_sampler nd
  /\ Node.arrival_sampler nd' = Node.arrival_sampler nd
  /\ Node.n nd' = Node.n nd
  /\ Node.atendidos nd' = Node.atendidos nd
  /\ Node.perdas nd' = Node.perdas nd
  /\ Node.admitted nd' = Node.admitted nd.

(** *** Deviate accounting *)

(** The source is a replay list, and the values handed out so far plus the
    values left make [total]. *)
Definition replay_balance (total : Z) (r : SimulationRNG.t) : Prop :=
  exists rest,
    SimulationRNG.src r = SimulationRNG.FromList rest
    /\ (SimulationRNG.used r + Z.of_nat (List.length rest) = total)%Z.

(** *** Time accounting *)

Definition unit_interval (x : Q) : Prop := (0 <= x <= 1)%Q.

(** Every deviate the source can still hand out lies in [0, 1]. *)
Definition unit_deviates (r : SimulationRNG.t) : Prop :=
  match SimulationRNG.src r with
  | SimulationRNG.FromList numbers => Forall unit_interval numbers
  | SimulationRNG.FromLcg g => (0 < LinearCongruentialGenerator.m g)%Z
  end.

Definition nonneg_range (range : Q * Q) : Prop :=
  (0 <= fst range)%Q /\ (0 <= snd range)%Q.

Definition nonneg_samplers (nd : Node.t) : Prop :=
  nonneg_range (Node.service_sampler nd)
  /\ (forall range, Node.arrival_sampler nd = Some range -> nonneg_range range).

(** No inter-arrival or service time sampled from [config] can be
    negative: the bounds of every range are non-negative and the replay
    deviates lie in [0, 1]. *)
Definition nonneg_durations (config : Config) : Prop :=
  Forall (fun q =>
            (0 <= minService (snd q))%Q /\ (0 <= maxService (snd q))%Q
            /\ (forall lo, minArrival (snd q) = Some lo -> (0 <= lo)%Q)
            /\ (forall hi, maxArrival (snd q) = Some hi -> (0 <= hi)%Q))
         (queues config)
  /\ (forall numbers,
        rndnumbers config = Some numbers -> Forall unit_interval numbers).

(** Every node's time-in-state adds up to [upto], and nothing is
    scheduled before [next]. *)
Definition clock (upto next : Q) (s : NetworkSimulator.t) : Prop :=
  unit_deviates (rng s)
  /\ (forall ev, In ev (events s) -> (next <= ev_time ev)%Q)
  /\ (forall key nd,
        dict_get (nodes s) key = Some nd ->
        nonneg_samplers nd /\ (sum_Q (Node.tempo_estado nd) == upto)%Q).

(** The clock invariant at the head of the loop. *)
Definition timed (s : NetworkSimulator.t) : Prop :=
  (last_update_time s == time s)%Q /\ clock (time s) (time s) s.

(** After [ev] was popped, before the statistics update. *)
Definition popped (ev : Event) (s : NetworkSimulator.t) : Prop :=
  (last_update_time s == time s)%Q
  /\ (time s <= ev_time ev)%Q
  /\ clock (time s) (ev_time ev) s.

(** After the statistics update for [ev], before the clock is advanced. *)
Definition updated (ev : Event) (s : NetworkSimulator.t) : Prop :=
  (last_update_time s == ev_time ev)%Q
  /\ clock (ev_time ev) (ev_time ev) s.

(** [nd'] has the time-in-state vector and the samplers of [nd]. *)
Definition same_stats (nd nd' : Node.t) : Prop :=
  Node.tempo_estado nd' = Node.tempo_estado nd
  /\ Node.service_sampler nd' = Node.service_sampler nd
  /\ Node.arrival_sampler nd' = Node.arrival_sampler nd.

(** *** What a run leaves alone *)

(** [nd'] is [nd] later in the run: the same node definition, tallies
    that have not gone down, a time-in-state vector of the same length. *)
Definition advanced (nd nd' : Node.t) : Prop :=
  Node.name nd' = Node.name nd
  /\ Node.c nd' = Node.c nd
  /\ Node.k nd' = Node.k nd
  /\ Node.service_sampler nd' = Node.service_sampler nd
  /\ Node.arrival_sampler nd' = Node.arrival_sampler nd
  /\ (Node.atendidos nd <= Node.atendidos nd')%Z
  /\ (Node.perdas nd <= Node.perdas nd')%Z
  /\ List.length (Node.tempo_estado nd') = List.length (Node.tempo_estado nd).

(** [s] is a later state of the simulator that was in state [s0]. *)
Definition follows (s0 s : NetworkSimulator.t) : Prop :=
  routing_table s = routing_table s0
  /\ total_arrivals_target s = total_arrivals_target s0
  /\ map fst (nodes s) = map fst (nodes s0)
  /\ (seq_counter s0 <= seq_counter s)%Z
  /\ (total_arrivals_count s0 <= total_arrivals_count s)%Z
  /\ (SimulationRNG.used (rng s0) <= SimulationRNG.used (rng s))%Z
  /\ (forall key nd,
        dict_get (nodes s0) key = Some nd ->
        exists nd', dict_get (nodes s) key = Some nd' /\ advanced nd nd').

(** *** Counting external arrivals *)

Definition is_arrival (e : Event) : bool :=
  match ev_etype e with ARRIVAL => true | DEPARTURE => false end.

(** Number of ARRIVAL events the loop has processed so far. *)
Definition arrivals_processed (s : NetworkSimulator.t) : Z :=
  Z.of_nat (List.length (filter is_arrival (processed s))).

(** The fields the arrival bookkeeping is about. *)
Definition ledger (s : NetworkSimulator.t) : Z * Z * list Event :=
  (total_arrivals_target s, total_arrivals_count s, processed s).

(** The arrival counter counts the processed ARRIVAL events ([pending]
    of them not yet counted) and respects a positive target; with a
    negative target nothing is ever processed. *)
Definition counted (pending : Z) (s : NetworkSimulator.t) : Prop :=
  (total_arrivals_count s + pending = arrivals_processed s)%Z
  /\ ((0 < total_arrivals_target s)%Z ->
      (total_arrivals_count s + pending <= total_arrivals_target s)%Z)
  /\ ((total_arrivals_target s < 0)%Z ->
      total_arrivals_count s = 0%Z /\ processed s = []).

(** *** The order of events *)

Definition etype_lt (x y : EType) : Prop := x = ARRIVAL /\ y = DEPARTURE.

(** The dataclass order on [(time, seq, etype)], as a proposition. *)
Definition event_lt (x y : Event) : Prop :=
  (ev_time x < ev_time y)%Q
  \/ ((ev_time x == ev_time y)%Q
      /\ ((ev_seq x < ev_seq y)%Z
          \/ (ev_seq x = ev_seq y /\ etype_lt (ev_etype x) (ev_etype y)))).

(** The sequence numbers [1 .. n] handed out by [schedule]. *)
Definition seq_numbers (n : Z) : list Z :=
  map Z.of_nat (seq 1 (Z.to_nat n)).

(** The events processed so far and the events waiting in the heap carry,
    between them, each sequence number handed out so far exactly once. *)
Definition fresh_seqs (s : NetworkSimulator.t) : Prop :=
  (0 <= seq_counter s)%Z
  /\ Permutation (map ev_seq (processed s ++ events s))
                 (seq_numbers (seq_counter s)).

(** *** Routing rules *)

(** The destinations declared for [src], in the order of the rules. *)
Definition rules_of (src : string) (rules : list Rule)
  : list (string * Q) :=
  map (fun rule => (target rule, probability rule))
      (filter (fun rule => String.eqb (source rule) src) rules).

(** Non-decreasing in the second component. *)
Definition ascending (l : list (string * Q)) : Prop :=
  StronglySorted (fun x y => (snd x <= snd y)%Q) l.

(** The entries of [l] whose probability is [p], in their order in [l]. *)
Definition with_prob (p : Q) (l : list (string * Q)) : list (string * Q) :=
  filter (fun d => Qeq_bool (snd d) p) l.

(** [cumulative_prob] after the first [len] destinations of [dests], added
    up from [0.0] in the order of the loop. *)
Definition running_sum (len : nat) (dests : list (string * Q)) : Q :=
  fold_left Qplus (map snd (firstn len dests)) 0%Q.

(** *** The layout of the heap

    [heapq] keeps the events in a list whose arrangement is its own
    business; [heappop] takes a least event out of whatever arrangement it
    finds. *)

Definition set_events (evs : list Event) (s : NetworkSimulator.t)
  : NetworkSimulator.t :=
  NetworkSimulator.mk (rng s) (nodes s) (routing_table s)
    (total_arrivals_target s) (total_arrivals_count s) (time s)
    (last_update_time s) evs (seq_counter s) (processed s).

(** The two states hold the same events, possibly arranged differently,
    and agree on everything else. *)
Definition same_up_to_heap (s s' : NetworkSimulator.t) : Prop :=
  Permutation (events s) (events s') /\ set_events [] s = set_events [] s'.

(** Both returned the same value, or both raised the same exception, in
    states that are the same up to the layout of the heap. *)
Definition same_outcome {A} (o o' : outcome NetworkSimulator.t A) : Prop :=
  match o, o' with
  | Return a s, Return a' s' => a = a' /\ same_up_to_heap s s'
  | Raise e s, Raise e' s' => e = e' /\ same_up_to_heap s s'
  | _, _ => False
  end.

(** The [while] loop when every iteration may find the heap in any
    arrangement of its events. *)
Inductive loop_any_layout
  : NetworkSimulator.t -> outcome NetworkSimulator.t unit -> Prop :=
| any_done : forall s,
    running s = false -> loop_any_layout s (Return tt s)
| any_raise : forall s s1 e s2,
    running s = true ->
    same_up_to_heap s s1 ->
    step s1 = Raise e s2 ->
    loop_any_layout s (Raise e s2)
| any_step : forall s s1 s2 o,
    running s = true ->
    same_up_to_heap s s1 ->
    step s1 = Return tt s2 ->
    loop_any_layout s2 o ->
    loop_any_layout s o.

(** [run] over [loop_any_layout]. *)
Definition run_any_layout (s : NetworkSimulator.t)
    (o : outcome NetworkSimulator.t Results) : Prop :=
  match schedule_first_arrivals (nodes s) s with
  | Raise e s1 => o = Raise e s1
  | Return _ s1 =>
      exists ol,
        loop_any_layout s1 ol
        /\ match ol with
           | Raise e s2 => o = Raise e s2
           | Return _ s2 =>
               match update_time_stats (time s2) s2 with
               | Raise e s3 => o = Raise e s3
               | Return _ s3 => o = Return (_get_results s3) s3
               end
           end
  end.

Definition map_state {A} (g : NetworkSimulator.t -> NetworkSimulator.t)
    (o : outcome NetworkSimulator.t A) : outcome NetworkSimulator.t A :=
  match o with
  | Return a s => Return a (g s)
  | Raise e s => Raise e (g s)
  end.

(** [t0] with the events [evs] put in front of its own. *)
Definition rebase (evs : list Event) (t0 : NetworkSimulator.t)
  : NetworkSimulator.t :=
  set_events (evs ++ events t0) t0.

(** [c] never looks at the heap; it only pushes onto it. *)
Definition heap_oblivious {A} (c : M NetworkSimulator.t A) : Prop :=
  forall s evs,
    c (set_events evs s) = map_state (rebase evs) (c (set_events [] s)).

(** What an iteration does with the event it popped. *)
Definition handle (ev : Event) : M NetworkSimulator.t unit :=
  bind (update_time_stats (ev_time ev)) (fun _ =>
  bind (modify (set_time (ev_time ev))) (fun _ =>
  match ev_etype ev with
  | ARRIVAL => on_arrival (ev_node_name ev)
  | DEPARTURE => on_departure (ev_node_name ev)
  end)).

(** *** Exceptions a run can raise *)

(** [c], started in a state satisfying [P], either returns a value and a
    state related by [R], or raises an exception [e] in a state [s] such
    that [ok e s]. *)
Definition raises_only {S A} (ok : exn -> S -> Prop) (P : S -> Prop)
    (c : M S A) (R : A -> S -> Prop) : Prop :=
  forall s, P s ->
    match c s with
    | Return a s' => R a s'
    | Raise e s' => ok e s'
    end.

(** The exception is the exhaustion error of the replay list, which is
    empty. *)
Definition out_of_deviates (e : exn) (s : NetworkSimulator.t) : Prop :=
  e = SimulationRNG.exhausted
  /\ SimulationRNG.src (rng s) = SimulationRNG.FromList [].

Definition node_sound (key : string) (nd : Node.t) : Prop :=
  Node.name nd = key
  /\ (0 <= Node.k nd)%Z
  /\ List.length (Node.tempo_estado nd) = Z.to_nat (Node.k nd + 1).

(** Every routing target is the empty string or a node of [s0]. *)
Definition routes_declared (s0 : NetworkSimulator.t) : Prop :=
  forall src rules tgt cum,
    dict_get (routing_table s0) src = Some rules ->
    In (tgt, cum) rules ->
    tgt = EmptyString \/ In tgt (map fst (nodes s0)).

(** [s] has the node names and the routing table of [s0], every node is
    stored under its own name with a non-negative capacity and one
    time-in-state slot per occupancy level, and every pending event is for
    a node that exists. *)
Definition sound (s0 s : NetworkSimulator.t) : Prop :=
  map fst (nodes s) = map fst (nodes s0)
  /\ routing_table s = routing_table s0
  /\ (forall ev, In ev (events s) ->
                 In (ev_node_name ev) (map fst (nodes s0)))
  /\ (forall key nd, dict_get (nodes s) key = Some nd -> node_sound key nd).

(** No capacity is negative and every rule sends customers to a queue
    of the configuration (or to the empty name, which [run] takes for
    "leaves the network"). *)
Definition sane (config : Config) : Prop :=
  Forall (fun q => forall cap, capacity (snd q) = Some cap -> (0 <= cap)%Z)
         (queues config)
  /\ Forall (fun rule => target rule = EmptyString
                         \/ In (target rule) (map fst (queues config)))
            (network config).

Definition from_lcg (r : SimulationRNG.t) : Prop :=
  exists g, SimulationRNG.src r = SimulationRNG.FromLcg g.

(** *** External arrival streams *)

Definition is_arrival_of (key : string) (e : Event) : bool :=
  match ev_etype e with
  | ARRIVAL => String.eqb (ev_node_name e) key
  | DEPARTURE => false
  end.

(** Number of ARRIVAL events waiting in the heap for the node [key]. *)
Definition pending_arrivals (key : string) (evs : list Event) : Z :=
  Z.of_nat (List.length (filter (is_arrival_of key) evs)).

(** 1 for a node with an arrival sampler, 0 for a node without. *)
Definition stream_count (nd : Node.t) : Z :=
  match Node.arrival_sampler nd with Some _ => 1%Z | None => 0%Z end.

Definition arriving (ev : Event) : string -> Z :=
  fun key => if is_arrival_of key ev then 1%Z else 0%Z.

(** The heap holds one ARRIVAL for every node with an arrival sampler
    and none for the others, up to [extra key] arrivals in flight inside
    the current step. *)
Definition streams (extra : string -> Z) (s : NetworkSimulator.t) : Prop :=
  forall key nd,
    dict_get (nodes s) key = Some nd ->
    Node.name nd = key
    /\ (pending_arrivals key (events s) + extra key = stream_count nd)%Z.

(** Some node has an arrival sampler. *)
Definition has_stream (s : NetworkSimulator.t) : Prop :=
  exists key nd,
    dict_get (nodes s) key = Some nd /\ Node.arrival_sampler nd <> None.

(* ================================================================== *)
(** * Proofs *)

Unset Implicit Arguments.

(** ** Comparisons *)

Lemma Qltb_lt (x y : Q) : Qltb x y = true <-> (x < y)%Q.
Proof.
  unfold Qltb. rewrite negb_true_iff. split; intro H.
  - apply Qnot_le_lt. intro Hle. apply Qle_bool_iff in Hle. congruence.
  - destruct (Qle_bool y x) eqn:E; auto.
    apply Qle_bool_iff in E. exfalso. apply (Qlt_not_le _ _ H E).
Qed.

Lemma Qltb_ge (x y : Q) : Qltb x y = false <-> (y <= x)%Q.
Proof.
  unfold Qltb. rewrite negb_false_iff. apply Qle_bool_iff.
Qed.

(** ** Routing resolver *)

Lemma first_match_some (u : Q) (rules : list (string * Q)) (tgt : string) :
  first_match u rules = Some tgt <-> first_above u rules tgt.
Proof.
  induction rules as [|[t0 cum0] rest IH]; simpl.
  - split; [discriminate|].
    intros (before & cum & after & Heq & _). destruct before; discriminate.
  - destruct (Qltb u cum0) eqn:E.
    + apply Qltb_lt in E. split.
      * intros [= <-]. exists [], cum0, rest. simpl. auto.
      * intros (before & cum & after & Heq & Hlt & Hall).
        destruct before as [|[t1 c1] before]; simpl in Heq.
        -- congruence.
        -- injection Heq as -> -> _. inversion Hall; subst. simpl in *.
           exfalso. apply (Qlt_not_le _ _ E). assumption.
    + apply Qltb_ge in E. rewrite IH. split.
      * intros (before & cum & after & -> & Hlt & Hall).
        exists ((t0, cum0) :: before), cum, after. simpl. auto.
      * intros (before & cum & after & Heq & Hlt & Hall).
        destruct before as [|[t1 c1] before]; simpl in Heq.
        -- injection Heq as -> -> _.
           exfalso. apply (Qlt_not_le _ _ Hlt). assumption.
        -- injection Heq as -> -> ->. inversion Hall; subst.
           exists before, cum, after. auto.
Qed.

Lemma first_match_none (u : Q) (rules : list (string * Q)) :
  first_match u rules = None
  <-> Forall (fun entry => (snd entry <= u)%Q) rules.
Proof.
  induction rules as [|[t0 cum0] rest IH]; simpl.
  - split; auto.
  - destruct (Qltb u cum0) eqn:E.
    + apply Qltb_lt in E. split; [discriminate|].
      intro H. inversion H; subst. simpl in *.
      exfalso. apply (Qlt_not_le _ _ E). assumption.
    + apply Qltb_ge in E. rewrite IH. split.
      * intro H. constructor; assumption.
      * intro H. inversion H; assumption.
Qed.

Lemma pick_destination_draws (s : NetworkSimulator.t) (src : string)
    (rules : list (string * Q)) :
  dict_get (routing_table s) src = Some rules ->
  rules <> [] ->
  pick_destination src s =
    match SimulationRNG.u (rng s) with
    | Return u r => Return (first_match u rules) (set_rng r s)
    | Raise e r => Raise e (set_rng r s)
    end.
Proof.
  intros Hget Hne. unfold pick_destination, bind, get. rewrite Hget.
  destruct rules as [|entry rest]; [congruence|].
  unfold rng_u. destruct (SimulationRNG.u (rng s)); reflexivity.
Qed.

(** C4. With a non-empty routing table and a drawn deviate [u],
    [pick_destination] returns the target of the first table entry whose
    cumulative probability is strictly greater than [u] (an entry equal to
    [u] is passed over), and [None] when every cumulative value is at most
    [u]; with rules source->A 0.3 and source->B 0.7 the deviate 0.5 gives B,
    and with rules summing to 0.9 the deviate 0.95 gives [None]. *)
Theorem pick_destination_first_strictly_greater :
  (forall (s : NetworkSimulator.t) (src : string)
          (rules : list (string * Q)) (u : Q) (r : SimulationRNG.t),
      dict_get (routing_table s) src = Some rules ->
      rules <> [] ->
      SimulationRNG.u (rng s) = Return u r ->
      exists dest,
        pick_destination src s = Return dest (set_rng r s)
        /\ (forall tgt, dest = Some tgt <-> first_above u rules tgt)
        /\ (dest = None
            <-> Forall (fun entry => (snd entry <= u)%Q) rules))
  /\ (forall s,
        NetworkSimulator.init (Scenario.routed Scenario.rules_full (1 # 2)) = Ok s ->
        exists s', pick_destination "source" s = Return (Some "B"%string) s')
  /\ (forall s,
        NetworkSimulator.init (Scenario.routed Scenario.rules_full (3 # 10)) = Ok s ->
        exists s', pick_destination "source" s = Return (Some "B"%string) s')
  /\ (forall s,
        NetworkSimulator.init (Scenario.routed Scenario.rules_residual (95 # 100)) = Ok s ->
        exists s', pick_destination "source" s = Return None s').
Proof.
  split; [|repeat split].
  - intros s src rules u r Hget Hne Hu.
    exists (first_match u rules). split; [|split].
    + rewrite (pick_destination_draws s src rules Hget Hne), Hu. reflexivity.
    + intro tgt. apply first_match_some.
    + apply first_match_none.
  - intros s [= <-]. eexists. vm_compute. reflexivity.
  - intros s [= <-]. eexists. vm_compute. reflexivity.
  - intros s [= <-]. eexists. vm_compute. reflexivity.
Qed.

(** C10. For a source with no outgoing rules, [pick_destination] returns
    [None] and leaves the whole simulator state as it was: the usage
    counter, the generator state and the rest of the replay list are
    untouched. *)
Theorem pick_destination_without_rules_draws_nothing :
  forall (s : NetworkSimulator.t) (src : string),
    dict_get (routing_table s) src = None
    \/ dict_get (routing_table s) src = Some [] ->
    pick_destination src s = Return None s
    /\ rng (final_state (pick_destination src s)) = rng s.
Proof.
  intros s src H.
  assert (E : pick_destination src s = Return None s).
  { unfold pick_destination, bind, get, ret. destruct H as [-> | ->]; reflexivity. }
  rewrite E. split; reflexivity.
Qed.

Lemma pick_destination_first_strictly_greater_witness :
  dict_get (routing_table (Sample.routing_state [1 # 2])) "source"
    = Some [("A"%string, 3 # 10); ("B"%string, 1)]
  /\ exists dest,
       pick_destination "source" (Sample.routing_state [1 # 2])
         = Return dest (set_rng (SimulationRNG.mk (SimulationRNG.FromList []) 1)
                                (Sample.routing_state [1 # 2]))
       /\ (forall tgt,
             dest = Some tgt
             <-> first_above (1 # 2) [("A"%string, 3 # 10); ("B"%string, 1)] tgt)
       /\ (dest = None
           <-> Forall (fun entry => (snd entry <= 1 # 2)%Q)
                      [("A"%string, 3 # 10); ("B"%string, 1)]).
Proof.
  split; [reflexivity|].
  apply (proj1 pick_destination_first_strictly_greater);
    [reflexivity | discriminate | reflexivity].
Defined.

Lemma pick_destination_without_rules_draws_nothing_witness :
  dict_get (routing_table (Sample.routing_state [1 # 2])) "nowhere" = None
  /\ pick_destination "nowhere" (Sample.routing_state [1 # 2])
       = Return None (Sample.routing_state [1 # 2]).
Proof.
  split; [reflexivity|].
  apply (pick_destination_without_rules_draws_nothing
           (Sample.routing_state [1 # 2]) "nowhere").
  left. reflexivity.
Defined.

(** ** Containers *)

Lemma dict_get_set {A} (d : list (string * A)) (key key' : string) (v : A) :
  dict_get (dict_set d key v) key'
  = if String.eqb key key' then Some v else dict_get d key'.
Proof.
  induction d as [|[k0 v0] d IH]; simpl.
  - rewrite String.eqb_sym. destruct (String.eqb key' key); reflexivity.
  - destruct (String.eqb k0 key) eqn:E; simpl.
    + apply String.eqb_eq in E. subst k0.
      destruct (String.eqb key key'); reflexivity.
    + destruct (String.eqb k0 key') eqn:E'.
      * apply String.eqb_eq in E'. subst k0. rewrite String.eqb_sym, E.
        reflexivity.
      * apply IH.
Qed.

(** ** Rules of the triples *)

Lemma triple_ret {S A} (P : S -> Prop) (Q : A -> S -> Prop) (E : S -> Prop)
    (a : A) :
  (forall s, P s -> Q a s) -> triple P (ret a) Q E.
Proof. intros H s Hs. simpl. auto. Qed.

Lemma triple_bind {S A B} (P : S -> Prop) (R : A -> S -> Prop)
    (Q : B -> S -> Prop) (E : S -> Prop) (c : M S A) (f : A -> M S B) :
  triple P c R E ->
  (forall a, triple (R a) (f a) Q E) ->
  triple P (bind c f) Q E.
Proof.
  intros Hc Hf s Hs. unfold bind. specialize (Hc s Hs).
  destruct (c s) as [a s'|e s']; [apply (Hf a s' Hc) | exact Hc].
Qed.

Lemma triple_get {S} (P : S -> Prop) (E : S -> Prop) :
  triple P get (fun a s => P s /\ a = s) E.
Proof. intros s Hs. simpl. auto. Qed.

Lemma triple_modify {S} (P Q : S -> Prop) (E : S -> Prop) (f : S -> S) :
  (forall s, P s -> Q (f s)) -> triple P (modify f) (fun _ => Q) E.
Proof. intros H s Hs. simpl. auto. Qed.

Lemma triple_raise {S A} (P : S -> Prop) (Q : A -> S -> Prop) (E : S -> Prop)
    (e : exn) :
  (forall s, P s -> E s) -> triple P (raise e) Q E.
Proof. intros H s Hs. simpl. auto. Qed.

Lemma triple_weaken {S A} (P P' : S -> Prop) (Q Q' : A -> S -> Prop)
    (E E' : S -> Prop) (c : M S A) :
  triple P' c Q' E' ->
  (forall s, P s -> P' s) ->
  (forall a s, Q' a s -> Q a s) ->
  (forall s, E' s -> E s) ->
  triple P c Q E.
Proof.
  intros Hc HP HQ HE s Hs. specialize (Hc s (HP s Hs)).
  destruct (c s); auto.
Qed.

(** ** Primitive operations of the engine *)

Lemma triple_rng_u (P : NetworkSimulator.t -> Prop)
    (R : Q -> NetworkSimulator.t -> Prop) (E : NetworkSimulator.t -> Prop) :
  (forall s x r, P s -> SimulationRNG.u (rng s) = Return x r -> R x (set_rng r s)) ->
  (forall s e r, P s -> SimulationRNG.u (rng s) = Raise e r -> E (set_rng r s)) ->
  triple P rng_u R E.
Proof.
  intros HR HE s Hs. unfold rng_u.
  destruct (SimulationRNG.u (rng s)) eqn:Hu; eauto.
Qed.

Lemma triple_sample (P : NetworkSimulator.t -> Prop)
    (R : Q -> NetworkSimulator.t -> Prop) (E : NetworkSimulator.t -> Prop)
    (lo hi : Q) :
  (forall s x r, P s -> SimulationRNG.u (rng s) = Return x r ->
                 R (lo + (hi - lo) * x)%Q (set_rng r s)) ->
  (forall s e r, P s -> SimulationRNG.u (rng s) = Raise e r -> E (set_rng r s)) ->
  triple P (sample (lo, hi)) R E.
Proof.
  intros HR HE s Hs. unfold sample, bind, rng_u, ret.
  destruct (SimulationRNG.u (rng s)) eqn:Hu; eauto.
Qed.

Lemma triple_get_node (P : NetworkSimulator.t -> Prop)
    (E : NetworkSimulator.t -> Prop) (key : string) :
  (forall s, P s -> E s) ->
  triple P (get_node key)
         (fun nd s => P s /\ dict_get (nodes s) key = Some nd) E.
Proof.
  intros HE s Hs. unfold get_node.
  destruct (dict_get (nodes s) key) eqn:Hg; auto.
Qed.

Lemma triple_put_node (P Q : NetworkSimulator.t -> Prop)
    (E : NetworkSimulator.t -> Prop) (key : string) (nd : Node.t) :
  (forall s, P s -> Q (set_nodes (dict_set (nodes s) key nd) s)) ->
  triple P (put_node key nd) (fun _ => Q) E.
Proof. intros H. apply triple_modify. exact H. Qed.

Lemma triple_schedule (P R : NetworkSimulator.t -> Prop)
    (E : NetworkSimulator.t -> Prop) (tm : Q) (etype : EType) (name : string) :
  (forall s, P s ->
     R (set_schedule (seq_counter s + 1)
          (heappush (events s) (mkEvent tm (seq_counter s + 1) etype name)) s)) ->
  triple P (schedule tm etype name) (fun _ => R) E.
Proof. intros H. apply triple_modify. exact H. Qed.

(** ** Occupancy invariant *)

Lemma wf_bounds (extra : string -> Z) (s : NetworkSimulator.t) :
  wf extra s -> bounds s.
Proof.
  intros H key nd Hg. destruct (H key nd Hg) as (Hn & Hok & _). auto.
Qed.

Lemma wf_frame (extra : string -> Z) (s s' : NetworkSimulator.t) :
  nodes s' = nodes s -> events s' = events s -> wf extra s -> wf extra s'.
Proof.
  intros Hn He H key nd Hg. rewrite Hn in Hg. rewrite He. auto.
Qed.

Lemma wf_extra_ext (x y : string -> Z) (s : NetworkSimulator.t) :
  (forall key, x key = y key) -> wf x s -> wf y s.
Proof.
  intros Hxy H key nd Hg. rewrite <- Hxy. auto.
Qed.

Lemma bounds_frame (s s' : NetworkSimulator.t) :
  nodes s' = nodes s -> bounds s -> bounds s'.
Proof.
  intros Hn H key nd Hg. rewrite Hn in Hg. auto.
Qed.

Lemma pending_departures_push (key : string) (evs : list Event) (e : Event) :
  pending_departures key (heappush evs e)
  = (pending_departures key evs + (if is_departure_of key e then 1 else 0))%Z.
Proof.
  unfold pending_departures, heappush.
  rewrite filter_app, length_app. simpl.
  destruct (is_departure_of key e); simpl; lia.
Qed.

Lemma pop_least_perm (e : Event) (rest : list Event) :
  forall least r, pop_least e rest = (least, r) ->
                  Permutation (e :: rest) (least :: r).
Proof.
  revert e. induction rest as [|x xs IH]; intros e least r; simpl.
  - intros [= <- <-]. apply Permutation_refl.
  - destruct (event_ltb x e).
    + destruct (pop_least x xs) as [m r0] eqn:Hp. intros [= <- <-].
      specialize (IH x m r0 Hp).
      eapply perm_trans; [apply perm_skip; exact IH|]. apply perm_swap.
    + destruct (pop_least e xs) as [m r0] eqn:Hp. intros [= <- <-].
      specialize (IH e m r0 Hp).
      eapply perm_trans; [apply perm_swap|].
      eapply perm_trans; [apply perm_skip; exact IH|]. apply perm_swap.
Qed.

Lemma pending_departures_perm (key : string) (l l' : list Event) :
  Permutation l l' -> pending_departures key l = pending_departures key l'.
Proof.
  intro H. unfold pending_departures. f_equal.
  induction H; simpl.
  - reflexivity.
  - destruct (is_departure_of key x); simpl; congruence.
  - destruct (is_departure_of key x), (is_departure_of key y); reflexivity.
  - congruence.
Qed.

Lemma pending_departures_pop (key : string) (h : list Event)
    (ev : Event) (rest : list Event) :
  heappop h = Some (ev, rest) ->
  pending_departures key h
  = (pending_departures key rest + in_flight ev key)%Z.
Proof.
  destruct h as [|e l]; [discriminate|]. simpl. intros [= Hp].
  rewrite (pending_departures_perm key _ _ (pop_least_perm e l _ _ Hp)).
  unfold pending_departures, in_flight. simpl.
  destruct (is_departure_of key ev); simpl; lia.
Qed.

Lemma wf_rng (extra : string -> Z) (r : SimulationRNG.t) (s : NetworkSimulator.t) :
  wf extra s -> wf extra (set_rng r s).
Proof. apply wf_frame; reflexivity. Qed.

Lemma bounds_rng (r : SimulationRNG.t) (s : NetworkSimulator.t) :
  bounds s -> bounds (set_rng r s).
Proof. apply bounds_frame; reflexivity. Qed.

(** Scheduling the departure that was in flight restores the balance. *)
Lemma wf_schedule_departure (s : NetworkSimulator.t) (tm : Q) (name : string) :
  wf (departing name) s ->
  wf none_in_flight
     (set_schedule (seq_counter s + 1)
        (heappush (events s) (mkEvent tm (seq_counter s + 1) DEPARTURE name)) s).
Proof.
  intros H key nd Hg. simpl in Hg. destruct (H key nd Hg) as (Hn & Hok & Hp).
  repeat split; try apply Hok; auto.
  simpl. rewrite pending_departures_push. unfold is_departure_of. simpl.
  unfold departing, none_in_flight in *. lia.
Qed.

Lemma wf_schedule_arrival (extra : string -> Z) (s : NetworkSimulator.t)
    (tm : Q) (name : string) :
  wf extra s ->
  wf extra
     (set_schedule (seq_counter s + 1)
        (heappush (events s) (mkEvent tm (seq_counter s + 1) ARRIVAL name)) s).
Proof.
  intros H key nd Hg. simpl in Hg. destruct (H key nd Hg) as (Hn & Hok & Hp).
  repeat split; try apply Hok; auto.
  simpl. rewrite pending_departures_push. unfold is_departure_of. simpl. lia.
Qed.

Lemma bounds_schedule (s : NetworkSimulator.t) (sq : Z) (evs : list Event) :
  bounds s -> bounds (set_schedule sq evs s).
Proof. apply bounds_frame; reflexivity. Qed.

Lemma triple_pure {S A} (P : S -> Prop) (F : Prop) (Q : A -> S -> Prop)
    (E : S -> Prop) (c : M S A) :
  (forall s, P s -> F) -> (F -> triple P c Q E) -> triple P c Q E.
Proof. intros HF Hc s Hs. exact (Hc (HF s Hs) s Hs). Qed.

Lemma add_time_same (dt : Q) (nd nd' : Node.t) :
  Node.add_time dt nd = Some nd' -> same_but_tempo nd nd'.
Proof.
  unfold Node.add_time. destruct (py_index _ _); [|discriminate].
  intros [= <-]. repeat split.
Qed.

Lemma same_but_tempo_refl (nd : Node.t) : same_but_tempo nd nd.
Proof. repeat split. Qed.

Lemma add_time_nodes_get (dt : Q) (nds : list (string * Node.t)) :
  forall nds' ok key nd',
    add_time_nodes dt nds = (nds', ok) ->
    dict_get nds' key = Some nd' ->
    exists nd,
      dict_get nds key = Some nd
      /\ (nd' = nd \/ Node.add_time dt nd = Some nd')
      /\ (ok = true -> Node.add_time dt nd = Some nd').
Proof.
  induction nds as [|[k0 nd0] rest IH]; intros nds' ok key nd'; simpl.
  - intros [= <- <-]. discriminate.
  - destruct (Node.add_time dt nd0) as [nd0'|] eqn:Ha.
    + destruct (add_time_nodes dt rest) as [rest' ok'] eqn:Hr.
      intros [= <- <-]. simpl.
      destruct (String.eqb k0 key).
      * intros [= <-]. exists nd0. auto.
      * intro Hg. apply (IH rest' ok' key nd' eq_refl Hg).
    + intros [= <- <-]. simpl.
      destruct (String.eqb k0 key).
      * intros [= <-]. exists nd0. split; [reflexivity|].
        split; [auto | discriminate].
      * intro Hg. exists nd'. split; [assumption|].
        split; [auto | discriminate].
Qed.

Lemma add_time_nodes_same (dt : Q) (nds nds' : list (string * Node.t))
    (ok : bool) (key : string) (nd' : Node.t) :
  add_time_nodes dt nds = (nds', ok) ->
  dict_get nds' key = Some nd' ->
  exists nd, dict_get nds key = Some nd /\ same_but_tempo nd nd'.
Proof.
  intros Ha Hg.
  destruct (add_time_nodes_get dt nds _ _ key nd' Ha Hg) as (nd & Hnd & [-> | H] & _).
  - exists nd. split; [assumption | apply same_but_tempo_refl].
  - exists nd. split; [assumption | apply (add_time_same dt _ _ H)].
Qed.

Lemma node_ok_same (nd nd' : Node.t) :
  same_but_tempo nd nd' -> node_ok nd -> node_ok nd'.
Proof.
  intros (_ & _ & Hk & _ & _ & Hn & Ha & _ & Had) (H1 & H2 & H3).
  unfold node_ok. rewrite Hk, Hn, Ha, Had. auto.
Qed.

Lemma wf_add_time_nodes (extra : string -> Z) (s : NetworkSimulator.t)
    (dt : Q) (nds : list (string * Node.t)) (ok : bool) :
  add_time_nodes dt (nodes s) = (nds, ok) ->
  wf extra s -> wf extra (set_nodes nds s).
Proof.
  intros Ha H key nd' Hg. simpl in Hg.
  destruct (add_time_nodes_same dt (nodes s) _ _ key nd' Ha Hg) as (nd & Hnd & Hs).
  destruct (H key nd Hnd) as (Hn & Hok & Hp).
  pose proof Hs as (Sn & Sc & _ & _ & _ & Snn & _).
  split; [congruence|]. split; [apply (node_ok_same _ _ Hs Hok)|].
  simpl. unfold busy_servers in *. rewrite Sc, Snn. exact Hp.
Qed.

Lemma update_time_stats_wf (extra : string -> Z) (t_new : Q) :
  triple (wf extra) (update_time_stats t_new)
         (fun _ => wf extra) (wf extra).
Proof.
  intros s Hs. unfold update_time_stats, bind, get, modify, ret, raise.
  destruct (Qltb 0 (t_new - last_update_time s)).
  - destruct (add_time_nodes _ (nodes s)) as [nds ok] eqn:Ha.
    pose proof (wf_add_time_nodes extra s _ _ _ Ha Hs) as H'.
    destruct ok; [|exact H'].
    revert H'. apply wf_frame; reflexivity.
  - revert Hs. apply wf_frame; reflexivity.
Qed.

Lemma pick_destination_frame (I : NetworkSimulator.t -> Prop) (src : string) :
  (forall s r, I s -> I (set_rng r s)) ->
  triple I (pick_destination src) (fun _ => I) I.
Proof.
  intros HI s Hs. unfold pick_destination, bind, get, ret, rng_u.
  destruct (dict_get (routing_table s) src) as [[|entry rest]|]; auto.
  destruct (SimulationRNG.u (rng s)); auto.
Qed.

Lemma admit_and_serve_wf (key : string) :
  triple (wf none_in_flight) (admit_and_serve key)
         (fun _ => wf none_in_flight) bounds.
Proof.
  unfold admit_and_serve.
  eapply triple_bind; [apply triple_get_node; apply wf_bounds|].
  intro fila. cbv beta.
  apply triple_pure with
    (F := Node.name fila = key /\ node_ok fila).
  { intros s [Hs Hg]. destruct (Hs key fila Hg) as (? & ? & _). auto. }
  intros (Hname & Hn0 & Hnk & Hadm).
  unfold Node.admit_. destruct (Node.k fila <=? Node.n fila)%Z eqn:Hk.
  - (* blocked *)
    eapply triple_bind; [|intros ?; apply triple_ret; intros s Hs; exact Hs].
    apply triple_put_node. intros s [Hs Hg] key' nd'. simpl.
    rewrite dict_get_set. destruct (String.eqb key key') eqn:Ek.
    + apply String.eqb_eq in Ek. subst key'. intros [= <-]. simpl.
      destruct (Hs key fila Hg) as (_ & _ & Hp).
      repeat split; auto.
    + apply Hs.
  - (* admitted *)
    apply Z.leb_gt in Hk.
    eapply triple_bind with
      (R := fun _ s =>
              if (Node.n fila + 1 <=? Node.c fila)%Z
              then wf (departing key) s else wf none_in_flight s).
    + apply triple_put_node. intros s [Hs Hg].
      assert (Hall : forall x,
                 (x key = if (Node.n fila + 1 <=? Node.c fila)%Z
                          then 1%Z else 0%Z) ->
                 (forall key', key' <> key -> x key' = 0%Z) ->
                 wf x (set_nodes (dict_set (nodes s) key
                   (Node.mk (Node.name fila) (Node.c fila) (Node.k fila)
                      (Node.service_sampler fila) (Node.arrival_sampler fila)
                      (Node.n fila + 1) (Node.tempo_estado fila)
                      (Node.atendidos fila) (Node.perdas fila)
                      (Node.admitted fila + 1))) s)).
      { intros x Hx Hother key' nd'. simpl. rewrite dict_get_set.
        destruct (String.eqb key key') eqn:Ek.
        - apply String.eqb_eq in Ek. subst key'. intros [= <-].
          destruct (Hs key fila Hg) as (_ & _ & Hp).
          unfold node_ok, busy_servers, none_in_flight in *. simpl.
          rewrite Hx.
          destruct (Node.n fila + 1 <=? Node.c fila)%Z eqn:Hc;
            [apply Z.leb_le in Hc | apply Z.leb_gt in Hc];
            repeat split; auto; lia.
        - apply String.eqb_neq in Ek. intro Hg'.
          destruct (Hs key' nd' Hg') as (Hn' & Hok' & Hp).
          split; [exact Hn'|]. split; [exact Hok'|].
          simpl. rewrite Hother by congruence. exact Hp. }
      destruct (Node.n fila + 1 <=? Node.c fila)%Z eqn:Hc.
      * apply Hall.
        -- unfold departing. rewrite String.eqb_refl. reflexivity.
        -- intros key' Hne. unfold departing.
           destruct (String.eqb key key') eqn:Ek; [|reflexivity].
           apply String.eqb_eq in Ek. congruence.
      * apply Hall; reflexivity.
    + intros ?. simpl.
      destruct (Node.n fila + 1 <=? Node.c fila)%Z eqn:Hc.
      * destruct (Node.service_sampler fila) as [lo hi].
        eapply triple_bind with (R := fun _ => wf (departing key)).
        -- apply triple_sample.
           ++ intros s x r Hs _. apply wf_rng. exact Hs.
           ++ intros s e r Hs _. apply bounds_rng.
              apply (wf_bounds _ _ Hs).
        -- intro service_time.
           eapply triple_bind; [apply triple_get|].
           intro s0. apply triple_schedule. intros s [Hs _].
           rewrite Hname. apply wf_schedule_departure. exact Hs.
      * apply triple_ret. auto.
Qed.

Lemma wf_count (extra : string -> Z) (v : Z) (s : NetworkSimulator.t) :
  wf extra s -> wf extra (set_total_arrivals_count v s).
Proof. apply wf_frame; reflexivity. Qed.

Lemma on_arrival_wf (key : string) :
  triple (wf none_in_flight) (on_arrival key)
         (fun _ => wf none_in_flight) bounds.
Proof.
  unfold on_arrival.
  eapply triple_bind with (R := fun _ => wf none_in_flight).
  { eapply triple_weaken;
      [apply triple_get_node; apply wf_bounds
      | intros s Hs; exact Hs
      | intros a s [Hs _]; exact Hs
      | intros s Hs; exact Hs]. }
  intro fila_origem.
  eapply triple_bind with (R := fun _ => wf none_in_flight).
  { apply triple_modify. intros s Hs. apply wf_count. exact Hs. }
  intros ?.
  eapply triple_bind with (R := fun _ => wf none_in_flight).
  - destruct (Node.arrival_sampler fila_origem) as [[lo hi]|].
    + eapply triple_bind with (R := fun _ => wf none_in_flight).
      * apply triple_sample.
        -- intros s x r Hs _. apply wf_rng. exact Hs.
        -- intros s e r Hs _. apply bounds_rng. apply (wf_bounds _ _ Hs).
      * intro next_ia. eapply triple_bind; [apply triple_get|].
        intro s0. apply triple_schedule. intros s [Hs _].
        apply wf_schedule_arrival. exact Hs.
    + apply triple_ret. auto.
  - intros ?. apply admit_and_serve_wf.
Qed.

Lemma on_departure_wf (key : string) :
  triple (wf (departing key)) (on_departure key)
         (fun _ => wf none_in_flight) bounds.
Proof.
  unfold on_departure.
  eapply triple_bind; [apply triple_get_node; apply wf_bounds|].
  intro fila. cbv beta.
  apply triple_pure with
    (F := Node.name fila = key /\ node_ok fila
          /\ (1 <= busy_servers fila)%Z).
  { intros s [Hs Hg]. destruct (Hs key fila Hg) as (Hn & Hok & Hp).
    split; [assumption|]. split; [assumption|].
    unfold departing in Hp. rewrite String.eqb_refl in Hp.
    unfold pending_departures in Hp. lia. }
  intros (Hname & (Hn0 & Hnk & Hadm) & Hbusy).
  unfold busy_servers in Hbusy.
  eapply triple_bind with
    (R := fun _ s =>
            if (Node.c fila <=? Node.n fila - 1)%Z
            then wf (departing key) s else wf none_in_flight s).
  - apply triple_put_node. intros s [Hs Hg].
    assert (Hall : forall x,
               (x key = if (Node.c fila <=? Node.n fila - 1)%Z
                        then 1%Z else 0%Z) ->
               (forall key', key' <> key -> x key' = 0%Z) ->
               wf x (set_nodes (dict_set (nodes s) key
                                  (Node.finish_service_one fila)) s)).
    { intros x Hx Hother key' nd'. simpl. rewrite dict_get_set.
      destruct (String.eqb key key') eqn:Ek.
      - apply String.eqb_eq in Ek. subst key'. intros [= <-].
        destruct (Hs key fila Hg) as (_ & _ & Hp).
        unfold departing in Hp. rewrite String.eqb_refl in Hp.
        unfold node_ok, busy_servers in *. simpl.
        rewrite Hx.
        destruct (Node.c fila <=? Node.n fila - 1)%Z eqn:Hc;
          [apply Z.leb_le in Hc | apply Z.leb_gt in Hc];
          repeat split; auto; lia.
      - apply String.eqb_neq in Ek. intro Hg'.
        destruct (Hs key' nd' Hg') as (Hn' & Hok' & Hp).
        split; [exact Hn'|]. split; [exact Hok'|].
        simpl. rewrite Hother by congruence.
        unfold departing in Hp.
        destruct (String.eqb key key') eqn:Ek'.
        + apply String.eqb_eq in Ek'. congruence.
        + exact Hp. }
    destruct (Node.c fila <=? Node.n fila - 1)%Z eqn:Hc.
    + apply Hall.
      * unfold departing. rewrite String.eqb_refl. reflexivity.
      * intros key' Hne. unfold departing.
        destruct (String.eqb key key') eqn:Ek; [|reflexivity].
        apply String.eqb_eq in Ek. congruence.
    + apply Hall; reflexivity.
  - intros ?. simpl.
    eapply triple_bind with (R := fun _ => wf none_in_flight).
    + destruct (Node.c fila <=? Node.n fila - 1)%Z eqn:Hc.
      * destruct (Node.service_sampler fila) as [lo hi].
        eapply triple_bind with (R := fun _ => wf (departing key)).
        -- apply triple_sample.
           ++ intros s x r Hs _. apply wf_rng. exact Hs.
           ++ intros s e r Hs _. apply bounds_rng.
              apply (wf_bounds _ _ Hs).
        -- intro service_time.
           eapply triple_bind; [apply triple_get|].
           intro s0. apply triple_schedule. intros s [Hs _].
           rewrite Hname. apply wf_schedule_departure. exact Hs.
      * apply triple_ret. auto.
    + intros ?.
      eapply triple_bind with (R := fun _ => wf none_in_flight).
      * eapply triple_weaken with
          (P' := wf none_in_flight) (Q' := fun _ => wf none_in_flight)
          (E' := wf none_in_flight);
          [ apply pick_destination_frame; intros s r Hs; apply wf_rng; exact Hs
          | auto | auto
          | intros s Hs; apply (wf_bounds _ _ Hs) ].
      * intro dest_name. destruct (truthy dest_name) as [dest|].
        -- apply admit_and_serve_wf.
        -- apply triple_ret. auto.
Qed.

Lemma in_flight_arrival (ev : Event) (key : string) :
  ev_etype ev = ARRIVAL -> in_flight ev key = none_in_flight key.
Proof.
  intro H. unfold in_flight, is_departure_of, none_in_flight. rewrite H.
  reflexivity.
Qed.

Lemma in_flight_departure (ev : Event) (key : string) :
  ev_etype ev = DEPARTURE ->
  in_flight ev key = departing (ev_node_name ev) key.
Proof.
  intro H. unfold in_flight, is_departure_of, departing. rewrite H.
  reflexivity.
Qed.

Lemma step_wf :
  triple (wf none_in_flight) step (fun _ => wf none_in_flight) bounds.
Proof.
  unfold step.
  eapply triple_bind; [apply triple_get|].
  intro s0. cbv beta.
  destruct (heappop (events s0)) as [[ev rest]|] eqn:Hpop.
  - eapply triple_bind with (R := fun _ => wf (in_flight ev)).
    { apply triple_modify. intros s [Hs <-] key nd Hg. simpl in Hg.
      destruct (Hs key nd Hg) as (Hn & Hok & Hp).
      split; [exact Hn|]. split; [exact Hok|]. simpl.
      rewrite (pending_departures_pop key _ ev rest Hpop) in Hp.
      unfold none_in_flight in Hp. lia. }
    intros ?.
    eapply triple_bind with (R := fun _ => wf (in_flight ev)).
    { eapply triple_weaken with
        (P' := wf (in_flight ev)) (Q' := fun _ => wf (in_flight ev))
        (E' := wf (in_flight ev));
        [ apply update_time_stats_wf | auto | auto
        | intros s Hs; apply (wf_bounds _ _ Hs) ]. }
    intros ?.
    eapply triple_bind with (R := fun _ => wf (in_flight ev)).
    { apply triple_modify. intros s Hs. revert Hs.
      apply wf_frame; reflexivity. }
    intros ?.
    destruct (ev_etype ev) eqn:Het.
    + eapply triple_weaken with
        (P' := wf none_in_flight) (Q' := fun _ => wf none_in_flight)
        (E' := bounds); [ apply on_arrival_wf | | auto | auto ].
      intros s Hs. revert Hs. apply wf_extra_ext.
      intro key. apply in_flight_arrival. exact Het.
    + eapply triple_weaken with
        (P' := wf (departing (ev_node_name ev)))
        (Q' := fun _ => wf none_in_flight)
        (E' := bounds); [ apply on_departure_wf | | auto | auto ].
      intros s Hs. revert Hs. apply wf_extra_ext.
      intro key. apply in_flight_departure. exact Het.
  - apply triple_raise. intros s [Hs _]. apply (wf_bounds _ _ Hs).
Qed.

Lemma schedule_first_arrivals_wf (items : list (string * Node.t)) :
  triple (wf none_in_flight) (schedule_first_arrivals items)
         (fun _ => wf none_in_flight) bounds.
Proof.
  induction items as [|[name node] rest IH]; simpl.
  - apply triple_ret. auto.
  - eapply triple_bind with (R := fun _ => wf none_in_flight).
    + destruct (Node.arrival_sampler node) as [[lo hi]|].
      * eapply triple_bind with (R := fun _ => wf none_in_flight).
        -- apply triple_sample.
           ++ intros s x r Hs _. apply wf_rng. exact Hs.
           ++ intros s e r Hs _. apply bounds_rng. apply (wf_bounds _ _ Hs).
        -- intro tm. apply triple_schedule. intros s Hs.
           apply wf_schedule_arrival. exact Hs.
      * apply triple_ret. auto.
    + intros ?. exact IH.
Qed.

(** ** Construction *)

Lemma build_nodes_get (qs : list (string * QueueParams)) :
  forall acc built key nd,
    build_nodes qs acc = Ok built ->
    dict_get built key = Some nd ->
    dict_get acc key = Some nd
    \/ exists params, In (key, params) qs /\ build_node key params = Ok nd.
Proof.
  induction qs as [|[name params] qs IH]; intros acc built key nd; simpl.
  - intros [= <-] Hg. left. exact Hg.
  - destruct (build_node name params) as [nd0|e] eqn:Hb; [|discriminate].
    intros Hbuild Hg.
    destruct (IH _ _ _ _ Hbuild Hg) as [Hacc | (p & Hin & Hp)].
    + rewrite dict_get_set in Hacc.
      destruct (String.eqb name key) eqn:Ek.
      * apply String.eqb_eq in Ek. subst key. injection Hacc as <-.
        right. exists params. auto.
      * left. exact Hacc.
    + right. exists p. auto.
Qed.

Lemma init_nodes (config : Config) (s : NetworkSimulator.t)
    (key : string) (nd : Node.t) :
  NetworkSimulator.init config = Ok s ->
  dict_get (nodes s) key = Some nd ->
  exists params cap,
    In (key, params) (queues config)
    /\ capacity params = Some cap
    /\ nd = Node.init key (servers params) cap
                      (minService params, maxService params)
                      match minArrival params, maxArrival params with
                      | Some lo, Some hi => Some (lo, hi)
                      | _, _ => None
                      end.
Proof.
  unfold NetworkSimulator.init.
  destruct (build_nodes (queues config) []) as [built|e] eqn:Hb; [|discriminate].
  intros [= <-]. simpl. intro Hg.
  destruct (build_nodes_get _ _ _ _ _ Hb Hg) as [Hacc | (p & Hin & Hp)].
  - discriminate.
  - unfold build_node in Hp.
    destruct (capacity p) as [cap|] eqn:Hc; [|discriminate].
    injection Hp as <-. exists p, cap. auto.
Qed.

Lemma init_events (config : Config) (s : NetworkSimulator.t) :
  NetworkSimulator.init config = Ok s ->
  events s = [] /\ time s = 0%Q /\ last_update_time s = 0%Q
  /\ rng s = RNGInit.init config.
Proof.
  unfold NetworkSimulator.init.
  destruct (build_nodes (queues config) []); [|discriminate].
  intros [= <-]. simpl. auto.
Qed.

Lemma init_wf (config : Config) (s : NetworkSimulator.t) :
  NetworkSimulator.init config = Ok s -> wf none_in_flight s.
Proof.
  intros Hi key nd Hg.
  destruct (init_nodes _ _ _ _ Hi Hg) as (p & cap & _ & _ & ->).
  destruct (init_events _ _ Hi) as (-> & _).
  unfold node_ok, busy_servers, pending_departures, none_in_flight. simpl.
  repeat split; lia.
Qed.

(** ** Reachable states *)

Lemma at_loop_head_wf (s0 s : NetworkSimulator.t) :
  wf none_in_flight s0 -> at_loop_head s0 s -> wf none_in_flight s.
Proof.
  intros H0 H. induction H as [s1 H1 | s s' Hhead IH Hrun Hstep].
  - pose proof (schedule_first_arrivals_wf (nodes s0) s0 H0) as H.
    rewrite H1 in H. exact H.
  - pose proof (step_wf s IH) as H. rewrite Hstep in H. exact H.
Qed.

Lemma reachable_bounds (s0 s : NetworkSimulator.t) :
  wf none_in_flight s0 -> reachable s0 s -> bounds s.
Proof.
  intros H0 H. destruct H as [ | e s1 H1 | s Hhead | s e s' Hhead Hrun Hstep
                              | s Hhead Hrun ].
  - apply (wf_bounds _ _ H0).
  - pose proof (schedule_first_arrivals_wf (nodes s0) s0 H0) as H.
    rewrite H1 in H. exact H.
  - apply (wf_bounds _ _ (at_loop_head_wf _ _ H0 Hhead)).
  - pose proof (step_wf s (at_loop_head_wf _ _ H0 Hhead)) as H.
    rewrite Hstep in H. exact H.
  - pose proof (update_time_stats_wf none_in_flight (time s) s
                  (at_loop_head_wf _ _ H0 Hhead)) as H.
    apply (wf_bounds none_in_flight).
    destruct (update_time_stats (time s) s); exact H.
Qed.

Lemma loop_at_head (s0 : NetworkSimulator.t) (fuel : nat) :
  forall s s',
    at_loop_head s0 s ->
    loop fuel s = Some (Return tt s') ->
    at_loop_head s0 s' /\ running s' = false.
Proof.
  induction fuel as [|fuel IH]; intros s s' Hhead; simpl.
  - destruct (running s) eqn:Hr; [discriminate|].
    intros [= <-]. auto.
  - destruct (running s) eqn:Hr.
    + destruct (step s) as [[] s1|e s1] eqn:Hstep; [|discriminate].
      apply IH. apply (@head_step s0 s s1 Hhead Hr Hstep).
    + intros [= <-]. auto.
Qed.

Lemma run_completed (s0 : NetworkSimulator.t) (fuel : nat)
    (res : Results) (sf : NetworkSimulator.t) :
  run fuel s0 = Some (Return res sf) ->
  exists s2,
    at_loop_head s0 s2
    /\ running s2 = false
    /\ update_time_stats (time s2) s2 = Return tt sf
    /\ res = _get_results sf.
Proof.
  unfold run.
  destruct (schedule_first_arrivals (nodes s0) s0) as [[] s1|e s1] eqn:H1;
    [|discriminate].
  destruct (loop fuel s1) as [[[] s2|e s2]|] eqn:H2; try discriminate.
  destruct (update_time_stats (time s2) s2) as [[] s3|e s3] eqn:H3;
    [|discriminate].
  intros [= <- <-]. exists s2.
  destruct (loop_at_head s0 fuel s1 s2 (@head_first s0 s1 H1) H2) as [Hh Hr].
  auto.
Qed.

Lemma run_completed_reachable (s0 : NetworkSimulator.t) (fuel : nat)
    (res : Results) (sf : NetworkSimulator.t) :
  run fuel s0 = Some (Return res sf) -> reachable s0 sf.
Proof.
  intro H. destruct (run_completed _ _ _ _ H) as (s2 & Hh & Hr & Hu & _).
  pose proof (@reach_final s0 s2 Hh Hr) as R. rewrite Hu in R. exact R.
Qed.

(** ** Capacity and conservation *)

(** C2 (as amended). For every node whose capacity [k] is not negative,
    [0 <= n <= k] in every state a run can be observed in, and whatever
    the capacity [0 <= n]; an admission attempt on a node with [n = k]
    returns the blocked signal, adds one to the loss count and leaves
    occupancy, served count and time-in-state as they were. *)
Theorem occupancy_within_capacity :
  forall (config : Config) (s0 s : NetworkSimulator.t)
         (key : string) (nd : Node.t),
    NetworkSimulator.init config = Ok s0 ->
    reachable s0 s ->
    dict_get (nodes s) key = Some nd ->
    ((0 <= Node.k nd)%Z -> (0 <= Node.n nd <= Node.k nd)%Z)
    /\ (0 <= Node.n nd)%Z
    /\ (Node.n nd = Node.k nd ->
        fst (Node.admit_ nd) = false
        /\ Node.perdas (snd (Node.admit_ nd)) = (Node.perdas nd + 1)%Z
        /\ Node.n (snd (Node.admit_ nd)) = Node.n nd
        /\ Node.atendidos (snd (Node.admit_ nd)) = Node.atendidos nd
        /\ Node.tempo_estado (snd (Node.admit_ nd)) = Node.tempo_estado nd).
Proof.
  intros config s0 s key nd Hi Hr Hg.
  destruct (reachable_bounds s0 s (init_wf _ _ Hi) Hr key nd Hg)
    as (_ & Hn0 & Hnk & _).
  split; [intro Hk; split; auto|]. split; [exact Hn0|].
  intro Heq. unfold Node.admit_.
  replace (Node.k nd <=? Node.n nd)%Z with true
    by (symmetry; apply Z.leb_le; lia).
  simpl. auto.
Qed.

Lemma occupancy_within_capacity_witness :
  NetworkSimulator.init (Scenario.single 7) = Ok Sample.single_start
  /\ reachable Sample.single_start Sample.single_end
  /\ dict_get (nodes Sample.single_end) "Q1" = Some Sample.single_node
  /\ (0 <= Node.k Sample.single_node)%Z
  /\ (0 <= Node.n Sample.single_node <= Node.k Sample.single_node)%Z.
Proof.
  assert (Hi : NetworkSimulator.init (Scenario.single 7)
               = Ok Sample.single_start).
  { vm_compute. reflexivity. }
  assert (Hrun : run 10 Sample.single_start
                 = Some (Return (_get_results Sample.single_end)
                                Sample.single_end)).
  { vm_compute. reflexivity. }
  assert (Hr : reachable Sample.single_start Sample.single_end).
  { apply (run_completed_reachable _ _ _ _ Hrun). }
  assert (Hg : dict_get (nodes Sample.single_end) "Q1"
               = Some Sample.single_node).
  { vm_compute. reflexivity. }
  assert (Hk : (0 <= Node.k Sample.single_node)%Z).
  { vm_compute. discriminate. }
  split; [exact Hi|]. split; [exact Hr|]. split; [exact Hg|].
  split; [exact Hk|].
  apply (proj1 (occupancy_within_capacity (Scenario.single 7)
                  Sample.single_start Sample.single_end "Q1"
                  Sample.single_node Hi Hr Hg) Hk).
Defined.

(** C2 as the spec states it fails: the constructor accepts a negative
    capacity, and the run of such a node completes with [n = 0 > k = -1]
    (both arrivals lost, nothing served). *)
Lemma occupancy_exceeds_negative_capacity :
  option_map Sample.census (Sample.completed 10 Scenario.negative_capacity)
  = Some [("Q1"%string, 0%Z, (-1)%Z, 0%Z, 2%Z, [])].
Proof. vm_compute. reflexivity. Qed.

(** C5. At the end of every completed run, at every node, the number of
    admission attempts that succeeded equals the served count plus the
    final occupancy; the ghost counter [admitted] is exactly that number:
    zero at construction, one more for each [admit] that returns [True],
    untouched by a blocked [admit] and by [finish_service_one]. *)
Theorem admitted_served_or_present :
  (forall (config : Config) (s0 : NetworkSimulator.t) (fuel : nat)
          (res : Results) (sf : NetworkSimulator.t)
          (key : string) (nd : Node.t),
      NetworkSimulator.init config = Ok s0 ->
      run fuel s0 = Some (Return res sf) ->
      dict_get (nodes sf) key = Some nd ->
      Node.admitted nd = (Node.atendidos nd + Node.n nd)%Z)
  /\ (forall name c k service arrival,
        Node.admitted (Node.init name c k service arrival) = 0%Z)
  /\ (forall nd,
        Node.admitted (snd (Node.admit_ nd))
        = (Node.admitted nd + if fst (Node.admit_ nd) then 1 else 0)%Z)
  /\ (forall nd,
        Node.admitted (Node.finish_service_one nd) = Node.admitted nd).
Proof.
  split; [|split; [|split]].
  - intros config s0 fuel res sf key nd Hi Hrun Hg.
    pose proof (run_completed_reachable _ _ _ _ Hrun) as Hr.
    destruct (reachable_bounds s0 sf (init_wf _ _ Hi) Hr key nd Hg)
      as (_ & _ & _ & Hadm).
    exact Hadm.
  - reflexivity.
  - intro nd. unfold Node.admit_.
    destruct (Node.k nd <=? Node.n nd)%Z; simpl; lia.
  - reflexivity.
Qed.

Lemma admitted_served_or_present_witness :
  NetworkSimulator.init (Scenario.single 7) = Ok Sample.single_start
  /\ run 10 Sample.single_start
     = Some (Return (_get_results Sample.single_end) Sample.single_end)
  /\ dict_get (nodes Sample.single_end) "Q1" = Some Sample.single_node
  /\ Node.admitted Sample.single_node
     = (Node.atendidos Sample.single_node + Node.n Sample.single_node)%Z.
Proof.
  assert (Hi : NetworkSimulator.init (Scenario.single 7)
               = Ok Sample.single_start).
  { vm_compute. reflexivity. }
  assert (Hrun : run 10 Sample.single_start
                 = Some (Return (_get_results Sample.single_end)
                                Sample.single_end)).
  { vm_compute. reflexivity. }
  assert (Hg : dict_get (nodes Sample.single_end) "Q1"
               = Some Sample.single_node).
  { vm_compute. reflexivity. }
  split; [exact Hi|]. split; [exact Hrun|]. split; [exact Hg|].
  apply (proj1 admitted_served_or_present (Scenario.single 7)
           Sample.single_start 10%nat (_get_results Sample.single_end)
           Sample.single_end "Q1"%string Sample.single_node Hi Hrun Hg).
Defined.

(** ** Scenarios and construction errors *)

(** C3 (as amended). Single node, c=1, k=1, arrivals every 1, services of
    0.5, target of 3 external arrivals, replay sequence of seven zeros:
    the events processed are the arrivals at t=1,2,3 and the departures at
    t=1.5,2.5; the run stops once the third arrival is counted, with its
    customer still in service: no losses, served count 2, occupancy 1,
    final time 3, time-in-state [2; 1], 7 deviates consumed. *)
Theorem single_node_scenario :
  option_map
    (fun s => (Qred (time s), SimulationRNG.used (rng s),
               total_arrivals_count s, Sample.census s,
               map (fun e => (Qred (ev_time e), ev_etype e)) (processed s)))
    (Sample.completed 10 (Scenario.single 7))
  = Some (3%Q, 7%Z, 3%Z,
          [("Q1"%string, 1%Z, 1%Z, 2%Z, 0%Z, [2%Q; 1%Q])],
          [(1%Q, ARRIVAL); (3 # 2, DEPARTURE); (2%Q, ARRIVAL);
           (5 # 2, DEPARTURE); (3%Q, ARRIVAL)]).
Proof. vm_compute. reflexivity. Qed.

(** C3 as the spec states it fails: with the six deviates of the scenario
    the seventh draw (the service time of the third arrival) finds the
    replay list empty and the run is aborted; at that point two customers
    have been served, not three, and the time-in-state vector is [2; 1]. *)
Lemma single_node_scenario_six_deviates_abort :
  option_map
    (fun es => (fst es, SimulationRNG.used (rng (snd es)),
                Sample.census (snd es)))
    (Sample.aborted 10 (Scenario.single 6))
  = Some (SimulationRNG.exhausted, 7%Z,
          [("Q1"%string, 1%Z, 1%Z, 2%Z, 0%Z, [2%Q; 1%Q])]).
Proof. vm_compute. reflexivity. Qed.

(** C6, at the failing input: a queue definition without ['capacity']
    makes the constructor raise [OverflowError], because the default
    [float('inf')] is passed to [int]. *)
Theorem init_without_capacity_raises :
  NetworkSimulator.init Scenario.no_capacity = Err OverflowError.
Proof. reflexivity. Qed.

Lemma build_nodes_ok (qs : list (string * QueueParams)) :
  forall acc,
    Forall (fun q => capacity (snd q) <> None) qs ->
    exists built, build_nodes qs acc = Ok built.
Proof.
  induction qs as [|[name params] qs IH]; intros acc Hall; simpl.
  - eexists. reflexivity.
  - inversion Hall as [|q l Hq Hrest]; subst. simpl in Hq.
    unfold build_node. destruct (capacity params) as [cap|]; [|congruence].
    apply IH. exact Hrest.
Qed.




(** ** Invariants of the deviate source alone *)

Section RngInvariant.
(** [J] holds of the source as long as every draw returned; [J'] holds
    of it whatever happened. *)
Variables J J' : SimulationRNG.t -> Prop.
Hypothesis J_weaken : forall r, J r -> J' r.
Hypothesis J_draw :
  forall r x r', J r -> SimulationRNG.u r = Return x r' -> J r'.
Hypothesis J_fail :
  forall r e r', J r -> SimulationRNG.u r = Raise e r' -> J' r'.

Let P (s : NetworkSimulator.t) : Prop := J (rng s).
Let E (s : NetworkSimulator.t) : Prop := J' (rng s).

Lemma rng_inv_weaken (s : NetworkSimulator.t) : P s -> E s.
Proof. apply J_weaken. Qed.

Lemma rng_inv_sample (range : Q * Q) :
  triple P (sample range) (fun _ => P) E.
Proof.
  destruct range as [lo hi]. apply triple_sample.
  - intros s x r Hs Hu. apply (J_draw _ _ _ Hs Hu).
  - intros s e r Hs Hu. apply (J_fail _ _ _ Hs Hu).
Qed.

Lemma rng_inv_sample_schedule (range : Q * Q)
    (f : NetworkSimulator.t -> Q -> Q) (et : EType) (name : string) :
  triple P
    (bind (sample range)
          (fun x => bind get (fun s => schedule (f s x) et name)))
    (fun _ => P) E.
Proof.
  eapply triple_bind; [apply rng_inv_sample|].
  intro x. eapply triple_bind; [apply triple_get|].
  intro s0. apply triple_schedule. intros s [Hs _]. exact Hs.
Qed.

Lemma rng_inv_admit_and_serve (key : string) :
  triple P (admit_and_serve key) (fun _ => P) E.
Proof.
  unfold admit_and_serve.
  eapply triple_bind with (R := fun _ => P).
  { eapply triple_weaken;
      [ apply triple_get_node; apply rng_inv_weaken
      | intros s Hs; exact Hs
      | intros a s [Hs _]; exact Hs
      | intros s Hs; exact Hs ]. }
  intro fila. destruct (Node.admit_ fila) as [admitted fila'].
  eapply triple_bind with (R := fun _ => P).
  { apply triple_put_node. intros s Hs. exact Hs. }
  intros ?. destruct admitted; [|apply triple_ret; auto].
  destruct (Node.n fila' <=? Node.c fila')%Z; [|apply triple_ret; auto].
  apply (rng_inv_sample_schedule _ (fun s x => (time s + x)%Q)).
Qed.

Lemma rng_inv_on_arrival (key : string) :
  triple P (on_arrival key) (fun _ => P) E.
Proof.
  unfold on_arrival.
  eapply triple_bind with (R := fun _ => P).
  { eapply triple_weaken;
      [ apply triple_get_node; apply rng_inv_weaken
      | intros s Hs; exact Hs
      | intros a s [Hs _]; exact Hs
      | intros s Hs; exact Hs ]. }
  intro fila.
  eapply triple_bind with (R := fun _ => P).
  { apply triple_modify. intros s Hs. exact Hs. }
  intros ?.
  eapply triple_bind with (R := fun _ => P).
  - destruct (Node.arrival_sampler fila) as [range|];
      [|apply triple_ret; auto].
    apply (rng_inv_sample_schedule _ (fun s x => (time s + x)%Q)).
  - intros ?. apply rng_inv_admit_and_serve.
Qed.

Lemma rng_inv_pick_destination (src : string) :
  triple P (pick_destination src) (fun _ => P) E.
Proof.
  intros s Hs. unfold pick_destination, bind, get, ret, rng_u.
  destruct (dict_get (routing_table s) src) as [[|entry rest]|];
    try exact Hs.
  destruct (SimulationRNG.u (rng s)) eqn:Hu.
  - apply (J_draw _ _ _ Hs Hu).
  - apply (J_fail _ _ _ Hs Hu).
Qed.

Lemma rng_inv_on_departure (key : string) :
  triple P (on_departure key) (fun _ => P) E.
Proof.
  unfold on_departure.
  eapply triple_bind with (R := fun _ => P).
  { eapply triple_weaken;
      [ apply triple_get_node; apply rng_inv_weaken
      | intros s Hs; exact Hs
      | intros a s [Hs _]; exact Hs
      | intros s Hs; exact Hs ]. }
  intro fila.
  eapply triple_bind with (R := fun _ => P).
  { apply triple_put_node. intros s Hs. exact Hs. }
  intros ?.
  eapply triple_bind with (R := fun _ => P).
  - destruct (_ <=? _)%Z; [|apply triple_ret; auto].
    apply (rng_inv_sample_schedule _ (fun s x => (time s + x)%Q)).
  - intros ?.
    eapply triple_bind; [apply rng_inv_pick_destination|].
    intro dest_name. destruct (truthy dest_name) as [dest|].
    + apply rng_inv_admit_and_serve.
    + apply triple_ret. auto.
Qed.

Lemma rng_inv_update_time_stats (t_new : Q) :
  triple P (update_time_stats t_new) (fun _ => P) P.
Proof.
  intros s Hs. unfold update_time_stats, bind, get, modify, ret, raise.
  destruct (Qltb 0 (t_new - last_update_time s)); [|exact Hs].
  destruct (add_time_nodes _ (nodes s)) as [nds ok].
  destruct ok; exact Hs.
Qed.

Lemma rng_inv_step : triple P step (fun _ => P) E.
Proof.
  unfold step.
  eapply triple_bind; [apply triple_get|].
  intro s0. cbv beta.
  destruct (heappop (events s0)) as [[ev rest]|].
  - eapply triple_bind with (R := fun _ => P).
    { apply triple_modify. intros s [Hs _]. exact Hs. }
    intros ?.
    eapply triple_bind with (R := fun _ => P).
    { eapply triple_weaken with (P' := P) (Q' := fun _ => P) (E' := P);
        [ apply rng_inv_update_time_stats | auto | auto
        | apply rng_inv_weaken ]. }
    intros ?.
    eapply triple_bind with (R := fun _ => P).
    { apply triple_modify. intros s Hs. exact Hs. }
    intros ?.
    destruct (ev_etype ev);
      [apply rng_inv_on_arrival | apply rng_inv_on_departure].
  - apply triple_raise. intros s [Hs _]. apply rng_inv_weaken. exact Hs.
Qed.

Lemma rng_inv_first_arrivals (items : list (string * Node.t)) :
  triple P (schedule_first_arrivals items) (fun _ => P) E.
Proof.
  induction items as [|[name node] rest IH]; simpl.
  - apply triple_ret. auto.
  - eapply triple_bind with (R := fun _ => P); [|intros ?; exact IH].
    destruct (Node.arrival_sampler node) as [range|];
      [|apply triple_ret; auto].
    eapply triple_bind; [apply rng_inv_sample|].
    intro x. apply triple_schedule. intros s Hs. exact Hs.
Qed.

Lemma rng_inv_loop (fuel : nat) :
  forall s o, P s -> loop fuel s = Some o ->
              match o with Return _ s' => P s' | Raise _ s' => E s' end.
Proof.
  induction fuel as [|fuel IH]; intros s o Hs; simpl.
  - destruct (running s); [discriminate|]. intros [= <-]. exact Hs.
  - destruct (running s); [|intros [= <-]; exact Hs].
    pose proof (rng_inv_step s Hs) as H.
    destruct (step s) as [[] s1|e s1].
    + apply IH. exact H.
    + intros [= <-]. exact H.
Qed.

Lemma rng_inv_run (fuel : nat) (s : NetworkSimulator.t)
    (o : outcome NetworkSimulator.t Results) :
  P s -> run fuel s = Some o ->
  match o with Return _ s' => P s' | Raise _ s' => E s' end.
Proof.
  intros Hs. unfold run.
  pose proof (rng_inv_first_arrivals (nodes s) s Hs) as H1.
  destruct (schedule_first_arrivals (nodes s) s) as [[] s1|e s1];
    [|intros [= <-]; exact H1].
  destruct (loop fuel s1) as [o2|] eqn:H2; [|discriminate].
  pose proof (rng_inv_loop fuel s1 o2 H1 H2) as H3.
  destruct o2 as [[] s2|e s2]; [|intros [= <-]; exact H3].
  pose proof (rng_inv_update_time_stats (time s2) s2 H3) as H4.
  destruct (update_time_stats (time s2) s2) as [[] s3|e s3];
    intros [= <-]; [exact H4 | apply rng_inv_weaken; exact H4].
Qed.
End RngInvariant.

(** ** Deviate source: exhaustion and usage counter *)

Lemma u_used (r : SimulationRNG.t) :
  SimulationRNG.used (final_state (SimulationRNG.u r))
  = (SimulationRNG.used r + 1)%Z.
Proof.
  unfold SimulationRNG.u. destruct (SimulationRNG.src r) as [[|x rest]|g].
  - reflexivity.
  - reflexivity.
  - destruct (LinearCongruentialGenerator.next_random g). reflexivity.
Qed.

Lemma replay_balance_draw (total : Z) (r : SimulationRNG.t) (x : Q)
    (r' : SimulationRNG.t) :
  replay_balance total r -> SimulationRNG.u r = Return x r' ->
  replay_balance total r'.
Proof.
  intros (rest & Hsrc & Hbal). unfold SimulationRNG.u. rewrite Hsrc.
  destruct rest as [|y rest]; [discriminate|].
  intros [= _ <-]. exists rest. simpl in *. split; [reflexivity | lia].
Qed.

Lemma loop_raise (fuel : nat) (s : NetworkSimulator.t) (e : exn)
    (s' : NetworkSimulator.t) :
  running s = true -> step s = Raise e s' ->
  loop (S fuel) s = Some (Raise e s').
Proof. intros Hr Hs. simpl. rewrite Hr, Hs. reflexivity. Qed.

Lemma run_raise (fuel : nat) (s0 s1 : NetworkSimulator.t) (e : exn)
    (s2 : NetworkSimulator.t) :
  schedule_first_arrivals (nodes s0) s0 = Return tt s1 ->
  loop fuel s1 = Some (Raise e s2) ->
  run fuel s0 = Some (Raise e s2).
Proof. intros H1 H2. unfold run. rewrite H1, H2. reflexivity. Qed.

(** C8. A draw from an empty replay list raises the exhaustion error;
    nothing in [run] catches it: an exception raised by a step is the
    outcome of the loop and of the run, in the state it was raised in, so a
    run that returns has been handed no more values than were supplied.
    Every call of [u], on either variant and also when it fails, adds
    exactly one to the usage counter, which never decreases over a run. *)
Theorem replay_exhaustion_is_fatal :
  (forall r,
      SimulationRNG.src r = SimulationRNG.FromList [] ->
      SimulationRNG.u r
      = Raise SimulationRNG.exhausted
              (SimulationRNG.mk (SimulationRNG.FromList [])
                                (SimulationRNG.used r + 1)))
  /\ (forall r,
        SimulationRNG.used (final_state (SimulationRNG.u r))
        = (SimulationRNG.used r + 1)%Z)
  /\ (forall fuel s e s',
        running s = true -> step s = Raise e s' ->
        loop (S fuel) s = Some (Raise e s'))
  /\ (forall fuel s0 s1 e s2,
        schedule_first_arrivals (nodes s0) s0 = Return tt s1 ->
        loop fuel s1 = Some (Raise e s2) ->
        run fuel s0 = Some (Raise e s2))
  /\ (forall fuel s0 res sf numbers,
        SimulationRNG.src (rng s0) = SimulationRNG.FromList numbers ->
        run fuel s0 = Some (Return res sf) ->
        exists rest,
          SimulationRNG.src (rng sf) = SimulationRNG.FromList rest
          /\ (SimulationRNG.used (rng sf) + Z.of_nat (List.length rest)
              = SimulationRNG.used (rng s0)
                + Z.of_nat (List.length numbers))%Z)
  /\ (forall fuel s0 o,
        run fuel s0 = Some o ->
        (SimulationRNG.used (rng s0)
         <= SimulationRNG.used (rng (final_state o)))%Z).
Proof.
  split; [|split; [|split; [|split; [|split]]]].
  - intros r Hsrc. unfold SimulationRNG.u. rewrite Hsrc. reflexivity.
  - apply u_used.
  - intros fuel s e s'. apply loop_raise.
  - intros fuel s0 s1 e s2. apply run_raise.
  - intros fuel s0 res sf numbers Hsrc Hrun.
    set (total := (SimulationRNG.used (rng s0)
                   + Z.of_nat (List.length numbers))%Z).
    pose proof (rng_inv_run (replay_balance total) (fun _ => True)
                  (fun _ _ => I) (replay_balance_draw total)
                  (fun _ _ _ _ _ => I) fuel s0 (Return res sf)) as H.
    apply H; [|exact Hrun].
    exists numbers. split; [exact Hsrc | reflexivity].
  - intros fuel s0 o Hrun.
    set (J := fun r => (SimulationRNG.used (rng s0) <= SimulationRNG.used r)%Z).
    assert (Hd : forall r x r', J r -> SimulationRNG.u r = Return x r' -> J r').
    { intros r x r' Hr Hu. pose proof (u_used r) as H. rewrite Hu in H.
      simpl in H. unfold J in *. lia. }
    assert (Hf : forall r e r', J r -> SimulationRNG.u r = Raise e r' -> J r').
    { intros r e r' Hr Hu. pose proof (u_used r) as H. rewrite Hu in H.
      simpl in H. unfold J in *. lia. }
    pose proof (rng_inv_run J J (fun _ H => H) Hd Hf fuel s0 o) as H.
    assert (H0 : J (rng s0)) by (unfold J; lia).
    specialize (H H0 Hrun). destruct o; exact H.
Qed.

Lemma replay_exhaustion_is_fatal_witness :
  SimulationRNG.src (Sample.replay []) = SimulationRNG.FromList []
  /\ SimulationRNG.u (Sample.replay [])
     = Raise SimulationRNG.exhausted
             (SimulationRNG.mk (SimulationRNG.FromList []) 1).
Proof.
  split; [reflexivity|].
  apply (proj1 replay_exhaustion_is_fatal (Sample.replay []) eq_refl).
Defined.

(** ** Determinism *)

Lemma loop_fuel_irrelevant (fuel1 : nat) :
  forall fuel2 s o1 o2,
    loop fuel1 s = Some o1 -> loop fuel2 s = Some o2 -> o1 = o2.
Proof.
  induction fuel1 as [|fuel1 IH]; intros fuel2 s o1 o2.
  - simpl. destruct (running s) eqn:Hr; [discriminate|].
    intros [= <-]. destruct fuel2; simpl; rewrite Hr; congruence.
  - destruct fuel2 as [|fuel2]; simpl; destruct (running s) eqn:Hr;
      try discriminate; try congruence.
    destruct (step s) as [[] s1|e s1]; [apply IH | congruence].
Qed.

Lemma run_fuel_irrelevant (fuel1 fuel2 : nat) (s : NetworkSimulator.t)
    (o1 o2 : outcome NetworkSimulator.t Results) :
  run fuel1 s = Some o1 -> run fuel2 s = Some o2 -> o1 = o2.
Proof.
  unfold run.
  destruct (schedule_first_arrivals (nodes s) s) as [[] s1|e s1];
    [|congruence].
  destruct (loop fuel1 s1) as [l1|] eqn:H1; [|discriminate].
  destruct (loop fuel2 s1) as [l2|] eqn:H2; [|discriminate].
  rewrite (loop_fuel_irrelevant fuel1 fuel2 s1 l1 l2 H1 H2).
  congruence.
Qed.

(** ** Time accounting *)

Lemma fold_left_Qplus_acc (l : list Q) :
  forall a, (fold_left Qplus l a == a + fold_left Qplus l 0)%Q.
Proof.
  induction l as [|x l IH]; intro a; simpl.
  - ring.
  - rewrite (IH (a + x)%Q), (IH (0 + x)%Q). ring.
Qed.

Lemma sum_Q_cons (x : Q) (l : list Q) :
  (sum_Q (x :: l) == x + sum_Q l)%Q.
Proof.
  unfold sum_Q. simpl. rewrite fold_left_Qplus_acc. ring.
Qed.

Lemma sum_Q_repeat_zero (len : nat) : (sum_Q (repeat 0%Q len) == 0)%Q.
Proof.
  induction len as [|len IH]; simpl.
  - reflexivity.
  - rewrite sum_Q_cons, IH. ring.
Qed.

Lemma sum_Q_list_set (l : list Q) :
  forall i dt,
    (i < List.length l)%nat ->
    (sum_Q (list_set l i (nth i l 0 + dt)) == sum_Q l + dt)%Q.
Proof.
  induction l as [|x l IH]; intros i dt Hi; simpl in Hi.
  - lia.
  - destruct i as [|i]; simpl.
    + rewrite !sum_Q_cons. ring.
    + rewrite !sum_Q_cons, IH by lia. ring.
Qed.

Lemma py_index_bound {A} (l : list A) (i : Z) (pos : nat) :
  py_index l i = Some pos -> (pos < List.length l)%nat.
Proof.
  unfold py_index.
  destruct ((0 <=? i) && (i <? Z.of_nat (List.length l)))%Z eqn:H1.
  - apply andb_true_iff in H1. destruct H1 as [Ha Hb].
    apply Z.leb_le in Ha. apply Z.ltb_lt in Hb. intros [= <-]. lia.
  - destruct ((- Z.of_nat (List.length l) <=? i) && (i <? 0))%Z eqn:H2;
      [|discriminate].
    apply andb_true_iff in H2. destruct H2 as [Ha Hb].
    apply Z.leb_le in Ha. apply Z.ltb_lt in Hb. intros [= <-]. lia.
Qed.

Lemma add_time_sum (dt : Q) (nd nd' : Node.t) :
  Node.add_time dt nd = Some nd' ->
  (sum_Q (Node.tempo_estado nd') == sum_Q (Node.tempo_estado nd) + dt)%Q.
Proof.
  unfold Node.add_time.
  destruct (py_index (Node.tempo_estado nd) (Node.n nd)) as [pos|] eqn:Hp;
    [|discriminate].
  intros [= <-]. simpl. apply sum_Q_list_set.
  apply (py_index_bound _ _ _ Hp).
Qed.

Lemma u_unit (r : SimulationRNG.t) (x : Q) (r' : SimulationRNG.t) :
  unit_deviates r -> SimulationRNG.u r = Return x r' ->
  unit_interval x /\ unit_deviates r'.
Proof.
  unfold unit_deviates, SimulationRNG.u.
  destruct (SimulationRNG.src r) as [[|y rest]|g]; intro H.
  - discriminate.
  - intros [= <- <-]. simpl. inversion H; subst. auto.
  - unfold LinearCongruentialGenerator.next_random.
    intros [= <- <-]. simpl. split; [|exact H].
    pose proof (Z.mod_pos_bound
                  (LinearCongruentialGenerator.a g
                   * LinearCongruentialGenerator.state g
                   + LinearCongruentialGenerator.c g)
                  (LinearCongruentialGenerator.m g) H) as [Hlo Hhi].
    assert (Hm : (0 < inject_Z (LinearCongruentialGenerator.m g))%Q).
    { change 0%Q with (inject_Z 0). rewrite <- Zlt_Qlt. exact H. }
    split.
    + apply Qle_shift_div_l; [exact Hm|]. rewrite Qmult_0_l.
      change 0%Q with (inject_Z 0). rewrite <- Zle_Qle. exact Hlo.
    + apply Qle_shift_div_r; [exact Hm|]. rewrite Qmult_1_l.
      rewrite <- Zle_Qle. lia.
Qed.

Lemma sample_value_nonneg (lo hi x : Q) :
  nonneg_range (lo, hi) -> unit_interval x ->
  (0 <= lo + (hi - lo) * x)%Q.
Proof.
  unfold nonneg_range, unit_interval. simpl. intros [Hlo Hhi] [Hx0 Hx1].
  assert (H1 : (0 <= lo * (1 - x))%Q)
    by (apply Qmult_le_0_compat; [exact Hlo | lra]).
  assert (H2 : (0 <= hi * x)%Q)
    by (apply Qmult_le_0_compat; assumption).
  setoid_replace (lo + (hi - lo) * x)%Q with (lo * (1 - x) + hi * x)%Q by ring.
  lra.
Qed.

Lemma event_ltb_time (x e : Event) :
  event_ltb x e = true -> (ev_time x <= ev_time e)%Q.
Proof.
  unfold event_ltb. intro H. apply orb_true_iff in H. destruct H as [H|H].
  - apply Qltb_lt in H. apply Qlt_le_weak. exact H.
  - apply andb_true_iff in H. destruct H as [H _].
    apply Qeq_bool_iff in H. rewrite H. apply Qle_refl.
Qed.

Lemma event_ltb_false_time (x e : Event) :
  event_ltb x e = false -> (ev_time e <= ev_time x)%Q.
Proof.
  unfold event_ltb. intro H. apply orb_false_iff in H. destruct H as [H _].
  apply Qltb_ge in H. exact H.
Qed.

Lemma pop_least_earliest (e : Event) (rest : list Event) :
  forall least r,
    pop_least e rest = (least, r) ->
    (ev_time least <= ev_time e)%Q
    /\ (forall x, In x rest -> (ev_time least <= ev_time x)%Q).
Proof.
  revert e. induction rest as [|y ys IH]; intros e least r; simpl.
  - intros [= <- <-]. split; [apply Qle_refl | intros x []].
  - destruct (event_ltb y e) eqn:Hlt.
    + destruct (pop_least y ys) as [m r0] eqn:Hp. intros [= <- <-].
      destruct (IH y m r0 Hp) as [Hy Hys].
      pose proof (event_ltb_time _ _ Hlt) as Hye.
      split; [apply (Qle_trans _ _ _ Hy Hye)|].
      intros x [<- | Hin]; [exact Hy | apply Hys; exact Hin].
    + destruct (pop_least e ys) as [m r0] eqn:Hp. intros [= <- <-].
      destruct (IH e m r0 Hp) as [He Hys].
      pose proof (event_ltb_false_time _ _ Hlt) as Hey.
      split; [exact He|].
      intros x [<- | Hin]; [apply (Qle_trans _ _ _ He Hey) | apply Hys; exact Hin].
Qed.

Lemma heappop_earliest (h : list Event) (ev : Event) (rest : list Event) :
  heappop h = Some (ev, rest) ->
  In ev h /\ forall x, In x rest -> In x h /\ (ev_time ev <= ev_time x)%Q.
Proof.
  destruct h as [|e l]; [discriminate|]. simpl. intros [= Hp].
  pose proof (pop_least_perm e l _ _ Hp) as Hperm.
  destruct (pop_least_earliest e l _ _ Hp) as [He Hl].
  split.
  - apply (Permutation_in _ (Permutation_sym Hperm)). left. reflexivity.
  - intros x Hx.
    assert (Hin : In x (e :: l)).
    { apply (Permutation_in _ (Permutation_sym Hperm)). right. exact Hx. }
    split; [exact Hin|].
    destruct Hin as [<- | Hin]; [exact He | apply Hl; exact Hin].
Qed.

Lemma clock_frame (upto next : Q) (s s' : NetworkSimulator.t) :
  rng s' = rng s -> events s' = events s -> nodes s' = nodes s ->
  clock upto next s -> clock upto next s'.
Proof.
  intros Hr He Hn (H1 & H2 & H3). unfold clock. rewrite Hr, He, Hn. auto.
Qed.

Lemma clock_upto (upto upto' next : Q) (s : NetworkSimulator.t) :
  (upto == upto')%Q -> clock upto next s -> clock upto' next s.
Proof.
  intros Heq (H1 & H2 & H3). split; [exact H1|]. split; [exact H2|].
  intros key nd Hg. destruct (H3 key nd Hg) as [Hs Hsum].
  split; [exact Hs|]. rewrite Hsum. exact Heq.
Qed.

Lemma clock_next (upto next next' : Q) (s : NetworkSimulator.t) :
  (next' <= next)%Q -> clock upto next s -> clock upto next' s.
Proof.
  intros Hle (H1 & H2 & H3). split; [exact H1|]. split; [|exact H3].
  intros ev Hin. apply (Qle_trans _ _ _ Hle (H2 ev Hin)).
Qed.

Lemma clock_put_node (upto next : Q) (s : NetworkSimulator.t)
    (key : string) (nd nd' : Node.t) :
  dict_get (nodes s) key = Some nd -> same_stats nd nd' ->
  clock upto next s ->
  clock upto next (set_nodes (dict_set (nodes s) key nd') s).
Proof.
  intros Hg (Ht & Hs & Ha) (H1 & H2 & H3).
  split; [exact H1|]. split; [exact H2|].
  intros key' nd0. simpl. rewrite dict_get_set.
  destruct (String.eqb key key').
  - intros [= <-]. destruct (H3 key nd Hg) as [[Hsv Har] Hsum].
    unfold nonneg_samplers. rewrite Ht, Hs, Ha. auto.
  - apply H3.
Qed.

Lemma clock_schedule (upto next : Q) (s : NetworkSimulator.t)
    (sq : Z) (ev : Event) :
  (next <= ev_time ev)%Q -> clock upto next s ->
  clock upto next (set_schedule sq (heappush (events s) ev) s).
Proof.
  intros Hle (H1 & H2 & H3). split; [exact H1|]. split; [|exact H3].
  intros e Hin. simpl in Hin. unfold heappush in Hin.
  apply in_app_or in Hin. destruct Hin as [Hin | [<- | []]];
    [apply H2; exact Hin | exact Hle].
Qed.

Lemma clock_draw (upto next : Q) (s : NetworkSimulator.t) (x : Q)
    (r : SimulationRNG.t) :
  clock upto next s -> SimulationRNG.u (rng s) = Return x r ->
  unit_interval x /\ clock upto next (set_rng r s).
Proof.
  intros (H1 & H2 & H3) Hu. destruct (u_unit _ _ _ H1 Hu) as [Hx Hr].
  split; [exact Hx|]. split; [exact Hr|]. split; [exact H2 | exact H3].
Qed.

(** Sampling a duration and scheduling an event that far from now. *)
Lemma timed_sample_schedule (range : Q * Q) (et : EType) (name : string) :
  nonneg_range range ->
  triple timed
    (bind (sample range)
       (fun x => bind get (fun s => schedule (time s + x)%Q et name)))
    (fun _ => timed) (fun _ => True).
Proof.
  intro Hrange. destruct range as [lo hi].
  eapply triple_bind with
    (R := fun x s => timed s /\ (0 <= x)%Q).
  - apply triple_sample; [|auto].
    intros s x r [Hl Hc] Hu. destruct (clock_draw _ _ _ _ _ Hc Hu) as [Hx Hc'].
    split; [split; [exact Hl | exact Hc']|].
    apply sample_value_nonneg; assumption.
  - intro x. eapply triple_bind; [apply triple_get|].
    intro s0. apply triple_schedule. intros s [[[Hl Hc] Hx] <-].
    split; [exact Hl|]. simpl. apply clock_schedule; [|exact Hc].
    simpl. lra.
Qed.

Lemma timed_put_node (s : NetworkSimulator.t) (key : string)
    (nd nd' : Node.t) :
  dict_get (nodes s) key = Some nd -> same_stats nd nd' ->
  timed s -> timed (set_nodes (dict_set (nodes s) key nd') s).
Proof.
  intros Hg Hs [Hl Hc]. split; [exact Hl|].
  apply (clock_put_node _ _ _ _ nd nd' Hg Hs Hc).
Qed.

Lemma timed_get_node (key : string) :
  triple timed (get_node key)
    (fun nd s => timed s /\ dict_get (nodes s) key = Some nd)
    (fun _ => True).
Proof. apply triple_get_node. auto. Qed.

Lemma timed_nonneg (s : NetworkSimulator.t) (key : string) (nd : Node.t) :
  timed s -> dict_get (nodes s) key = Some nd -> nonneg_samplers nd.
Proof.
  intros [_ (_ & _ & H3)] Hg. apply (H3 key nd Hg).
Qed.

Lemma admit_and_serve_timed (key : string) :
  triple timed (admit_and_serve key) (fun _ => timed) (fun _ => True).
Proof.
  unfold admit_and_serve.
  eapply triple_bind; [apply timed_get_node|].
  intro fila. cbv beta.
  apply triple_pure with (F := nonneg_samplers fila).
  { intros s [Hs Hg]. apply (timed_nonneg s key fila Hs Hg). }
  intros [Hsv _].
  assert (Hsame : same_stats fila (snd (Node.admit_ fila))).
  { unfold Node.admit_. destruct (_ <=? _)%Z; repeat split. }
  destruct (Node.admit_ fila) as [admitted fila'] eqn:Ha. simpl in Hsame.
  eapply triple_bind with (R := fun _ => timed).
  { apply triple_put_node. intros s [Hs Hg].
    apply (timed_put_node s key fila fila' Hg Hsame Hs). }
  intros ?. destruct admitted; [|apply triple_ret; auto].
  destruct (Node.n fila' <=? Node.c fila')%Z; [|apply triple_ret; auto].
  apply timed_sample_schedule.
  destruct Hsame as (_ & -> & _). exact Hsv.
Qed.

Lemma on_arrival_timed (key : string) :
  triple timed (on_arrival key) (fun _ => timed) (fun _ => True).
Proof.
  unfold on_arrival.
  eapply triple_bind; [apply timed_get_node|].
  intro fila. cbv beta.
  apply triple_pure with (F := nonneg_samplers fila).
  { intros s [Hs Hg]. apply (timed_nonneg s key fila Hs Hg). }
  intros [_ Har].
  eapply triple_bind with (R := fun _ => timed).
  { apply triple_modify. intros s [[Hl Hc] _]. split; [exact Hl|].
    revert Hc. apply clock_frame; reflexivity. }
  intros ?.
  eapply triple_bind with (R := fun _ => timed).
  - destruct (Node.arrival_sampler fila) as [range|];
      [|apply triple_ret; auto].
    apply timed_sample_schedule. apply Har. reflexivity.
  - intros ?. apply admit_and_serve_timed.
Qed.

Lemma pick_destination_timed (src : string) :
  triple timed (pick_destination src) (fun _ => timed) (fun _ => True).
Proof.
  intros s Hs. unfold pick_destination, bind, get, ret, rng_u.
  destruct (dict_get (routing_table s) src) as [[|entry rest]|];
    try exact Hs.
  destruct (SimulationRNG.u (rng s)) eqn:Hu; [|exact I].
  destruct Hs as [Hl Hc]. destruct (clock_draw _ _ _ _ _ Hc Hu) as [_ Hc'].
  split; [exact Hl | exact Hc'].
Qed.

Lemma on_departure_timed (key : string) :
  triple timed (on_departure key) (fun _ => timed) (fun _ => True).
Proof.
  unfold on_departure.
  eapply triple_bind; [apply timed_get_node|].
  intro fila. cbv beta.
  apply triple_pure with (F := nonneg_samplers fila).
  { intros s [Hs Hg]. apply (timed_nonneg s key fila Hs Hg). }
  intros [Hsv _].
  eapply triple_bind with (R := fun _ => timed).
  { apply triple_put_node. intros s [Hs Hg].
    apply (timed_put_node s key fila _ Hg); [|exact Hs]. repeat split. }
  intros ?.
  eapply triple_bind with (R := fun _ => timed).
  - destruct (_ <=? _)%Z; [|apply triple_ret; auto].
    apply timed_sample_schedule. exact Hsv.
  - intros ?.
    eapply triple_bind; [apply pick_destination_timed|].
    intro dest_name. destruct (truthy dest_name) as [dest|].
    + apply admit_and_serve_timed.
    + apply triple_ret. auto.
Qed.

Lemma update_time_stats_popped (ev : Event) :
  triple (popped ev) (update_time_stats (ev_time ev))
         (fun _ => updated ev) (fun _ => True).
Proof.
  intros s (Hl & Hle & Hdev & Hev & Hnodes).
  unfold update_time_stats, bind, get, modify, ret, raise.
  destruct (Qltb 0 (ev_time ev - last_update_time s)) eqn:Hdt.
  - destruct (add_time_nodes _ (nodes s)) as [nds ok] eqn:Ha.
    destruct ok; [|exact I].
    split; [simpl; reflexivity|].
    split; [exact Hdev|]. split; [exact Hev|].
    intros key nd' Hg. simpl in Hg.
    destruct (add_time_nodes_get _ _ _ _ key nd' Ha Hg)
      as (nd & Hnd & _ & Hadd).
    specialize (Hadd eq_refl).
    destruct (Hnodes key nd Hnd) as [[Hsv Har] Hsum].
    destruct (add_time_same _ _ _ Hadd) as (_ & _ & _ & Es & Ea & _).
    split.
    + unfold nonneg_samplers. rewrite Es, Ea. auto.
    + rewrite (add_time_sum _ _ _ Hadd), Hsum, Hl. ring.
  - apply Qltb_ge in Hdt.
    assert (Heq : (time s == ev_time ev)%Q) by (apply Qle_antisym; lra).
    split; [simpl; reflexivity|].
    apply (clock_upto (time s)); [exact Heq|].
    split; [exact Hdev|]. split; [exact Hev | exact Hnodes].
Qed.

Lemma step_timed : triple timed step (fun _ => timed) (fun _ => True).
Proof.
  unfold step.
  eapply triple_bind; [apply triple_get|].
  intro s0. cbv beta.
  destruct (heappop (events s0)) as [[ev rest]|] eqn:Hpop;
    [|apply triple_raise; auto].
  destruct (heappop_earliest _ _ _ Hpop) as [Hin Hrest].
  eapply triple_bind with (R := fun _ => popped ev).
  { apply triple_modify. intros s [[Hl (Hdev & Hev & Hnodes)] <-].
    split; [exact Hl|]. split; [apply Hev; exact Hin|].
    split; [exact Hdev|]. split; [|exact Hnodes].
    intros x Hx. simpl in Hx. apply (Hrest x Hx). }
  intros ?.
  eapply triple_bind; [apply update_time_stats_popped|].
  intros ?.
  eapply triple_bind with (R := fun _ => timed).
  { apply triple_modify. intros s [Hl Hc]. split; [exact Hl|].
    simpl. revert Hc. apply clock_frame; reflexivity. }
  intros ?.
  destruct (ev_etype ev); [apply on_arrival_timed | apply on_departure_timed].
Qed.

Lemma dict_set_in {A} (d : list (string * A)) (key : string) (v : A)
    (item : string * A) :
  In item (dict_set d key v) -> item = (key, v) \/ In item d.
Proof.
  induction d as [|[k0 v0] d IH]; simpl.
  - intros [<- | []]. left. reflexivity.
  - destruct (String.eqb k0 key) eqn:E; simpl.
    + apply String.eqb_eq in E. subst k0.
      intros [<- | H]; [left; reflexivity | right; right; exact H].
    + intros [<- | H]; [right; left; reflexivity|].
      destruct (IH H) as [-> | Hin]; [left; reflexivity | right; right; exact Hin].
Qed.

Lemma build_nodes_in (qs : list (string * QueueParams)) :
  forall acc built key nd,
    build_nodes qs acc = Ok built ->
    In (key, nd) built ->
    In (key, nd) acc
    \/ exists params, In (key, params) qs /\ build_node key params = Ok nd.
Proof.
  induction qs as [|[name params] qs IH]; intros acc built key nd; simpl.
  - intros [= <-] Hin. left. exact Hin.
  - destruct (build_node name params) as [nd0|e] eqn:Hb; [|discriminate].
    intros Hbuild Hin.
    destruct (IH _ _ _ _ Hbuild Hin) as [Hacc | (p & Hp & Hn)].
    + destruct (dict_set_in _ _ _ _ Hacc) as [[= -> ->] | Hold].
      * right. exists params. auto.
      * left. exact Hold.
    + right. exists p. auto.
Qed.

Lemma build_node_nonneg (config : Config) (key : string)
    (params : QueueParams) (nd : Node.t) :
  nonneg_durations config ->
  In (key, params) (queues config) ->
  build_node key params = Ok nd ->
  nonneg_samplers nd /\ (sum_Q (Node.tempo_estado nd) == 0)%Q.
Proof.
  intros [Hq _] Hin. unfold build_node.
  destruct (capacity params) as [cap|]; [|discriminate].
  intros [= <-].
  rewrite Forall_forall in Hq. specialize (Hq _ Hin). simpl in Hq.
  destruct Hq as (Hlo & Hhi & Halo & Hahi).
  split; [|apply sum_Q_repeat_zero].
  split; [split; assumption|]. simpl.
  destruct (minArrival params) as [lo|]; [|discriminate].
  destruct (maxArrival params) as [hi|]; [|discriminate].
  intros range [= <-]. split; simpl; auto.
Qed.

Lemma init_unit_deviates (config : Config) :
  nonneg_durations config -> unit_deviates (RNGInit.init config).
Proof.
  intros [_ Hn]. unfold RNGInit.init, unit_deviates.
  destruct (rndnumbers config) as [nums|]; [|simpl; reflexivity].
  destruct (seeds config); simpl; [reflexivity|].
  apply Hn. reflexivity.
Qed.

Lemma init_timed (config : Config) (s : NetworkSimulator.t) :
  nonneg_durations config ->
  NetworkSimulator.init config = Ok s ->
  timed s /\ (time s == 0)%Q
  /\ (forall name node, In (name, node) (nodes s) -> nonneg_samplers node).
Proof.
  intros Hcfg. unfold NetworkSimulator.init.
  destruct (build_nodes (queues config) []) as [built|e] eqn:Hb;
    [|discriminate].
  intros [= <-]. simpl.
  split; [|split; [reflexivity|]].
  - split; [simpl; reflexivity|]. simpl.
    split; [apply (init_unit_deviates _ Hcfg)|].
    split; [intros ev []|].
    intros key nd Hg. simpl in Hg.
    destruct (build_nodes_get _ _ _ _ _ Hb Hg) as [Hacc | (p & Hin & Hp)];
      [discriminate|].
    apply (build_node_nonneg config key p nd Hcfg Hin Hp).
  - intros name node Hin.
    destruct (build_nodes_in _ _ _ _ _ Hb Hin) as [[] | (p & Hp & Hn)].
    apply (build_node_nonneg config name p node Hcfg Hp Hn).
Qed.

Lemma schedule_first_arrivals_timed (items : list (string * Node.t)) :
  (forall name node, In (name, node) items -> nonneg_samplers node) ->
  triple (fun s => timed s /\ (time s == 0)%Q)
         (schedule_first_arrivals items)
         (fun _ s => timed s /\ (time s == 0)%Q) (fun _ => True).
Proof.
  induction items as [|[name node] rest IH]; intro Hall; simpl.
  - apply triple_ret. auto.
  - eapply triple_bind with (R := fun _ s => timed s /\ (time s == 0)%Q).
    + destruct (Node.arrival_sampler node) as [[lo hi]|] eqn:Har;
        [|apply triple_ret; auto].
      destruct (Hall name node (or_introl eq_refl)) as [_ Hr].
      specialize (Hr _ Har).
      eapply triple_bind with
        (R := fun x s => (timed s /\ (time s == 0)%Q) /\ (0 <= x)%Q).
      * apply triple_sample; [|auto].
        intros s x r [[Hl Hc] H0] Hu.
        destruct (clock_draw _ _ _ _ _ Hc Hu) as [Hx Hc'].
        split; [split; [split; [exact Hl | exact Hc'] | exact H0]|].
        apply sample_value_nonneg; assumption.
      * intro x. apply triple_schedule. intros s [[[Hl Hc] H0] Hx].
        split; [|exact H0]. split; [exact Hl|]. simpl.
        apply clock_schedule; [|exact Hc]. simpl. rewrite H0. exact Hx.
    + intros ?. apply IH. intros n0 nd0 Hin. apply (Hall n0 nd0).
      right. exact Hin.
Qed.

Lemma at_loop_head_timed (s0 s : NetworkSimulator.t) :
  timed s0 -> (time s0 == 0)%Q ->
  (forall name node, In (name, node) (nodes s0) -> nonneg_samplers node) ->
  at_loop_head s0 s -> timed s.
Proof.
  intros Ht H0 Hall H. induction H as [s1 H1 | s s' Hhead IH Hrun Hstep].
  - pose proof (schedule_first_arrivals_timed (nodes s0) Hall s0
                  (conj Ht H0)) as H.
    rewrite H1 in H. apply H.
  - pose proof (step_timed s IH) as H. rewrite Hstep in H. exact H.
Qed.

Lemma final_update_timed (s sf : NetworkSimulator.t) :
  timed s -> update_time_stats (time s) s = Return tt sf ->
  sf = set_last_update_time (time s) s.
Proof.
  intros [Hl _]. unfold update_time_stats, bind, get, modify, ret, raise.
  destruct (Qltb 0 (time s - last_update_time s)) eqn:Hdt.
  - apply Qltb_lt in Hdt. exfalso. lra.
  - intros [= <-]. reflexivity.
Qed.

(** What one statistics update does when time has advanced. *)
Lemma update_time_stats_adds (s s' : NetworkSimulator.t) (t_new : Q) :
  (0 < t_new - last_update_time s)%Q ->
  update_time_stats t_new s = Return tt s' ->
  last_update_time s' = t_new
  /\ forall key nd',
       dict_get (nodes s') key = Some nd' ->
       exists nd,
         dict_get (nodes s) key = Some nd
         /\ (sum_Q (Node.tempo_estado nd')
             == sum_Q (Node.tempo_estado nd) + (t_new - last_update_time s))%Q.
Proof.
  intro Hdt. apply Qltb_lt in Hdt.
  unfold update_time_stats, bind, get, modify, ret, raise. rewrite Hdt.
  destruct (add_time_nodes _ (nodes s)) as [nds ok] eqn:Ha.
  destruct ok; [|discriminate].
  intros [= <-]. split; [reflexivity|].
  intros key nd' Hg. simpl in Hg.
  destruct (add_time_nodes_get _ _ _ _ key nd' Ha Hg) as (nd & Hnd & _ & Hadd).
  exists nd. split; [exact Hnd|]. apply add_time_sum. apply Hadd. reflexivity.
Qed.

(** C1 (as amended). When no sampled duration can be negative (the bounds
    of every inter-arrival and service range are non-negative and the
    replay deviates lie in [0, 1]), every completed run ends with the
    time-in-state vector of every node adding up to the final global time,
    which is the end time reported in the results. A statistics update
    that advances time by [dt > 0] adds [dt] to the time-in-state of every
    node of the system. *)
Theorem time_in_state_sums_to_clock :
  (forall (config : Config) (s0 : NetworkSimulator.t) (fuel : nat)
          (res : Results) (sf : NetworkSimulator.t)
          (key : string) (nd : Node.t),
      nonneg_durations config ->
      NetworkSimulator.init config = Ok s0 ->
      run fuel s0 = Some (Return res sf) ->
      dict_get (nodes sf) key = Some nd ->
      (sum_Q (Node.tempo_estado nd) == time sf)%Q
      /\ tempo_global res = time sf)
  /\ (forall (s s' : NetworkSimulator.t) (t_new : Q)
             (key : string) (nd' : Node.t),
        (0 < t_new - last_update_time s)%Q ->
        update_time_stats t_new s = Return tt s' ->
        dict_get (nodes s') key = Some nd' ->
        exists nd,
          dict_get (nodes s) key = Some nd
          /\ (sum_Q (Node.tempo_estado nd')
              == sum_Q (Node.tempo_estado nd)
                 + (t_new - last_update_time s))%Q).
Proof.
  split.
  - intros config s0 fuel res sf key nd Hcfg Hi Hrun Hg.
    destruct (init_timed config s0 Hcfg Hi) as (Ht & H0 & Hall).
    destruct (run_completed _ _ _ _ Hrun) as (s2 & Hhead & _ & Hu & ->).
    pose proof (at_loop_head_timed s0 s2 Ht H0 Hall Hhead) as Ht2.
    pose proof (final_update_timed s2 sf Ht2 Hu) as ->.
    simpl in *. split; [|reflexivity].
    destruct Ht2 as [_ (_ & _ & Hnodes)]. apply (Hnodes key nd Hg).
  - intros s s' t_new key nd' Hdt Hu Hg.
    destruct (update_time_stats_adds s s' t_new Hdt Hu) as [_ H].
    apply (H key nd' Hg).
Qed.

(** C1 as the spec states it fails: with services of -1 the departure
    of the first customer is processed at time 1, after the arrival at
    time 2; the interval back is not subtracted, and the run completes at
    time 4 with a time-in-state vector that adds up to 5. *)
Lemma time_in_state_exceeds_clock_when_time_runs_backwards :
  option_map
    (fun s => (Qred (time s),
               map (fun item => Qred (sum_Q (Node.tempo_estado (snd item))))
                   (nodes s),
               map (fun e => Qred (ev_time e)) (processed s)))
    (Sample.completed 10 Scenario.backwards)
  = Some (4%Q, [5%Q], [2%Q; 1%Q; 4%Q]).
Proof. vm_compute. reflexivity. Qed.

Lemma nonneg_durations_single : nonneg_durations (Scenario.single 7).
Proof.
  split.
  - repeat constructor; simpl.
    + discriminate.
    + discriminate.
    + intros lo [= <-]. discriminate.
    + intros hi [= <-]. discriminate.
  - intros numbers [= <-]. simpl.
    repeat constructor; simpl; discriminate.
Defined.

Lemma time_in_state_sums_to_clock_witness :
  nonneg_durations (Scenario.single 7)
  /\ NetworkSimulator.init (Scenario.single 7) = Ok Sample.single_start
  /\ run 10 Sample.single_start
     = Some (Return (_get_results Sample.single_end) Sample.single_end)
  /\ dict_get (nodes Sample.single_end) "Q1" = Some Sample.single_node
  /\ (sum_Q (Node.tempo_estado Sample.single_node)
      == time Sample.single_end)%Q.
Proof.
  assert (Hi : NetworkSimulator.init (Scenario.single 7)
               = Ok Sample.single_start).
  { vm_compute. reflexivity. }
  assert (Hrun : run 10 Sample.single_start
                 = Some (Return (_get_results Sample.single_end)
                                Sample.single_end)).
  { vm_compute. reflexivity. }
  assert (Hg : dict_get (nodes Sample.single_end) "Q1"
               = Some Sample.single_node).
  { vm_compute. reflexivity. }
  split; [exact nonneg_durations_single|].
  split; [exact Hi|]. split; [exact Hrun|]. split; [exact Hg|].
  apply (proj1 (proj1 time_in_state_sums_to_clock (Scenario.single 7)
                  Sample.single_start 10%nat
                  (_get_results Sample.single_end) Sample.single_end
                  "Q1"%string Sample.single_node
                  nonneg_durations_single Hi Hrun Hg)).
Defined.

(* ================================================================== *)
(** * Further properties of the code *)

(** ** gerador.py: the generator stays in range *)

(** With a positive modulus, as in every generator the simulator builds
    (whatever the seed, negative ones included), [next_random] returns a
    value in [0, 1), the new state lies in [0, m) and the parameters are
    kept. *)
Theorem next_random_in_unit_interval :
  (forall g,
      (0 < LinearCongruentialGenerator.m g)%Z ->
      (0 <= fst (LinearCongruentialGenerator.next_random g))%Q
      /\ (fst (LinearCongruentialGenerator.next_random g) < 1)%Q
      /\ (0 <= LinearCongruentialGenerator.state
                 (snd (LinearCongruentialGenerator.next_random g))
          < LinearCongruentialGenerator.m g)%Z
      /\ LinearCongruentialGenerator.m
           (snd (LinearCongruentialGenerator.next_random g))
         = LinearCongruentialGenerator.m g)
  /\ (forall seed,
        (0 < LinearCongruentialGenerator.m
               (LinearCongruentialGenerator.init seed))%Z).
Proof.
  split; [|intro seed; reflexivity].
  intros g Hm. unfold LinearCongruentialGenerator.next_random. simpl.
  pose proof (Z.mod_pos_bound
                (LinearCongruentialGenerator.a g
                 * LinearCongruentialGenerator.state g
                 + LinearCongruentialGenerator.c g)
                (LinearCongruentialGenerator.m g) Hm) as [Hlo Hhi].
  assert (HmQ : (0 < inject_Z (LinearCongruentialGenerator.m g))%Q).
  { change 0%Q with (inject_Z 0). rewrite <- Zlt_Qlt. exact Hm. }
  split; [|split; [|split; [split; assumption | reflexivity]]].
  - apply Qle_shift_div_l; [exact HmQ|]. rewrite Qmult_0_l.
    change 0%Q with (inject_Z 0). rewrite <- Zle_Qle. exact Hlo.
  - apply Qlt_shift_div_r; [exact HmQ|]. rewrite Qmult_1_l.
    rewrite <- Zlt_Qlt. exact Hhi.
Qed.

Lemma next_random_in_unit_interval_witness :
  (0 < LinearCongruentialGenerator.m (LinearCongruentialGenerator.init (-5)))%Z
  /\ (fst (LinearCongruentialGenerator.next_random
             (LinearCongruentialGenerator.init (-5))) < 1)%Q.
Proof.
  assert (Hm : (0 < LinearCongruentialGenerator.m
                       (LinearCongruentialGenerator.init (-5)))%Z)
    by reflexivity.
  split; [exact Hm|].
  apply (proj1 (proj2 (proj1 next_random_in_unit_interval
                         (LinearCongruentialGenerator.init (-5)) Hm))).
Defined.

(** ** update_time_stats: what it changes and when it fails *)

Lemma add_time_nodes_keys (dt : Q) (nds : list (string * Node.t)) :
  map fst (fst (add_time_nodes dt nds)) = map fst nds.
Proof.
  induction nds as [|[k0 nd0] rest IH]; simpl; [reflexivity|].
  destruct (Node.add_time dt nd0); [|reflexivity].
  destruct (add_time_nodes dt rest) as [rest' ok]. simpl in *.
  rewrite IH. reflexivity.
Qed.


(** ** The run never rewrites the network and never takes tallies back *)

Lemma advanced_refl (nd : Node.t) : advanced nd nd.
Proof. unfold advanced. repeat split; lia. Qed.

Lemma advanced_trans (a b c : Node.t) :
  advanced a b -> advanced b c -> advanced a c.
Proof.
  unfold advanced.
  intros (A1 & A2 & A3 & A4 & A5 & A6 & A7 & A8)
         (B1 & B2 & B3 & B4 & B5 & B6 & B7 & B8).
  repeat split; try congruence; lia.
Qed.

Lemma follows_refl (s : NetworkSimulator.t) : follows s s.
Proof.
  unfold follows. repeat split; try lia.
  intros key nd Hg. exists nd. split; [exact Hg | apply advanced_refl].
Qed.

Lemma dict_set_keys {A} (d : list (string * A)) (key : string) (v w : A) :
  dict_get d key = Some v -> map fst (dict_set d key w) = map fst d.
Proof.
  induction d as [|[k0 v0] d IH]; simpl; [discriminate|].
  destruct (String.eqb k0 key); simpl; [reflexivity|].
  intro H. rewrite (IH H). reflexivity.
Qed.

Lemma follows_put_node (s0 s : NetworkSimulator.t) (key : string)
    (nd nd' : Node.t) :
  dict_get (nodes s) key = Some nd -> advanced nd nd' ->
  follows s0 s -> follows s0 (set_nodes (dict_set (nodes s) key nd') s).
Proof.
  intros Hg Hadv (H1 & H2 & H3 & H4 & H5 & H6 & H7).
  unfold follows. simpl.
  rewrite (dict_set_keys _ _ _ nd' Hg).
  repeat split; auto.
  intros key0 nd0 Hg0. rewrite dict_get_set.
  destruct (H7 key0 nd0 Hg0) as (nd1 & Hg1 & Hadv1).
  destruct (String.eqb key key0) eqn:E.
  - apply String.eqb_eq in E. subst key0.
    exists nd'. split; [reflexivity|].
    rewrite Hg in Hg1. injection Hg1 as <-.
    apply (advanced_trans _ _ _ Hadv1 Hadv).
  - exists nd1. auto.
Qed.

Lemma follows_rng (s0 s : NetworkSimulator.t) (r : SimulationRNG.t) :
  (SimulationRNG.used (rng s) <= SimulationRNG.used r)%Z ->
  follows s0 s -> follows s0 (set_rng r s).
Proof.
  intros Hu (H1 & H2 & H3 & H4 & H5 & H6 & H7).
  unfold follows. simpl. repeat split; auto. lia.
Qed.

Lemma follows_draw (s0 s : NetworkSimulator.t) :
  follows s0 s ->
  follows s0 (set_rng (final_state (SimulationRNG.u (rng s))) s).
Proof.
  intro H. apply follows_rng; [|exact H]. rewrite u_used. lia.
Qed.

Lemma follows_sample (s0 : NetworkSimulator.t) (range : Q * Q) :
  triple (follows s0) (sample range) (fun _ => follows s0) (follows s0).
Proof.
  destruct range as [lo hi]. apply triple_sample.
  - intros s x r Hs Hu. pose proof (follows_draw s0 s Hs) as H.
    rewrite Hu in H. exact H.
  - intros s e r Hs Hu. pose proof (follows_draw s0 s Hs) as H.
    rewrite Hu in H. exact H.
Qed.

Lemma follows_schedule (s0 s : NetworkSimulator.t) (evs : list Event) :
  follows s0 s -> follows s0 (set_schedule (seq_counter s + 1) evs s).
Proof.
  intros (H1 & H2 & H3 & H4 & H5 & H6 & H7).
  unfold follows. simpl. repeat split; auto. lia.
Qed.

Lemma follows_sample_schedule (s0 : NetworkSimulator.t) (range : Q * Q)
    (f : NetworkSimulator.t -> Q -> Q) (et : EType) (name : string) :
  triple (follows s0)
    (bind (sample range)
          (fun x => bind get (fun s => schedule (f s x) et name)))
    (fun _ => follows s0) (follows s0).
Proof.
  eapply triple_bind; [apply follows_sample|].
  intro x. eapply triple_bind; [apply triple_get|].
  intro s1. apply triple_schedule. intros s [Hs _].
  apply follows_schedule. exact Hs.
Qed.

Lemma follows_get_node (s0 : NetworkSimulator.t) (key : string) :
  triple (follows s0) (get_node key)
    (fun nd s => follows s0 s /\ dict_get (nodes s) key = Some nd)
    (follows s0).
Proof. apply triple_get_node. auto. Qed.

Lemma follows_admit_and_serve (s0 : NetworkSimulator.t) (key : string) :
  triple (follows s0) (admit_and_serve key)
         (fun _ => follows s0) (follows s0).
Proof.
  unfold admit_and_serve.
  eapply triple_bind; [apply follows_get_node|].
  intro fila. cbv beta.
  assert (Hadv : advanced fila (snd (Node.admit_ fila))).
  { unfold Node.admit_, advanced.
    destruct (_ <=? _)%Z; simpl; repeat split; lia. }
  destruct (Node.admit_ fila) as [admitted fila']. simpl in Hadv.
  eapply triple_bind with (R := fun _ => follows s0).
  { apply triple_put_node. intros s [Hs Hg].
    apply (follows_put_node s0 s key fila fila' Hg Hadv Hs). }
  intros ?. destruct admitted; [|apply triple_ret; auto].
  destruct (Node.n fila' <=? Node.c fila')%Z; [|apply triple_ret; auto].
  apply (follows_sample_schedule s0 _ (fun s x => (time s + x)%Q)).
Qed.

Lemma follows_on_arrival (s0 : NetworkSimulator.t) (key : string) :
  triple (follows s0) (on_arrival key) (fun _ => follows s0) (follows s0).
Proof.
  unfold on_arrival.
  eapply triple_bind with (R := fun _ => follows s0).
  { eapply triple_weaken with
      (P' := follows s0)
      (Q' := fun nd s => follows s0 s /\ dict_get (nodes s) key = Some nd)
      (E' := follows s0);
      [ apply follows_get_node | auto
      | intros a s [Hs _]; exact Hs | auto ]. }
  intro fila.
  eapply triple_bind with (R := fun _ => follows s0).
  { apply triple_modify. intros s (H1 & H2 & H3 & H4 & H5 & H6 & H7).
    unfold follows. simpl. repeat split; auto. lia. }
  intros ?.
  eapply triple_bind with (R := fun _ => follows s0).
  - destruct (Node.arrival_sampler fila) as [range|];
      [|apply triple_ret; auto].
    apply (follows_sample_schedule s0 _ (fun s x => (time s + x)%Q)).
  - intros ?. apply follows_admit_and_serve.
Qed.

Lemma follows_pick_destination (s0 : NetworkSimulator.t) (src : string) :
  triple (follows s0) (pick_destination src)
         (fun _ => follows s0) (follows s0).
Proof.
  intros s Hs. unfold pick_destination, bind, get, ret, rng_u.
  destruct (dict_get (routing_table s) src) as [[|entry rest]|];
    try exact Hs.
  pose proof (follows_draw s0 s Hs) as H.
  destruct (SimulationRNG.u (rng s)); exact H.
Qed.

Lemma follows_on_departure (s0 : NetworkSimulator.t) (key : string) :
  triple (follows s0) (on_departure key) (fun _ => follows s0) (follows s0).
Proof.
  unfold on_departure.
  eapply triple_bind; [apply follows_get_node|].
  intro fila. cbv beta.
  eapply triple_bind with (R := fun _ => follows s0).
  { apply triple_put_node. intros s [Hs Hg].
    apply (follows_put_node s0 s key fila _ Hg); [|exact Hs].
    unfold advanced, Node.finish_service_one. simpl. repeat split; lia. }
  intros ?.
  eapply triple_bind with (R := fun _ => follows s0).
  - destruct (_ <=? _)%Z; [|apply triple_ret; auto].
    apply (follows_sample_schedule s0 _ (fun s x => (time s + x)%Q)).
  - intros ?.
    eapply triple_bind; [apply follows_pick_destination|].
    intro dest_name. destruct (truthy dest_name) as [dest|].
    + apply follows_admit_and_serve.
    + apply triple_ret. auto.
Qed.

Lemma same_but_tempo_advanced (dt : Q) (nd nd' : Node.t) :
  nd' = nd \/ Node.add_time dt nd = Some nd' -> advanced nd nd'.
Proof.
  intros [-> | H]; [apply advanced_refl|].
  unfold Node.add_time in H.
  destruct (py_index (Node.tempo_estado nd) (Node.n nd)) as [pos|];
    [|discriminate].
  injection H as <-. unfold advanced. simpl.
  repeat split; try lia.
  generalize (nth pos (Node.tempo_estado nd) 0 + dt)%Q. intro v.
  generalize pos. induction (Node.tempo_estado nd) as [|x l IH];
    intros [|p]; simpl; auto.
Qed.

Lemma follows_update_time_stats (s0 : NetworkSimulator.t) (t_new : Q) :
  triple (follows s0) (update_time_stats t_new)
         (fun _ => follows s0) (follows s0).
Proof.
  intros s Hs.
  assert (Hall : forall nds ok,
             add_time_nodes (t_new - last_update_time s) (nodes s)
             = (nds, ok) ->
             follows s0 (set_nodes nds s)).
  { intros nds ok Ha. destruct Hs as (H1 & H2 & H3 & H4 & H5 & H6 & H7).
    unfold follows. simpl. repeat split; auto.
    - pose proof (add_time_nodes_keys (t_new - last_update_time s) (nodes s))
        as Hk. rewrite Ha in Hk. simpl in Hk. congruence.
    - intros key nd0 Hg0. destruct (H7 key nd0 Hg0) as (nd1 & Hg1 & Hadv1).
      assert (Hex : exists nd', dict_get nds key = Some nd').
      { assert (Hin : In key (map fst nds)).
        { pose proof (add_time_nodes_keys (t_new - last_update_time s)
                        (nodes s)) as Hk. rewrite Ha in Hk. simpl in Hk.
          rewrite Hk. clear - Hg1.
          induction (nodes s) as [|[k0 v0] d IH]; simpl in *; [discriminate|].
          destruct (String.eqb k0 key) eqn:E.
          - apply String.eqb_eq in E. left. exact E.
          - right. apply IH. exact Hg1. }
        clear - Hin. induction nds as [|[k0 v0] d IH]; simpl in *; [tauto|].
        destruct (String.eqb k0 key) eqn:E; [eexists; reflexivity|].
        destruct Hin as [-> | Hin]; [rewrite String.eqb_refl in E; discriminate|].
        apply IH. exact Hin. }
      destruct Hex as [nd' Hg'].
      destruct (add_time_nodes_get _ _ _ _ key nd' Ha Hg')
        as (nd2 & Hg2 & Hor & _).
      rewrite Hg1 in Hg2. injection Hg2 as <-.
      exists nd'. split; [exact Hg'|].
      apply (advanced_trans _ _ _ Hadv1).
      apply (same_but_tempo_advanced _ _ _ Hor). }
  unfold update_time_stats, bind, get, modify, ret, raise.
  destruct (Qltb 0 (t_new - last_update_time s)).
  - destruct (add_time_nodes _ (nodes s)) as [nds ok] eqn:Ha.
    specialize (Hall nds ok eq_refl).
    destruct ok; exact Hall.
  - exact Hs.
Qed.

Lemma follows_step (s0 : NetworkSimulator.t) :
  triple (follows s0) step (fun _ => follows s0) (follows s0).
Proof.
  unfold step.
  eapply triple_bind; [apply triple_get|].
  intro s1. cbv beta.
  destruct (heappop (events s1)) as [[ev rest]|];
    [|apply triple_raise; intros s [Hs _]; exact Hs].
  eapply triple_bind with (R := fun _ => follows s0).
  { apply triple_modify. intros s [Hs _]. exact Hs. }
  intros ?.
  eapply triple_bind; [apply follows_update_time_stats|].
  intros ?.
  eapply triple_bind with (R := fun _ => follows s0).
  { apply triple_modify. intros s Hs. exact Hs. }
  intros ?.
  destruct (ev_etype ev);
    [apply follows_on_arrival | apply follows_on_departure].
Qed.

Lemma follows_first_arrivals (s0 : NetworkSimulator.t)
    (items : list (string * Node.t)) :
  triple (follows s0) (schedule_first_arrivals items)
         (fun _ => follows s0) (follows s0).
Proof.
  induction items as [|[name node] rest IH]; simpl.
  - apply triple_ret. auto.
  - eapply triple_bind with (R := fun _ => follows s0);
      [|intros ?; exact IH].
    destruct (Node.arrival_sampler node) as [range|];
      [|apply triple_ret; auto].
    eapply triple_bind; [apply follows_sample|].
    intro x. apply triple_schedule. intros s Hs.
    apply follows_schedule. exact Hs.
Qed.

(** A property kept by every part of [run], whether it returns or
    raises, holds in every state the run can be observed in. *)
Lemma reachable_invariant (I : NetworkSimulator.t -> Prop)
    (s0 : NetworkSimulator.t) :
  I s0 ->
  triple I (schedule_first_arrivals (nodes s0)) (fun _ => I) I ->
  triple I step (fun _ => I) I ->
  (forall t_new, triple I (update_time_stats t_new) (fun _ => I) I) ->
  forall s, reachable s0 s -> I s.
Proof.
  intros H0 Hfirst Hstep Hupd.
  assert (Hhead : forall s, at_loop_head s0 s -> I s).
  { intros s H. induction H as [s1 H1 | s s' Hh IH Hrun Hs].
    - pose proof (Hfirst s0 H0) as H. rewrite H1 in H. exact H.
    - pose proof (Hstep s IH) as H. rewrite Hs in H. exact H. }
  intros s H. destruct H as [ | e s1 H1 | s Hh | s e s' Hh Hrun Hs | s Hh Hrun ].
  - exact H0.
  - pose proof (Hfirst s0 H0) as H. rewrite H1 in H. exact H.
  - apply Hhead. exact Hh.
  - pose proof (Hstep s (Hhead s Hh)) as H. rewrite Hs in H. exact H.
  - pose proof (Hupd (time s) s (Hhead s Hh)) as H.
    destruct (update_time_stats (time s) s); exact H.
Qed.

(** In every state a run can be observed in, the routing table, the
    arrival target, the set and order of node names and every node
    definition (name, servers, capacity, samplers, length of the
    time-in-state vector) are those of the constructed simulator, and no
    served count, loss count, sequence counter, arrival counter or usage
    counter is below its starting value. *)
Theorem run_keeps_network_and_tallies :
  forall (s0 s : NetworkSimulator.t),
    reachable s0 s -> follows s0 s.
Proof.
  intros s0. apply reachable_invariant.
  - apply follows_refl.
  - apply follows_first_arrivals.
  - apply follows_step.
  - intro t_new. apply follows_update_time_stats.
Qed.

Lemma run_keeps_network_and_tallies_witness :
  reachable Sample.single_start Sample.single_end
  /\ follows Sample.single_start Sample.single_end.
Proof.
  assert (Hrun : run 10 Sample.single_start
                 = Some (Return (_get_results Sample.single_end)
                                Sample.single_end)).
  { vm_compute. reflexivity. }
  assert (Hr : reachable Sample.single_start Sample.single_end).
  { apply (run_completed_reachable _ _ _ _ Hrun). }
  split; [exact Hr|].
  apply (run_keeps_network_and_tallies _ _ Hr).
Defined.

(** ** The arrival counter and the end of the loop *)

Section LedgerFrame.
Variable L : Z * Z * list Event.

Let P (s : NetworkSimulator.t) : Prop := ledger s = L.

Lemma ledger_sample (range : Q * Q) :
  triple P (sample range) (fun _ => P) P.
Proof.
  destruct range as [lo hi]. apply triple_sample; intros; assumption.
Qed.

Lemma ledger_sample_schedule (range : Q * Q)
    (f : NetworkSimulator.t -> Q -> Q) (et : EType) (name : string) :
  triple P
    (bind (sample range)
          (fun x => bind get (fun s => schedule (f s x) et name)))
    (fun _ => P) P.
Proof.
  eapply triple_bind; [apply ledger_sample|].
  intro x. eapply triple_bind; [apply triple_get|].
  intro s1. apply triple_schedule. intros s [Hs _]. exact Hs.
Qed.

Lemma ledger_admit_and_serve (key : string) :
  triple P (admit_and_serve key) (fun _ => P) P.
Proof.
  unfold admit_and_serve.
  eapply triple_bind with (R := fun _ => P).
  { eapply triple_weaken with
      (P' := P)
      (Q' := fun nd s => P s /\ dict_get (nodes s) key = Some nd)
      (E' := P);
      [ apply triple_get_node; auto | auto
      | intros a s [Hs _]; exact Hs | auto ]. }
  intro fila. destruct (Node.admit_ fila) as [admitted fila'].
  eapply triple_bind with (R := fun _ => P).
  { apply triple_put_node. intros s Hs. exact Hs. }
  intros ?. destruct admitted; [|apply triple_ret; auto].
  destruct (Node.n fila' <=? Node.c fila')%Z; [|apply triple_ret; auto].
  apply (ledger_sample_schedule _ (fun s x => (time s + x)%Q)).
Qed.

Lemma ledger_pick_destination (src : string) :
  triple P (pick_destination src) (fun _ => P) P.
Proof.
  apply pick_destination_frame. intros s r Hs. exact Hs.
Qed.

Lemma ledger_on_departure (key : string) :
  triple P (on_departure key) (fun _ => P) P.
Proof.
  unfold on_departure.
  eapply triple_bind with (R := fun _ => P).
  { eapply triple_weaken with
      (P' := P)
      (Q' := fun nd s => P s /\ dict_get (nodes s) key = Some nd)
      (E' := P);
      [ apply triple_get_node; auto | auto
      | intros a s [Hs _]; exact Hs | auto ]. }
  intro fila.
  eapply triple_bind with (R := fun _ => P).
  { apply triple_put_node. intros s Hs. exact Hs. }
  intros ?.
  eapply triple_bind with (R := fun _ => P).
  - destruct (_ <=? _)%Z; [|apply triple_ret; auto].
    apply (ledger_sample_schedule _ (fun s x => (time s + x)%Q)).
  - intros ?.
    eapply triple_bind; [apply ledger_pick_destination|].
    intro dest_name. destruct (truthy dest_name) as [dest|].
    + apply ledger_admit_and_serve.
    + apply triple_ret. auto.
Qed.

Lemma ledger_update_time_stats (t_new : Q) :
  triple P (update_time_stats t_new) (fun _ => P) P.
Proof.
  intros s Hs. unfold update_time_stats, bind, get, modify, ret, raise.
  destruct (Qltb 0 (t_new - last_update_time s)); [|exact Hs].
  destruct (add_time_nodes _ (nodes s)) as [nds ok].
  destruct ok; exact Hs.
Qed.

Lemma ledger_first_arrivals (items : list (string * Node.t)) :
  triple P (schedule_first_arrivals items) (fun _ => P) P.
Proof.
  induction items as [|[name node] rest IH]; simpl.
  - apply triple_ret. auto.
  - eapply triple_bind with (R := fun _ => P); [|intros ?; exact IH].
    destruct (Node.arrival_sampler node) as [range|];
      [|apply triple_ret; auto].
    eapply triple_bind; [apply ledger_sample|].
    intro x. apply triple_schedule. intros s Hs. exact Hs.
Qed.
End LedgerFrame.

Lemma counted_ledger (pending : Z) (s s' : NetworkSimulator.t) :
  ledger s' = ledger s -> counted pending s -> counted pending s'.
Proof.
  unfold ledger, counted, arrivals_processed.
  intros [= Ht Hc Hp]. rewrite Ht, Hc, Hp. auto.
Qed.

(** An operation that leaves the ledger alone keeps [counted]. *)
Lemma counted_frame {A} (pending : Z) (c : M NetworkSimulator.t A) :
  (forall L, triple (fun s => ledger s = L) c
                    (fun _ s => ledger s = L) (fun s => ledger s = L)) ->
  triple (counted pending) c (fun _ => counted pending) (fun _ => True).
Proof.
  intros Hc s Hs. specialize (Hc (ledger s) s eq_refl).
  destruct (c s); [|exact I].
  apply (counted_ledger pending s _ Hc Hs).
Qed.

Lemma on_arrival_counted (key : string) :
  triple (counted 1) (on_arrival key) (fun _ => counted 0) (fun _ => True).
Proof.
  unfold on_arrival.
  eapply triple_bind with (R := fun _ => counted 1).
  { eapply triple_weaken with
      (P' := counted 1)
      (Q' := fun nd s => counted 1 s /\ dict_get (nodes s) key = Some nd)
      (E' := fun _ => True);
      [ apply triple_get_node; auto | auto
      | intros a s [Hs _]; exact Hs | auto ]. }
  intro fila.
  eapply triple_bind with (R := fun _ => counted 0).
  { apply triple_modify. intros s (H1 & H2 & H3).
    unfold counted, arrivals_processed in *. simpl.
    split; [lia|]. split; [intro Hpos; specialize (H2 Hpos); lia|].
    intro Hneg. destruct (H3 Hneg) as [Hc Hp]. rewrite Hp in H1.
    simpl in H1. lia. }
  intros ?.
  eapply triple_bind with (R := fun _ => counted 0).
  - destruct (Node.arrival_sampler fila) as [range|];
      [|apply triple_ret; auto].
    apply counted_frame. intro L.
    apply (ledger_sample_schedule L _ (fun s x => (time s + x)%Q)).
  - intros ?. apply counted_frame. intro L. apply ledger_admit_and_serve.
Qed.

Lemma step_counted :
  triple (fun s => counted 0 s /\ running s = true) step
         (fun _ => counted 0) (fun _ => True).
Proof.
  unfold step.
  eapply triple_bind; [apply triple_get|].
  intro s1. cbv beta.
  destruct (heappop (events s1)) as [[ev rest]|];
    [|apply triple_raise; auto].
  eapply triple_bind with
    (R := fun _ => counted (if is_arrival ev then 1 else 0)).
  { apply triple_modify. intros s [[(H1 & H2 & H3) Hrun] _].
    unfold counted, arrivals_processed in *. simpl.
    rewrite filter_app, length_app. simpl.
    unfold running in Hrun.
    destruct (events s) as [|e0 evs]; [discriminate|].
    apply orb_true_iff in Hrun.
    assert (Hroom : (total_arrivals_target s = 0
                     \/ total_arrivals_count s < total_arrivals_target s)%Z).
    { destruct Hrun as [H|H]; [left; apply Z.eqb_eq | right; apply Z.ltb_lt];
        exact H. }
    destruct (is_arrival ev); simpl.
    - split; [lia|]. split; [lia|].
      intro Hneg. exfalso. destruct (H3 Hneg) as [Hc _]. lia.
    - split; [lia|]. split; [intro Hpos; specialize (H2 Hpos); lia|].
      intro Hneg. exfalso. destruct (H3 Hneg) as [Hc _]. lia. }
  intros ?.
  eapply triple_bind with
    (R := fun _ => counted (if is_arrival ev then 1 else 0)).
  { apply counted_frame. intro L. apply ledger_update_time_stats. }
  intros ?.
  eapply triple_bind with
    (R := fun _ => counted (if is_arrival ev then 1 else 0)).
  { apply triple_modify. intros s Hs. revert Hs.
    apply counted_ledger. reflexivity. }
  intros ?. unfold is_arrival.
  destruct (ev_etype ev).
  - apply on_arrival_counted.
  - apply counted_frame. intro L. apply ledger_on_departure.
Qed.

Lemma update_time_stats_events (s : NetworkSimulator.t) (t_new : Q) :
  events (final_state (update_time_stats t_new s)) = events s.
Proof.
  unfold update_time_stats, bind, get, modify, ret, raise.
  destruct (Qltb 0 (t_new - last_update_time s)); [|reflexivity].
  destruct (add_time_nodes _ (nodes s)) as [nds ok].
  destruct ok; reflexivity.
Qed.

Lemma init_counted (config : Config) (s : NetworkSimulator.t) :
  NetworkSimulator.init config = Ok s -> counted 0 s.
Proof.
  unfold NetworkSimulator.init.
  destruct (build_nodes (queues config) []); [|discriminate].
  intros [= <-]. unfold counted, arrivals_processed. simpl.
  repeat split; lia.
Qed.

Lemma at_loop_head_counted (s0 s : NetworkSimulator.t) :
  counted 0 s0 -> at_loop_head s0 s ->
  counted 0 s /\ total_arrivals_target s = total_arrivals_target s0.
Proof.
  intros H0 H. induction H as [s1 H1 | s s' Hhead IH Hrun Hstep].
  - pose proof (ledger_first_arrivals (ledger s0) (nodes s0) s0 eq_refl) as H.
    rewrite H1 in H. split.
    + apply (counted_ledger 0 s0 s1 H H0).
    + unfold ledger in H. congruence.
  - destruct IH as [IHc IHt].
    pose proof (step_counted s (conj IHc Hrun)) as H.
    rewrite Hstep in H. split; [exact H|].
    pose proof (follows_step s s (follows_refl s)) as Hf.
    rewrite Hstep in Hf. destruct Hf as (_ & Ht & _). congruence.
Qed.

(** A completed run reports as external arrivals the number of ARRIVAL
    events it processed. With a positive target it never counts more than
    the target, and it stops either on reaching the target or on an empty
    event heap; with no target (0) it stops only on an empty heap; with a
    negative target it processes nothing at all. *)
Theorem arrival_counter_bounds :
  forall (config : Config) (s0 : NetworkSimulator.t) (fuel : nat)
         (res : Results) (sf : NetworkSimulator.t),
    NetworkSimulator.init config = Ok s0 ->
    run fuel s0 = Some (Return res sf) ->
    chegadas_totais res = arrivals_processed sf
    /\ total_arrivals_count sf = arrivals_processed sf
    /\ ((0 < total_arrivals_target s0)%Z ->
        (total_arrivals_count sf <= total_arrivals_target s0)%Z
        /\ (total_arrivals_count sf = total_arrivals_target s0
            \/ events sf = []))
    /\ (total_arrivals_target s0 = 0%Z -> events sf = [])
    /\ ((total_arrivals_target s0 < 0)%Z ->
        total_arrivals_count sf = 0%Z /\ processed sf = []).
Proof.
  intros config s0 fuel res sf Hi Hrun.
  destruct (run_completed _ _ _ _ Hrun) as (s2 & Hhead & Hstop & Hu & ->).
  destruct (at_loop_head_counted s0 s2 (init_counted _ _ Hi) Hhead)
    as [(H1 & H2 & H3) Ht].
  pose proof (ledger_update_time_stats (ledger s2) (time s2) s2 eq_refl) as HL.
  rewrite Hu in HL. unfold ledger in HL. injection HL as HLt HLc HLp.
  pose proof (update_time_stats_events s2 (time s2)) as Hev.
  rewrite Hu in Hev. simpl in Hev.
  unfold arrivals_processed in *. simpl. rewrite HLc, HLp, Hev.
  rewrite Ht in *.
  assert (Hend : events s2 = []
                 \/ (total_arrivals_target s0 <> 0
                     /\ total_arrivals_target s0 <= total_arrivals_count s2)%Z).
  { unfold running in Hstop. destruct (events s2); [left; reflexivity|].
    right. apply orb_false_iff in Hstop. destruct Hstop as [Ha Hb].
    rewrite Ht in Ha, Hb.
    apply Z.eqb_neq in Ha. apply Z.ltb_ge in Hb. auto. }
  split; [lia|]. split; [lia|]. split; [|split].
  - intro Hpos. specialize (H2 Hpos). split; [lia|].
    destruct Hend as [He | [_ Hge]]; [right; exact He | left; lia].
  - intro Hzero. destruct Hend as [He | [Hne _]]; [exact He | contradiction].
  - exact H3.
Qed.

Lemma arrival_counter_bounds_witness :
  NetworkSimulator.init (Scenario.single 7) = Ok Sample.single_start
  /\ run 10 Sample.single_start
     = Some (Return (_get_results Sample.single_end) Sample.single_end)
  /\ total_arrivals_count Sample.single_end
     = arrivals_processed Sample.single_end.
Proof.
  assert (Hi : NetworkSimulator.init (Scenario.single 7)
               = Ok Sample.single_start).
  { vm_compute. reflexivity. }
  assert (Hrun : run 10 Sample.single_start
                 = Some (Return (_get_results Sample.single_end)
                                Sample.single_end)).
  { vm_compute. reflexivity. }
  split; [exact Hi|]. split; [exact Hrun|].
  apply (proj1 (proj2 (arrival_counter_bounds (Scenario.single 7)
                         Sample.single_start 10%nat
                         (_get_results Sample.single_end)
                         Sample.single_end Hi Hrun))).
Defined.

(** ** The event order and the heap *)

Lemma event_ltb_spec (x y : Event) :
  event_ltb x y = true <-> event_lt x y.
Proof.
  unfold event_ltb, event_lt, etype_lt.
  rewrite orb_true_iff, andb_true_iff, orb_true_iff, andb_true_iff.
  rewrite Qltb_lt, Qeq_bool_iff, Z.ltb_lt, Z.eqb_eq.
  assert (He : etype_ltb (ev_etype x) (ev_etype y) = true
               <-> ev_etype x = ARRIVAL /\ ev_etype y = DEPARTURE).
  { destruct (ev_etype x), (ev_etype y); simpl; split;
      try discriminate; try tauto; intros [? ?]; discriminate. }
  rewrite He. tauto.
Qed.

Lemma event_ltb_false_spec (x y : Event) :
  event_ltb x y = false <-> ~ event_lt x y.
Proof.
  rewrite <- event_ltb_spec. destruct (event_ltb x y).
  - split; [discriminate | intro H; exfalso; apply H; reflexivity].
  - split; [intros _; discriminate | reflexivity].
Qed.

Lemma event_lt_irrefl (x : Event) : ~ event_lt x x.
Proof.
  unfold event_lt, etype_lt.
  intros [H | [_ [H | [_ [H1 H2]]]]].
  - apply (Qlt_irrefl _ H).
  - lia.
  - congruence.
Qed.

Lemma event_lt_trans (x y z : Event) :
  event_lt x y -> event_lt y z -> event_lt x z.
Proof.
  unfold event_lt, etype_lt.
  intros [H1 | [E1 H1]] [H2 | [E2 H2]].
  - left. lra.
  - left. lra.
  - left. lra.
  - right. split; [lra|].
    destruct H1 as [H1 | [S1 [A1 B1]]], H2 as [H2 | [S2 [A2 B2]]].
    + left. lia.
    + left. lia.
    + left. lia.
    + congruence.
Qed.

Lemma event_lt_total (x y : Event) :
  ev_seq x <> ev_seq y -> event_lt x y \/ event_lt y x.
Proof.
  intro Hne. unfold event_lt.
  destruct (Q_dec (ev_time x) (ev_time y)) as [[H | H] | H].
  - left. left. exact H.
  - right. left. exact H.
  - assert (Hs : (ev_seq x < ev_seq y \/ ev_seq y < ev_seq x)%Z) by lia.
    destruct Hs as [Hs | Hs].
    + left. right. split; [exact H | left; exact Hs].
    + right. right. split; [symmetry; exact H | left; exact Hs].
Qed.

(** If [x] is below [z], anything else is above [x] or below [z]. *)
Lemma event_lt_cotrans (x y z : Event) :
  event_lt x z -> event_lt x y \/ event_lt y z.
Proof.
  unfold event_lt, etype_lt. intro Hxz.
  destruct (Q_dec (ev_time x) (ev_time y)) as [[H | H] | H].
  - left. left. exact H.
  - right. left. destruct Hxz as [Hxz | [Hxz _]]; lra.
  - destruct Hxz as [Hxz | [Exz Hxz]].
    + right. left. lra.
    + assert (Eyz : (ev_time y == ev_time z)%Q) by lra.
      destruct (Z.lt_trichotomy (ev_seq x) (ev_seq y)) as [Hs | [Hs | Hs]].
      * left. right. split; [exact H | left; exact Hs].
      * destruct Hxz as [Hxz | [Sxz [Ax Bz]]].
        -- right. right. split; [exact Eyz | left; lia].
        -- destruct (ev_etype y) eqn:Ey.
           ++ right. right. split; [exact Eyz|]. right.
              split; [lia | split; [reflexivity | exact Bz]].
           ++ left. right. split; [exact H|]. right.
              split; [exact Hs | split; [exact Ax | reflexivity]].
      * right. right. split; [exact Eyz|].
        destruct Hxz as [Hxz | [Sxz _]]; left; lia.
Qed.

Lemma pop_least_no_smaller (e : Event) (rest : list Event) :
  forall least r,
    pop_least e rest = (least, r) ->
    ~ event_lt e least /\ forall x, In x rest -> ~ event_lt x least.
Proof.
  revert e. induction rest as [|y ys IH]; intros e least r; simpl.
  - intros [= <- <-]. split; [apply event_lt_irrefl | intros x []].
  - destruct (event_ltb y e) eqn:Hlt.
    + apply event_ltb_spec in Hlt.
      destruct (pop_least y ys) as [m r0] eqn:Hp. intros [= <- <-].
      destruct (IH y m r0 Hp) as [Hy Hys].
      split.
      * intro Hem. apply Hy. apply (event_lt_trans _ _ _ Hlt Hem).
      * intros x [<- | Hin]; [exact Hy | apply Hys; exact Hin].
    + apply event_ltb_false_spec in Hlt.
      destruct (pop_least e ys) as [m r0] eqn:Hp. intros [= <- <-].
      destruct (IH e m r0 Hp) as [He Hys].
      split; [exact He|].
      intros x [<- | Hin]; [|apply Hys; exact Hin].
      intro Hym. destruct (event_lt_cotrans _ e _ Hym) as [H | H]; tauto.
Qed.

Lemma nodup_map_injective {A B} (f : A -> B) (l : list A) (x y : A) :
  NoDup (map f l) -> In x l -> In y l -> f x = f y -> x = y.
Proof.
  induction l as [|a l IH]; simpl; [tauto|].
  intros Hnd Hx Hy Hf. inversion Hnd as [|b m Hnotin Hnd']; subst.
  destruct Hx as [<- | Hx], Hy as [<- | Hy].
  - reflexivity.
  - exfalso. apply Hnotin. rewrite Hf. apply in_map. exact Hy.
  - exfalso. apply Hnotin. rewrite <- Hf. apply in_map. exact Hx.
  - apply (IH Hnd' Hx Hy Hf).
Qed.

Lemma heappop_min (h : list Event) (ev : Event) (rest : list Event) :
  heappop h = Some (ev, rest) ->
  Permutation h (ev :: rest)
  /\ (forall x, In x rest -> ~ event_lt x ev).
Proof.
  destruct h as [|e l]; [discriminate|]. simpl.
  intros [= Hp]. pose proof (pop_least_perm e l _ _ Hp) as Hperm.
  split; [exact Hperm|].
  destruct (pop_least_no_smaller e l _ _ Hp) as [He Hl].
  intros x Hx.
  assert (Hin : In x (e :: l)).
  { apply (Permutation_in _ (Permutation_sym Hperm)). right. exact Hx. }
  destruct Hin as [<- | Hin]; [exact He | apply Hl; exact Hin].
Qed.

Lemma heappop_strict (h : list Event) (ev : Event) (rest : list Event) :
  heappop h = Some (ev, rest) ->
  NoDup (map ev_seq h) ->
  forall x, In x rest -> event_lt ev x.
Proof.
  intros Hpop Hnd x Hx.
  destruct (heappop_min h ev rest Hpop) as [Hperm Hmin].
  assert (Hnd' : NoDup (map ev_seq (ev :: rest))).
  { apply (Permutation_NoDup (Permutation_map ev_seq Hperm) Hnd). }
  simpl in Hnd'. inversion Hnd' as [|b m Hnotin _]; subst.
  assert (Hne : ev_seq ev <> ev_seq x).
  { intro Heq. apply Hnotin. rewrite Heq. apply in_map. exact Hx. }
  destruct (event_lt_total ev x Hne) as [H | H]; [exact H|].
  exfalso. apply (Hmin x Hx H).
Qed.

(** [heappop] takes out an event of the heap that no other event of the
    heap precedes in the dataclass order; the rest is the heap without
    it. When the sequence numbers in the heap are pairwise distinct the
    popped event strictly precedes all the others, events with the same
    time leave in the order they were scheduled, and the popped event does
    not depend on how the heap is laid out. *)
Theorem heappop_takes_the_least :
  (forall h ev rest,
      heappop h = Some (ev, rest) ->
      Permutation h (ev :: rest)
      /\ (forall x, In x rest -> ~ event_lt x ev))
  /\ (forall h ev rest,
        heappop h = Some (ev, rest) ->
        NoDup (map ev_seq h) ->
        forall x, In x rest ->
          event_lt ev x
          /\ ((ev_time x == ev_time ev)%Q -> (ev_seq ev < ev_seq x)%Z))
  /\ (forall h h' ev rest ev' rest',
        Permutation h h' ->
        NoDup (map ev_seq h) ->
        heappop h = Some (ev, rest) ->
        heappop h' = Some (ev', rest') ->
        ev = ev' /\ Permutation rest rest')
  /\ (forall h, heappop h = None <-> h = []).
Proof.
  pose proof heappop_min as Hbase.
  pose proof heappop_strict as Hstrict.
  split; [exact Hbase|]. split; [|split].
  - intros h ev rest Hpop Hnd x Hx.
    pose proof (Hstrict h ev rest Hpop Hnd x Hx) as Hlt.
    split; [exact Hlt|]. intro Heq.
    destruct Hlt as [H | [_ [H | [Hs _]]]].
    + exfalso. lra.
    + exact H.
    + exfalso.
      destruct (Hbase h ev rest Hpop) as [Hperm _].
      assert (Hnd' : NoDup (map ev_seq (ev :: rest))).
      { apply (Permutation_NoDup (Permutation_map ev_seq Hperm) Hnd). }
      simpl in Hnd'. inversion Hnd' as [|b m Hnotin _]; subst.
      apply Hnotin. rewrite Hs. apply in_map. exact Hx.
  - intros h h' ev rest ev' rest' Hperm Hnd Hpop Hpop'.
    destruct (Hbase h ev rest Hpop) as [Hp Hmin].
    destruct (Hbase h' ev' rest' Hpop') as [Hp' Hmin'].
    assert (Hnd' : NoDup (map ev_seq h')).
    { apply (Permutation_NoDup (Permutation_map ev_seq Hperm) Hnd). }
    assert (Hall : Permutation (ev :: rest) (ev' :: rest')).
    { apply (perm_trans (Permutation_sym Hp)).
      apply (perm_trans Hperm Hp'). }
    assert (Heq : ev = ev').
    { assert (Hin : In ev (ev' :: rest')).
      { apply (Permutation_in _ Hall). left. reflexivity. }
      destruct Hin as [H | Hin]; [symmetry; exact H|].
      exfalso.
      pose proof (Hstrict h' ev' rest' Hpop' Hnd' ev Hin) as Hlt.
      assert (Hin' : In ev' (ev :: rest)).
      { apply (Permutation_in _ (Permutation_sym Hall)). left. reflexivity. }
      destruct Hin' as [H | Hin'].
      - subst ev'. apply (event_lt_irrefl _ Hlt).
      - apply (Hmin ev' Hin' Hlt). }
    split; [exact Heq|]. subst ev'.
    apply (Permutation_cons_inv Hall).
  - intro h. destruct h as [|e l]; simpl.
    + split; reflexivity.
    + destruct (pop_least e l). split; discriminate.
Qed.

Lemma heappop_takes_the_least_witness :
  heappop [mkEvent 2 1 ARRIVAL "a"; mkEvent 1 3 DEPARTURE "b";
           mkEvent 1 2 ARRIVAL "c"]
  = Some (mkEvent 1 2 ARRIVAL "c",
          [mkEvent 2 1 ARRIVAL "a"; mkEvent 1 3 DEPARTURE "b"])
  /\ NoDup (map ev_seq [mkEvent 2 1 ARRIVAL "a"; mkEvent 1 3 DEPARTURE "b";
                        mkEvent 1 2 ARRIVAL "c"])
  /\ In (mkEvent 1 3 DEPARTURE "b")
        [mkEvent 2 1 ARRIVAL "a"; mkEvent 1 3 DEPARTURE "b"]
  /\ event_lt (mkEvent 1 2 ARRIVAL "c") (mkEvent 1 3 DEPARTURE "b").
Proof.
  assert (Hpop : heappop [mkEvent 2 1 ARRIVAL "a"; mkEvent 1 3 DEPARTURE "b";
                          mkEvent 1 2 ARRIVAL "c"]
                 = Some (mkEvent 1 2 ARRIVAL "c",
                         [mkEvent 2 1 ARRIVAL "a"; mkEvent 1 3 DEPARTURE "b"])).
  { vm_compute. reflexivity. }
  assert (Hnd : NoDup (map ev_seq [mkEvent 2 1 ARRIVAL "a";
                                   mkEvent 1 3 DEPARTURE "b";
                                   mkEvent 1 2 ARRIVAL "c"])).
  { simpl. repeat constructor; simpl; intuition discriminate. }
  assert (Hin : In (mkEvent 1 3 DEPARTURE "b")
                   [mkEvent 2 1 ARRIVAL "a"; mkEvent 1 3 DEPARTURE "b"]).
  { right. left. reflexivity. }
  split; [exact Hpop|]. split; [exact Hnd|]. split; [exact Hin|].
  apply (proj1 (proj1 (proj2 heappop_takes_the_least) _ _ _ Hpop Hnd _ Hin)).
Defined.

(** ** Sequence numbers *)

(** A property of the simulator that the writes of the engine keep is kept
    by every operation of a run, whether the operation returns or raises. *)
Section EngineInvariant.
Variable I : NetworkSimulator.t -> Prop.
Hypothesis I_rng : forall s r, I s -> I (set_rng r s).
Hypothesis I_nodes : forall s nds, I s -> I (set_nodes nds s).
Hypothesis I_count : forall s v, I s -> I (set_total_arrivals_count v s).
Hypothesis I_time : forall s v, I s -> I (set_time v s).
Hypothesis I_last : forall s v, I s -> I (set_last_update_time v s).
Hypothesis I_schedule : forall s tm et name,
  I s ->
  I (set_schedule (seq_counter s + 1)
       (heappush (events s) (mkEvent tm (seq_counter s + 1) et name)) s).
Hypothesis I_pop : forall s ev rest,
  I s -> heappop (events s) = Some (ev, rest) -> I (set_popped ev rest s).

Lemma inv_sample (range : Q * Q) :
  triple I (sample range) (fun _ => I) I.
Proof.
  destruct range as [lo hi]. apply triple_sample; intros; apply I_rng;
    assumption.
Qed.

Lemma inv_sample_schedule (range : Q * Q)
    (f : NetworkSimulator.t -> Q -> Q) (et : EType) (name : string) :
  triple I
    (bind (sample range)
          (fun x => bind get (fun s => schedule (f s x) et name)))
    (fun _ => I) I.
Proof.
  eapply triple_bind; [apply inv_sample|].
  intro x. eapply triple_bind; [apply triple_get|].
  intro s1. apply triple_schedule. intros s [Hs _]. apply I_schedule.
  exact Hs.
Qed.

Lemma inv_get_node (key : string) :
  triple I (get_node key) (fun _ => I) I.
Proof.
  eapply triple_weaken with
    (P' := I)
    (Q' := fun nd s => I s /\ dict_get (nodes s) key = Some nd)
    (E' := I);
    [ apply triple_get_node; auto | auto
    | intros a s [Hs _]; exact Hs | auto ].
Qed.

Lemma inv_admit_and_serve (key : string) :
  triple I (admit_and_serve key) (fun _ => I) I.
Proof.
  unfold admit_and_serve.
  eapply triple_bind with (R := fun _ => I); [apply inv_get_node|].
  intro fila. destruct (Node.admit_ fila) as [admitted fila'].
  eapply triple_bind with (R := fun _ => I).
  { apply triple_put_node. intros s Hs. apply I_nodes. exact Hs. }
  intros ?. destruct admitted; [|apply triple_ret; auto].
  destruct (Node.n fila' <=? Node.c fila')%Z; [|apply triple_ret; auto].
  apply (inv_sample_schedule _ (fun s x => (time s + x)%Q)).
Qed.

Lemma inv_on_arrival (key : string) :
  triple I (on_arrival key) (fun _ => I) I.
Proof.
  unfold on_arrival.
  eapply triple_bind with (R := fun _ => I); [apply inv_get_node|].
  intro fila.
  eapply triple_bind with (R := fun _ => I).
  { apply triple_modify. intros s Hs. apply I_count. exact Hs. }
  intros ?.
  eapply triple_bind with (R := fun _ => I).
  - destruct (Node.arrival_sampler fila) as [range|];
      [|apply triple_ret; auto].
    apply (inv_sample_schedule _ (fun s x => (time s + x)%Q)).
  - intros ?. apply inv_admit_and_serve.
Qed.

Lemma inv_on_departure (key : string) :
  triple I (on_departure key) (fun _ => I) I.
Proof.
  unfold on_departure.
  eapply triple_bind with (R := fun _ => I); [apply inv_get_node|].
  intro fila.
  eapply triple_bind with (R := fun _ => I).
  { apply triple_put_node. intros s Hs. apply I_nodes. exact Hs. }
  intros ?.
  eapply triple_bind with (R := fun _ => I).
  - destruct (_ <=? _)%Z; [|apply triple_ret; auto].
    apply (inv_sample_schedule _ (fun s x => (time s + x)%Q)).
  - intros ?.
    eapply triple_bind; [apply pick_destination_frame; exact I_rng|].
    intro dest_name. destruct (truthy dest_name) as [dest|].
    + apply inv_admit_and_serve.
    + apply triple_ret. auto.
Qed.

Lemma inv_update_time_stats (t_new : Q) :
  triple I (update_time_stats t_new) (fun _ => I) I.
Proof.
  intros s Hs. unfold update_time_stats, bind, get, modify, ret, raise.
  destruct (Qltb 0 (t_new - last_update_time s)).
  - destruct (add_time_nodes _ (nodes s)) as [nds ok].
    destruct ok; [apply I_last|]; apply I_nodes; exact Hs.
  - apply I_last. exact Hs.
Qed.

Lemma inv_step : triple I step (fun _ => I) I.
Proof.
  unfold step.
  eapply triple_bind; [apply triple_get|].
  intro s1. cbv beta.
  destruct (heappop (events s1)) as [[ev rest]|] eqn:Hpop;
    [|apply triple_raise; intros s [Hs _]; exact Hs].
  eapply triple_bind with (R := fun _ => I).
  { apply triple_modify. intros s [Hs <-]. apply (I_pop _ _ _ Hs Hpop). }
  intros ?.
  eapply triple_bind with (R := fun _ => I);
    [apply inv_update_time_stats|].
  intros ?.
  eapply triple_bind with (R := fun _ => I).
  { apply triple_modify. intros s Hs. apply I_time. exact Hs. }
  intros ?. destruct (ev_etype ev).
  - apply inv_on_arrival.
  - apply inv_on_departure.
Qed.

Lemma inv_first_arrivals (items : list (string * Node.t)) :
  triple I (schedule_first_arrivals items) (fun _ => I) I.
Proof.
  induction items as [|[name node] rest IH]; simpl.
  - apply triple_ret. auto.
  - eapply triple_bind with (R := fun _ => I); [|intros ?; exact IH].
    destruct (Node.arrival_sampler node) as [range|];
      [|apply triple_ret; auto].
    eapply triple_bind; [apply inv_sample|].
    intro x. apply triple_schedule. intros s Hs. apply I_schedule. exact Hs.
Qed.

Lemma inv_reachable (s0 : NetworkSimulator.t) :
  I s0 -> forall s, reachable s0 s -> I s.
Proof.
  intro H0. apply reachable_invariant.
  - exact H0.
  - apply inv_first_arrivals.
  - apply inv_step.
  - apply inv_update_time_stats.
Qed.
End EngineInvariant.

Lemma seq_numbers_succ (n : Z) :
  (0 <= n)%Z -> seq_numbers (n + 1) = seq_numbers n ++ [(n + 1)%Z].
Proof.
  intro Hn. unfold seq_numbers.
  replace (Z.to_nat (n + 1)) with (S (Z.to_nat n)) by lia.
  rewrite seq_S, map_app. simpl. f_equal. f_equal. lia.
Qed.

Lemma seq_numbers_in (n x : Z) :
  In x (seq_numbers n) <-> (1 <= x <= n)%Z.
Proof.
  unfold seq_numbers. rewrite in_map_iff. split.
  - intros (k & <- & Hk). apply in_seq in Hk. lia.
  - intro Hx. exists (Z.to_nat x). split; [lia|]. apply in_seq. lia.
Qed.

Lemma seq_numbers_nodup (n : Z) : NoDup (seq_numbers n).
Proof.
  unfold seq_numbers. apply Finite.Injective_map_NoDup.
  - intros x y. apply Nat2Z.inj.
  - apply seq_NoDup.
Qed.

Lemma fresh_seqs_schedule (s : NetworkSimulator.t) (tm : Q) (et : EType)
    (name : string) :
  fresh_seqs s ->
  fresh_seqs
    (set_schedule (seq_counter s + 1)
       (heappush (events s) (mkEvent tm (seq_counter s + 1) et name)) s).
Proof.
  intros [H0 Hp]. unfold fresh_seqs, heappush. simpl.
  split; [lia|].
  rewrite app_assoc, map_app, (seq_numbers_succ _ H0). simpl.
  apply Permutation_app_tail. exact Hp.
Qed.

Lemma fresh_seqs_pop (s : NetworkSimulator.t) (ev : Event)
    (rest : list Event) :
  fresh_seqs s -> heappop (events s) = Some (ev, rest) ->
  fresh_seqs (set_popped ev rest s).
Proof.
  intros [H0 Hp] Hpop. unfold fresh_seqs. simpl.
  split; [exact H0|].
  destruct (heappop_min _ _ _ Hpop) as [Hperm _].
  apply (perm_trans (l' := map ev_seq (processed s ++ events s)));
    [|exact Hp].
  apply Permutation_map. rewrite <- app_assoc. simpl.
  apply Permutation_app_head. apply Permutation_sym. exact Hperm.
Qed.

Lemma fresh_seqs_reachable (s0 s : NetworkSimulator.t) :
  fresh_seqs s0 -> reachable s0 s -> fresh_seqs s.
Proof.
  intro H0. revert s.
  apply (inv_reachable fresh_seqs); try (intros; assumption).
  - intros s1 tm et name. apply fresh_seqs_schedule.
  - apply fresh_seqs_pop.
Qed.

Lemma init_fresh_seqs (config : Config) (s : NetworkSimulator.t) :
  NetworkSimulator.init config = Ok s -> fresh_seqs s.
Proof.
  unfold NetworkSimulator.init.
  destruct (build_nodes (queues config) []); [|discriminate].
  intros [= <-]. unfold fresh_seqs. simpl. split; [lia | constructor].
Qed.

(** In every state a run of a constructed simulator can be observed in,
    the events processed so far and the events waiting in the heap carry,
    between them, the sequence numbers [1 .. seq_counter], each exactly
    once: every scheduled event is processed or still waiting, none is
    lost or duplicated. So the events in the heap have pairwise distinct
    sequence numbers, and the next event popped strictly precedes, in the
    dataclass order, every event that stays behind. *)
Theorem sequence_numbers_handed_out_once :
  forall (config : Config) (s0 s : NetworkSimulator.t),
    NetworkSimulator.init config = Ok s0 ->
    reachable s0 s ->
    Permutation (map ev_seq (processed s ++ events s))
                (seq_numbers (seq_counter s))
    /\ Z.of_nat (List.length (processed s) + List.length (events s))
       = seq_counter s
    /\ NoDup (map ev_seq (events s))
    /\ (forall e, In e (processed s ++ events s) ->
                  (1 <= ev_seq e <= seq_counter s)%Z)
    /\ (forall ev rest,
          heappop (events s) = Some (ev, rest) ->
          forall x, In x rest -> event_lt ev x).
Proof.
  intros config s0 s Hi Hr.
  destruct (fresh_seqs_reachable s0 s (init_fresh_seqs _ _ Hi) Hr)
    as [H0 Hp].
  assert (Hnd : NoDup (map ev_seq (processed s ++ events s))).
  { apply (Permutation_NoDup (Permutation_sym Hp)).
    apply seq_numbers_nodup. }
  assert (Hnd' : NoDup (map ev_seq (events s))).
  { rewrite map_app in Hnd. apply (NoDup_app_remove_l _ _ Hnd). }
  split; [exact Hp|]. split; [|split; [exact Hnd'|split]].
  - pose proof (Permutation_length Hp) as Hl.
    unfold seq_numbers in Hl.
    rewrite !length_map, length_app, length_seq in Hl. lia.
  - intros e Hin. apply seq_numbers_in.
    apply (Permutation_in _ Hp). apply in_map. exact Hin.
  - intros ev rest Hpop x Hx.
    apply (heappop_strict _ _ _ Hpop Hnd' x Hx).
Qed.

Lemma sequence_numbers_handed_out_once_witness :
  NetworkSimulator.init (Scenario.single 7) = Ok Sample.single_start
  /\ reachable Sample.single_start Sample.single_end
  /\ Z.of_nat (List.length (processed Sample.single_end)
               + List.length (events Sample.single_end))
     = seq_counter Sample.single_end.
Proof.
  assert (Hi : NetworkSimulator.init (Scenario.single 7)
               = Ok Sample.single_start).
  { vm_compute. reflexivity. }
  assert (Hrun : run 10 Sample.single_start
                 = Some (Return (_get_results Sample.single_end)
                                Sample.single_end)).
  { vm_compute. reflexivity. }
  assert (Hr : reachable Sample.single_start Sample.single_end).
  { apply (run_completed_reachable _ _ _ _ Hrun). }
  split; [exact Hi|]. split; [exact Hr|].
  apply (proj1 (proj2 (sequence_numbers_handed_out_once
                         (Scenario.single 7) Sample.single_start
                         Sample.single_end Hi Hr))).
Defined.

(** ** Reproducibility: the layout of the heap does not matter *)

Lemma set_events_twice (a b : list Event) (s : NetworkSimulator.t) :
  set_events a (set_events b s) = set_events a s.
Proof. reflexivity. Qed.

Lemma set_events_own (s : NetworkSimulator.t) : set_events (events s) s = s.
Proof. destruct s. reflexivity. Qed.

Lemma rebase_nil (s : NetworkSimulator.t) (evs : list Event) :
  rebase evs (set_events [] s) = set_events evs s.
Proof. unfold rebase. simpl. rewrite app_nil_r. reflexivity. Qed.

Lemma rebase_rebase (a b : list Event) (s : NetworkSimulator.t) :
  rebase a (rebase b s) = rebase (a ++ b) s.
Proof. unfold rebase. simpl. rewrite app_assoc. reflexivity. Qed.

Ltac same_but_events :=
  unfold rebase; simpl; rewrite ?app_nil_r; reflexivity.

Lemma oblivious_ret {A} (a : A) : heap_oblivious (ret a).
Proof. intros s evs. simpl. rewrite rebase_nil. reflexivity. Qed.

Lemma oblivious_raise {A} (e : exn) :
  heap_oblivious (raise e : M NetworkSimulator.t A).
Proof. intros s evs. simpl. rewrite rebase_nil. reflexivity. Qed.

Lemma oblivious_bind {A B} (c : M NetworkSimulator.t A)
    (f : A -> M NetworkSimulator.t B) :
  heap_oblivious c -> (forall a, heap_oblivious (f a)) ->
  heap_oblivious (bind c f).
Proof.
  intros Hc Hf s evs. unfold bind. rewrite (Hc s evs).
  destruct (c (set_events [] s)) as [a t0|e t0]; simpl; [|reflexivity].
  unfold rebase at 1. rewrite (Hf a t0 (evs ++ events t0)).
  rewrite <- (set_events_own t0) at 3. rewrite (Hf a t0 (events t0)).
  destruct (f a (set_events [] t0)) as [b t1|e t1]; simpl;
    rewrite rebase_rebase; reflexivity.
Qed.

(** Reading the state is harmless when what is read is not the heap. *)
Lemma oblivious_get_bind {A} (f : NetworkSimulator.t -> M NetworkSimulator.t A) :
  (forall s0, heap_oblivious (f s0)) ->
  (forall s evs x, f (set_events evs s) x = f (set_events [] s) x) ->
  heap_oblivious (bind get f).
Proof.
  intros Hf Hread s evs. unfold bind, get.
  rewrite (Hread s evs). apply Hf.
Qed.

Lemma oblivious_modify (g : NetworkSimulator.t -> NetworkSimulator.t) :
  (forall s evs, g (set_events evs s) = rebase evs (g (set_events [] s))) ->
  heap_oblivious (modify g).
Proof.
  intros Hg s evs. unfold modify, map_state. rewrite (Hg s evs).
  reflexivity.
Qed.

Lemma oblivious_rng_u : heap_oblivious rng_u.
Proof.
  intros s evs. unfold rng_u. simpl.
  destruct (SimulationRNG.u (rng s)); simpl; same_but_events.
Qed.

Lemma oblivious_sample (range : Q * Q) : heap_oblivious (sample range).
Proof.
  destruct range as [lo hi]. unfold sample.
  apply oblivious_bind; [apply oblivious_rng_u|].
  intro u. apply oblivious_ret.
Qed.

Lemma oblivious_get_node (key : string) : heap_oblivious (get_node key).
Proof.
  intros s evs. unfold get_node. simpl.
  destruct (dict_get (nodes s) key); simpl; same_but_events.
Qed.

Lemma oblivious_put_node (key : string) (nd : Node.t) :
  heap_oblivious (put_node key nd).
Proof.
  apply oblivious_modify. intros s evs. same_but_events.
Qed.

Lemma oblivious_schedule (tm : Q) (et : EType) (name : string) :
  heap_oblivious (schedule tm et name).
Proof. apply oblivious_modify. intros s evs. reflexivity. Qed.

Lemma oblivious_sample_schedule (range : Q * Q) (et : EType)
    (name : string) :
  heap_oblivious
    (bind (sample range)
          (fun x => bind get
                      (fun s => schedule (time s + x)%Q et name))).
Proof.
  apply oblivious_bind; [apply oblivious_sample|].
  intro x. apply oblivious_get_bind.
  - intro s0. apply oblivious_schedule.
  - intros s evs t0. reflexivity.
Qed.

Lemma oblivious_admit_and_serve (key : string) :
  heap_oblivious (admit_and_serve key).
Proof.
  unfold admit_and_serve.
  apply oblivious_bind; [apply oblivious_get_node|].
  intro fila. destruct (Node.admit_ fila) as [admitted fila'].
  apply oblivious_bind; [apply oblivious_put_node|].
  intros ?. destruct admitted; [|apply oblivious_ret].
  destruct (Node.n fila' <=? Node.c fila')%Z; [|apply oblivious_ret].
  apply oblivious_sample_schedule.
Qed.

Lemma oblivious_on_arrival (key : string) :
  heap_oblivious (on_arrival key).
Proof.
  unfold on_arrival.
  apply oblivious_bind; [apply oblivious_get_node|].
  intro fila.
  apply oblivious_bind.
  { apply oblivious_modify. intros s evs. same_but_events. }
  intros ?.
  apply oblivious_bind; [|intros ?; apply oblivious_admit_and_serve].
  destruct (Node.arrival_sampler fila) as [range|]; [|apply oblivious_ret].
  apply oblivious_sample_schedule.
Qed.

Lemma oblivious_pick_destination (src : string) :
  heap_oblivious (pick_destination src).
Proof.
  intros s evs. unfold pick_destination, bind, get, ret, rng_u. simpl.
  destruct (dict_get (routing_table s) src) as [[|entry rest]|]; simpl;
    try same_but_events.
  destruct (SimulationRNG.u (rng s)); simpl; same_but_events.
Qed.

Lemma oblivious_on_departure (key : string) :
  heap_oblivious (on_departure key).
Proof.
  unfold on_departure.
  apply oblivious_bind; [apply oblivious_get_node|].
  intro fila.
  apply oblivious_bind; [apply oblivious_put_node|].
  intros ?.
  apply oblivious_bind.
  { destruct (_ <=? _)%Z; [|apply oblivious_ret].
    apply oblivious_sample_schedule. }
  intros ?.
  apply oblivious_bind; [apply oblivious_pick_destination|].
  intro dest_name. destruct (truthy dest_name) as [dest|].
  - apply oblivious_admit_and_serve.
  - apply oblivious_ret.
Qed.

Lemma oblivious_update_time_stats (t_new : Q) :
  heap_oblivious (update_time_stats t_new).
Proof.
  intros s evs. unfold update_time_stats, bind, get, modify, ret, raise.
  simpl.
  destruct (Qltb 0 (t_new - last_update_time s)); simpl.
  - destruct (add_time_nodes _ (nodes s)) as [nds ok].
    destruct ok; simpl; same_but_events.
  - same_but_events.
Qed.

Lemma oblivious_handle (ev : Event) : heap_oblivious (handle ev).
Proof.
  unfold handle.
  apply oblivious_bind; [apply oblivious_update_time_stats|].
  intros ?.
  apply oblivious_bind.
  { apply oblivious_modify. intros s evs. same_but_events. }
  intros ?. destruct (ev_etype ev).
  - apply oblivious_on_arrival.
  - apply oblivious_on_departure.
Qed.

Lemma step_handle (s : NetworkSimulator.t) (ev : Event)
    (rest : list Event) :
  heappop (events s) = Some (ev, rest) ->
  step s = handle ev (set_popped ev rest s).
Proof.
  intro Hpop. unfold step, bind at 1, get. rewrite Hpop. reflexivity.
Qed.

Lemma same_up_to_heap_refl (s : NetworkSimulator.t) : same_up_to_heap s s.
Proof. split; [apply Permutation_refl | reflexivity]. Qed.

Lemma same_up_to_heap_sym (s s' : NetworkSimulator.t) :
  same_up_to_heap s s' -> same_up_to_heap s' s.
Proof.
  intros [Hp He]. split; [apply Permutation_sym; exact Hp | congruence].
Qed.

Lemma same_up_to_heap_trans (s1 s2 s3 : NetworkSimulator.t) :
  same_up_to_heap s1 s2 -> same_up_to_heap s2 s3 -> same_up_to_heap s1 s3.
Proof.
  intros [Hp He] [Hp' He'].
  split; [apply (perm_trans Hp Hp') | congruence].
Qed.

(** A computation that never looks at the heap cannot tell two
    arrangements of it apart. *)
Lemma oblivious_layout {A} (c : M NetworkSimulator.t A)
    (s s' : NetworkSimulator.t) :
  heap_oblivious c -> same_up_to_heap s s' -> same_outcome (c s) (c s').
Proof.
  intros Hc [Hp He].
  rewrite <- (set_events_own s), <- (set_events_own s').
  rewrite <- (set_events_twice (events s) [] s).
  rewrite <- (set_events_twice (events s') [] s').
  rewrite <- He.
  rewrite (Hc (set_events [] s) (events s)).
  rewrite (Hc (set_events [] s) (events s')).
  rewrite set_events_twice.
  destruct (c (set_events [] s)) as [a t0|e t0]; simpl;
    (split; [reflexivity|]); split; simpl;
    try (apply Permutation_app_tail; exact Hp); reflexivity.
Qed.

Lemma running_layout (s s' : NetworkSimulator.t) :
  same_up_to_heap s s' -> running s = running s'.
Proof.
  intros [Hp He]. unfold running.
  assert (Ht : total_arrivals_target s = total_arrivals_target s').
  { apply (f_equal total_arrivals_target) in He. exact He. }
  assert (Hc : total_arrivals_count s = total_arrivals_count s').
  { apply (f_equal total_arrivals_count) in He. exact He. }
  rewrite Ht, Hc.
  destruct (events s) as [|e l], (events s') as [|e' l']; try reflexivity.
  - apply Permutation_nil in Hp. discriminate.
  - apply Permutation_sym, Permutation_nil in Hp. discriminate.
Qed.

Lemma fresh_seqs_layout (s s' : NetworkSimulator.t) :
  same_up_to_heap s s' -> fresh_seqs s -> fresh_seqs s'.
Proof.
  intros [Hp He] [H0 Hs]. unfold fresh_seqs.
  assert (Hc : seq_counter s = seq_counter s').
  { apply (f_equal seq_counter) in He. exact He. }
  assert (Hd : processed s = processed s').
  { apply (f_equal processed) in He. exact He. }
  rewrite <- Hc, <- Hd. split; [exact H0|].
  apply (perm_trans (l' := map ev_seq (processed s ++ events s)));
    [|exact Hs].
  apply Permutation_map, Permutation_app_head, Permutation_sym. exact Hp.
Qed.

Lemma fresh_seqs_nodup (s : NetworkSimulator.t) :
  fresh_seqs s -> NoDup (map ev_seq (events s)).
Proof.
  intros [_ Hp].
  assert (Hnd : NoDup (map ev_seq (processed s ++ events s))).
  { apply (Permutation_NoDup (Permutation_sym Hp)).
    apply seq_numbers_nodup. }
  rewrite map_app in Hnd. apply (NoDup_app_remove_l _ _ Hnd).
Qed.

(** With pairwise distinct sequence numbers the event popped does not
    depend on the arrangement of the heap. *)
Lemma heappop_layout (h h' : list Event) (ev ev' : Event)
    (rest rest' : list Event) :
  Permutation h h' ->
  NoDup (map ev_seq h) ->
  heappop h = Some (ev, rest) ->
  heappop h' = Some (ev', rest') ->
  ev = ev' /\ Permutation rest rest'.
Proof.
  intros Hperm Hnd Hpop Hpop'.
  destruct (heappop_min h ev rest Hpop) as [Hp Hmin].
  destruct (heappop_min h' ev' rest' Hpop') as [Hp' Hmin'].
  assert (Hnd' : NoDup (map ev_seq h')).
  { apply (Permutation_NoDup (Permutation_map ev_seq Hperm) Hnd). }
  assert (Hall : Permutation (ev :: rest) (ev' :: rest')).
  { apply (perm_trans (Permutation_sym Hp)).
    apply (perm_trans Hperm Hp'). }
  assert (Heq : ev = ev').
  { assert (Hin : In ev (ev' :: rest')).
    { apply (Permutation_in _ Hall). left. reflexivity. }
    destruct Hin as [H | Hin]; [symmetry; exact H|].
    exfalso.
    pose proof (heappop_strict h' ev' rest' Hpop' Hnd' ev Hin) as Hlt.
    assert (Hin' : In ev' (ev :: rest)).
    { apply (Permutation_in _ (Permutation_sym Hall)). left. reflexivity. }
    destruct Hin' as [H | Hin'].
    - subst ev'. apply (event_lt_irrefl _ Hlt).
    - apply (Hmin ev' Hin' Hlt). }
  split; [exact Heq|]. subst ev'.
  apply (Permutation_cons_inv Hall).
Qed.

Lemma heappop_nil (h : list Event) : heappop h = None <-> h = [].
Proof.
  destruct h as [|e l]; simpl.
  - split; reflexivity.
  - destruct (pop_least e l). split; discriminate.
Qed.

(** One iteration gives the same outcome on two arrangements of a heap
    whose sequence numbers are pairwise distinct. *)
Lemma step_layout (s s' : NetworkSimulator.t) :
  same_up_to_heap s s' -> NoDup (map ev_seq (events s)) ->
  same_outcome (step s) (step s').
Proof.
  intros Hsame Hnd. pose proof Hsame as [Hp He].
  destruct (heappop (events s)) as [[ev rest]|] eqn:Hpop.
  - destruct (heappop (events s')) as [[ev' rest']|] eqn:Hpop'.
    + destruct (heappop_layout _ _ _ _ _ _ Hp Hnd Hpop Hpop') as [<- Hr].
      rewrite (step_handle s ev rest Hpop), (step_handle s' ev rest' Hpop').
      apply oblivious_layout; [apply oblivious_handle|].
      split; [exact Hr|].
      change (set_popped ev [] (set_events [] s)
              = set_popped ev [] (set_events [] s')).
      rewrite He. reflexivity.
    + exfalso. apply heappop_nil in Hpop'. rewrite Hpop' in Hp.
      apply Permutation_sym, Permutation_nil in Hp.
      rewrite Hp in Hpop. discriminate.
  - apply heappop_nil in Hpop. rewrite Hpop in Hp.
    apply Permutation_nil in Hp.
    unfold step, bind, get, raise. rewrite Hpop, Hp. simpl.
    split; [reflexivity | exact Hsame].
Qed.

Lemma step_fresh_seqs (s : NetworkSimulator.t) :
  fresh_seqs s -> fresh_seqs (final_state (step s)).
Proof.
  intro Hs.
  assert (Ht : triple fresh_seqs step (fun _ => fresh_seqs) fresh_seqs).
  { apply (inv_step fresh_seqs); try (intros; assumption).
    - intros s1 tm et name. apply fresh_seqs_schedule.
    - apply fresh_seqs_pop. }
  specialize (Ht s Hs). destruct (step s); exact Ht.
Qed.

Lemma loop_any_layout_deterministic (s : NetworkSimulator.t)
    (o1 : outcome NetworkSimulator.t unit) :
  loop_any_layout s o1 ->
  forall s' o2,
    same_up_to_heap s s' -> fresh_seqs s ->
    loop_any_layout s' o2 ->
    same_outcome o1 o2.
Proof.
  induction 1 as [s Hrun | s s1 e s2 Hrun Hlay Hstep
                  | s s1 s2 o Hrun Hlay Hstep Hloop IH];
    intros s' o2 Hsame Hfresh H2.
  - rewrite (running_layout _ _ Hsame) in Hrun.
    inversion H2; subst; try congruence.
    split; [reflexivity | exact Hsame].
  - rewrite (running_layout _ _ Hsame) in Hrun.
    assert (Hf1 : fresh_seqs s1) by apply (fresh_seqs_layout _ _ Hlay Hfresh).
    inversion H2 as [? Hr | ? s1' e' s2' Hr Hlay' Hstep'
                     | ? s1' s2' ? Hr Hlay' Hstep' Hloop']; subst;
      try congruence.
    + assert (H11 : same_up_to_heap s1 s1').
      { apply (same_up_to_heap_trans _ s'); [|exact Hlay'].
        apply (same_up_to_heap_trans _ s); [|exact Hsame].
        apply same_up_to_heap_sym. exact Hlay. }
      pose proof (step_layout _ _ H11 (fresh_seqs_nodup _ Hf1)) as Hs.
      rewrite Hstep, Hstep' in Hs. exact Hs.
    + assert (H11 : same_up_to_heap s1 s1').
      { apply (same_up_to_heap_trans _ s'); [|exact Hlay'].
        apply (same_up_to_heap_trans _ s); [|exact Hsame].
        apply same_up_to_heap_sym. exact Hlay. }
      pose proof (step_layout _ _ H11 (fresh_seqs_nodup _ Hf1)) as Hs.
      rewrite Hstep, Hstep' in Hs. destruct Hs.
  - rewrite (running_layout _ _ Hsame) in Hrun.
    assert (Hf1 : fresh_seqs s1) by apply (fresh_seqs_layout _ _ Hlay Hfresh).
    assert (Hf2 : fresh_seqs s2).
    { pose proof (step_fresh_seqs s1 Hf1) as H. rewrite Hstep in H. exact H. }
    inversion H2 as [? Hr | ? s1' e' s2' Hr Hlay' Hstep'
                     | ? s1' s2' ? Hr Hlay' Hstep' Hloop']; subst;
      try congruence.
    + assert (H11 : same_up_to_heap s1 s1').
      { apply (same_up_to_heap_trans _ s'); [|exact Hlay'].
        apply (same_up_to_heap_trans _ s); [|exact Hsame].
        apply same_up_to_heap_sym. exact Hlay. }
      pose proof (step_layout _ _ H11 (fresh_seqs_nodup _ Hf1)) as Hs.
      rewrite Hstep, Hstep' in Hs. destruct Hs.
    + assert (H11 : same_up_to_heap s1 s1').
      { apply (same_up_to_heap_trans _ s'); [|exact Hlay'].
        apply (same_up_to_heap_trans _ s); [|exact Hsame].
        apply same_up_to_heap_sym. exact Hlay. }
      pose proof (step_layout _ _ H11 (fresh_seqs_nodup _ Hf1)) as Hs.
      rewrite Hstep, Hstep' in Hs. destruct Hs as [_ H22].
      apply (IH s2' o2 H22 Hf2 Hloop').
Qed.

(** The loop of the code is one of the loops over any layout. *)
Lemma loop_is_any_layout (fuel : nat) :
  forall s o, loop fuel s = Some o -> loop_any_layout s o.
Proof.
  induction fuel as [|fuel IH]; intros s o; simpl.
  - destruct (running s) eqn:Hr; [discriminate|].
    intros [= <-]. apply any_done. exact Hr.
  - destruct (running s) eqn:Hr.
    + destruct (step s) as [[] s1|e s1] eqn:Hstep.
      * intro Hl. apply (@any_step s s s1 o Hr (same_up_to_heap_refl s) Hstep).
        apply (IH _ _ Hl).
      * intros [= <-].
        apply (@any_raise s s e s1 Hr (same_up_to_heap_refl s) Hstep).
    + intros [= <-]. apply any_done. exact Hr.
Qed.

Lemma run_is_any_layout (fuel : nat) (s : NetworkSimulator.t)
    (o : outcome NetworkSimulator.t Results) :
  run fuel s = Some o -> run_any_layout s o.
Proof.
  unfold run, run_any_layout.
  destruct (schedule_first_arrivals (nodes s) s) as [[] s1|e s1];
    [|intros [= <-]; reflexivity].
  destruct (loop fuel s1) as [ol|] eqn:Hl; [|discriminate].
  intro H. exists ol. split; [apply (loop_is_any_layout fuel _ _ Hl)|].
  destruct ol as [[] s2|e s2].
  - destruct (update_time_stats (time s2) s2) as [[] s3|e s3];
      injection H as <-; reflexivity.
  - injection H as <-. reflexivity.
Qed.

Lemma get_results_layout (s s' : NetworkSimulator.t) :
  same_up_to_heap s s' -> _get_results s = _get_results s'.
Proof.
  intros [_ He]. unfold _get_results.
  apply (f_equal time) in He as Ht.
  apply (f_equal rng) in He as Hr.
  apply (f_equal total_arrivals_count) in He as Hc.
  apply (f_equal nodes) in He as Hn.
  simpl in Ht, Hr, Hc, Hn. rewrite Ht, Hr, Hc, Hn. reflexivity.
Qed.

Lemma run_any_layout_deterministic (s0 : NetworkSimulator.t)
    (o1 o2 : outcome NetworkSimulator.t Results) :
  fresh_seqs s0 ->
  run_any_layout s0 o1 -> run_any_layout s0 o2 -> same_outcome o1 o2.
Proof.
  intro H0. unfold run_any_layout.
  pose proof (inv_first_arrivals fresh_seqs) as Hfirst.
  assert (Hf : fresh_seqs
                 (final_state (schedule_first_arrivals (nodes s0) s0))).
  { assert (Ht : triple fresh_seqs (schedule_first_arrivals (nodes s0))
                        (fun _ => fresh_seqs) fresh_seqs).
    { apply Hfirst; try (intros; assumption).
      intros s1 tm et name. apply fresh_seqs_schedule. }
    specialize (Ht s0 H0).
    destruct (schedule_first_arrivals (nodes s0) s0); exact Ht. }
  destruct (schedule_first_arrivals (nodes s0) s0) as [[] s1|e s1].
  - simpl in Hf. intros (ol1 & Hl1 & H1) (ol2 & Hl2 & H2).
    pose proof (loop_any_layout_deterministic s1 ol1 Hl1 s1 ol2
                  (same_up_to_heap_refl s1) Hf Hl2) as Hsame.
    destruct ol1 as [[] t1|e1 t1], ol2 as [[] t2|e2 t2]; simpl in Hsame;
      try contradiction.
    + destruct Hsame as [_ Hsame].
      pose proof (oblivious_layout (update_time_stats (time t1)) t1 t2
                    (oblivious_update_time_stats (time t1)) Hsame) as Hu.
      assert (Ht : time t1 = time t2).
      { destruct Hsame as [_ He]. apply (f_equal time) in He. exact He. }
      rewrite <- Ht in H2.
      destruct (update_time_stats (time t1) t1) as [[] u1|x1 u1],
               (update_time_stats (time t1) t2) as [[] u2|x2 u2];
        simpl in Hu; try contradiction; subst o1 o2; simpl.
      * destruct Hu as [_ Hu]. split; [|exact Hu].
        apply get_results_layout. exact Hu.
      * exact Hu.
    + subst o1 o2. exact Hsame.
  - intros -> ->. simpl. split; [reflexivity | apply same_up_to_heap_refl].
Qed.

(** C7. Runs of one configuration (hence of one seed or one replay list)
    are reproducible, whatever arrangement [heapq] gives the heap: let
    every iteration of the loop find the heap in any arrangement of its
    events, with [heappop] taking a least event of that arrangement.
    Any two such runs of a constructed simulator end alike: both return
    the same results (served and loss counts, time-in-state vectors, end
    time, deviates consumed), or both raise the same exception, and the
    final states agree on every field, the sequence of processed events
    included, the heaps being arrangements of the same events. The reason
    is that [schedule] gives every event a sequence number of its own, so
    the event order never leaves a tie. The run of the code is one of
    these runs, whatever bound it was given on the number of iterations,
    so two runs of the code that end give the same outcome. *)
Theorem runs_are_reproducible :
  forall (config : Config) (s0 : NetworkSimulator.t),
    NetworkSimulator.init config = Ok s0 ->
    (forall o1 o2,
        run_any_layout s0 o1 -> run_any_layout s0 o2 ->
        same_outcome o1 o2
        /\ processed (final_state o1) = processed (final_state o2)
        /\ nodes (final_state o1) = nodes (final_state o2)
        /\ rng (final_state o1) = rng (final_state o2)
        /\ time (final_state o1) = time (final_state o2)
        /\ (forall r1 s1 r2 s2,
              o1 = Return r1 s1 -> o2 = Return r2 s2 -> r1 = r2))
    /\ (forall fuel o, run fuel s0 = Some o -> run_any_layout s0 o)
    /\ (forall fuel1 fuel2 o1 o2,
          Scenario.simulate fuel1 config = Ok (Some o1) ->
          Scenario.simulate fuel2 config = Ok (Some o2) ->
          o1 = o2).
Proof.
  intros config s0 Hi. split; [|split].
  - intros o1 o2 H1 H2.
    pose proof (run_any_layout_deterministic s0 o1 o2
                  (init_fresh_seqs _ _ Hi) H1 H2) as Hsame.
    split; [exact Hsame|].
    assert (He : set_events [] (final_state o1)
                 = set_events [] (final_state o2)).
    { destruct o1, o2; simpl in Hsame; try contradiction;
        destruct Hsame as [_ [_ He]]; exact He. }
    split; [apply (f_equal processed) in He; exact He|].
    split; [apply (f_equal nodes) in He; exact He|].
    split; [apply (f_equal rng) in He; exact He|].
    split; [apply (f_equal time) in He; exact He|].
    intros r1 s1 r2 s2 -> ->. simpl in Hsame. apply Hsame.
  - intros fuel o. apply run_is_any_layout.
  - intros fuel1 fuel2 o1 o2. unfold Scenario.simulate. rewrite Hi.
    intros [= H1] [= H2].
    apply (run_fuel_irrelevant fuel1 fuel2 s0 o1 o2 H1 H2).
Qed.

Lemma runs_are_reproducible_witness :
  NetworkSimulator.init (Scenario.single 7) = Ok Sample.single_start
  /\ run_any_layout Sample.single_start
       (Return (_get_results Sample.single_end) Sample.single_end)
  /\ same_outcome
       (Return (_get_results Sample.single_end) Sample.single_end)
       (Return (_get_results Sample.single_end) Sample.single_end).
Proof.
  assert (Hi : NetworkSimulator.init (Scenario.single 7)
               = Ok Sample.single_start).
  { vm_compute. reflexivity. }
  assert (Hrun : run 10 Sample.single_start
                 = Some (Return (_get_results Sample.single_end)
                                Sample.single_end)).
  { vm_compute. reflexivity. }
  assert (Hany : run_any_layout Sample.single_start
                   (Return (_get_results Sample.single_end)
                           Sample.single_end)).
  { apply (proj1 (proj2 (runs_are_reproducible (Scenario.single 7)
                           Sample.single_start Hi)) 10%nat _ Hrun). }
  split; [exact Hi|]. split; [exact Hany|].
  apply (proj1 (proj1 (runs_are_reproducible (Scenario.single 7)
                         Sample.single_start Hi) _ _ Hany Hany)).
Defined.

(** ** _build_network: the routing table *)

Lemma dict_get_absent {A} (d : list (string * A)) (key : string) :
  ~ In key (map fst d) -> dict_get d key = None.
Proof.
  induction d as [|[k0 v0] d IH]; simpl; [reflexivity|].
  intro Hnot. destruct (String.eqb k0 key) eqn:E.
  - apply String.eqb_eq in E. exfalso. apply Hnot. left. exact E.
  - apply IH. intro Hin. apply Hnot. right. exact Hin.
Qed.

Lemma dict_set_key_in {A} (d : list (string * A)) (key : string) (v : A)
    (x : string) :
  In x (map fst (dict_set d key v)) -> x = key \/ In x (map fst d).
Proof.
  intro Hin. apply in_map_iff in Hin. destruct Hin as ([k0 v0] & <- & Hin).
  destruct (dict_set_in _ _ _ _ Hin) as [[= -> ->] | Hd].
  - left. reflexivity.
  - right. apply (in_map fst _ _ Hd).
Qed.

Lemma dict_set_nodup {A} (d : list (string * A)) (key : string) (v : A) :
  NoDup (map fst d) -> NoDup (map fst (dict_set d key v)).
Proof.
  induction d as [|[k0 v0] d IH]; simpl.
  - intros _. constructor; [intros [] | constructor].
  - intro Hnd. inversion Hnd as [|x l Hnotin Hnd']; subst.
    destruct (String.eqb k0 key) eqn:E; simpl; [exact Hnd|].
    constructor; [|apply IH; exact Hnd'].
    intro Hin. destruct (dict_set_key_in _ _ _ _ Hin) as [-> | H].
    + rewrite String.eqb_refl in E. discriminate.
    + apply Hnotin. exact H.
Qed.

(** Rebuilding a dict entry by entry, as the second loop of
    [_build_network] does, maps every value and keeps the keys. *)
Lemma dict_rebuild_get {A B} (g : A -> B) (d : list (string * A)) :
  NoDup (map fst d) ->
  forall acc key,
    dict_get
      (fold_left (fun table entry => dict_set table (fst entry) (g (snd entry)))
                 d acc) key
    = match dict_get d key with
      | Some v => Some (g v)
      | None => dict_get acc key
      end.
Proof.
  induction d as [|[k0 v0] d IH]; simpl; intros Hnd acc key;
    [reflexivity|].
  inversion Hnd as [|x l Hnotin Hnd']; subst.
  rewrite (IH Hnd'). rewrite dict_get_set.
  destruct (String.eqb k0 key) eqn:E; [|reflexivity].
  apply String.eqb_eq in E. subst k0.
  rewrite (dict_get_absent _ _ Hnotin). reflexivity.
Qed.

Lemma raw_routing_fold_get (rules : list Rule) :
  forall acc src,
    dict_get
      (fold_left
         (fun raw rule =>
            let old := match dict_get raw (source rule) with
                       | Some l => l
                       | None => []
                       end in
            dict_set raw (source rule)
                     (old ++ [(target rule, probability rule)]))
         rules acc) src
    = match rules_of src rules with
      | [] => dict_get acc src
      | dests =>
          Some (match dict_get acc src with Some l => l | None => [] end
                ++ dests)
      end.
Proof.
  induction rules as [|rule rules IH]; intros acc src; [reflexivity|].
  simpl fold_left. rewrite IH. rewrite dict_get_set.
  unfold rules_of. simpl filter.
  destruct (String.eqb (source rule) src) eqn:E.
  - apply String.eqb_eq in E. rewrite E. simpl map.
    fold (rules_of src rules).
    destruct (rules_of src rules) as [|d ds].
    + reflexivity.
    + rewrite <- app_assoc. reflexivity.
  - fold (rules_of src rules). reflexivity.
Qed.

Lemma raw_routing_get (rules : list Rule) (src : string) :
  dict_get (raw_routing rules) src
  = match rules_of src rules with
    | [] => None
    | dests => Some dests
    end.
Proof.
  unfold raw_routing. rewrite raw_routing_fold_get. simpl.
  destruct (rules_of src rules); reflexivity.
Qed.

Lemma raw_routing_nodup (rules : list Rule) :
  NoDup (map fst (raw_routing rules)).
Proof.
  unfold raw_routing.
  assert (H : forall acc,
             NoDup (map fst acc) ->
             NoDup (map fst
               (fold_left
                  (fun raw rule =>
                     let old := match dict_get raw (source rule) with
                                | Some l => l
                                | None => []
                                end in
                     dict_set raw (source rule)
                              (old ++ [(target rule, probability rule)]))
                  rules acc))).
  { induction rules as [|rule rules IH]; intros acc Hacc; [exact Hacc|].
    simpl. apply IH. apply dict_set_nodup. exact Hacc. }
  apply H. constructor.
Qed.

Lemma insert_by_prob_perm (x : string * Q) (l : list (string * Q)) :
  Permutation (insert_by_prob x l) (x :: l).
Proof.
  induction l as [|y l IH]; simpl; [apply Permutation_refl|].
  destruct (Qltb (snd y) (snd x)); [|apply Permutation_refl].
  apply (perm_trans (l' := y :: x :: l));
    [apply perm_skip; exact IH | apply perm_swap].
Qed.

Lemma insert_by_prob_ascending (x : string * Q) (l : list (string * Q)) :
  ascending l -> ascending (insert_by_prob x l).
Proof.
  unfold ascending. induction l as [|y l IH]; simpl; intro Hs.
  - constructor; constructor.
  - inversion Hs as [|y0 l0 Hl Hy]; subst.
    destruct (Qltb (snd y) (snd x)) eqn:E.
    + apply Qltb_lt in E. constructor; [apply IH; exact Hl|].
      apply (Permutation_Forall (Permutation_sym (insert_by_prob_perm x l))).
      constructor; [apply Qlt_le_weak; exact E | exact Hy].
    + apply Qltb_ge in E. constructor; [exact Hs|].
      constructor; [exact E|].
      apply (Forall_impl _ (P := fun z => (snd y <= snd z)%Q));
        [|exact Hy].
      intros z Hz. apply (Qle_trans _ _ _ E Hz).
Qed.

Lemma insert_by_prob_stable (p : Q) (x : string * Q)
    (l : list (string * Q)) :
  with_prob p (insert_by_prob x l) = with_prob p (x :: l).
Proof.
  unfold with_prob. induction l as [|y l IH]; [reflexivity|].
  simpl insert_by_prob.
  destruct (Qltb (snd y) (snd x)) eqn:E; [|reflexivity].
  apply Qltb_lt in E. simpl filter. simpl filter in IH. rewrite IH.
  destruct (Qeq_bool (snd x) p) eqn:Ex; [|reflexivity].
  destruct (Qeq_bool (snd y) p) eqn:Ey; [|reflexivity].
  apply Qeq_bool_iff in Ex. apply Qeq_bool_iff in Ey.
  exfalso. rewrite Ex, <- Ey in E. apply (Qlt_irrefl _ E).
Qed.

Lemma sort_by_prob_perm (l : list (string * Q)) :
  Permutation (sort_by_prob l) l.
Proof.
  unfold sort_by_prob. induction l as [|x l IH]; simpl; [constructor|].
  apply (perm_trans (insert_by_prob_perm _ _)). apply perm_skip. exact IH.
Qed.

Lemma sort_by_prob_ascending (l : list (string * Q)) :
  ascending (sort_by_prob l).
Proof.
  unfold sort_by_prob. induction l as [|x l IH]; simpl.
  - constructor.
  - apply insert_by_prob_ascending. exact IH.
Qed.

Lemma sort_by_prob_stable (p : Q) (l : list (string * Q)) :
  with_prob p (sort_by_prob l) = with_prob p l.
Proof.
  unfold sort_by_prob. induction l as [|x l IH]; simpl; [reflexivity|].
  rewrite insert_by_prob_stable. unfold with_prob in *. simpl.
  rewrite IH. reflexivity.
Qed.

Lemma cumulative_targets (dests : list (string * Q)) :
  forall c, map fst (cumulative c dests) = map fst dests.
Proof.
  induction dests as [|[tgt prob] rest IH]; intro c; simpl; [reflexivity|].
  rewrite IH. reflexivity.
Qed.

Lemma cumulative_sums (dests : list (string * Q)) :
  forall c i,
    (i < List.length dests)%nat ->
    nth i (map snd (cumulative c dests)) 0%Q
    = fold_left Qplus (map snd (firstn (S i) dests)) c.
Proof.
  induction dests as [|[tgt prob] rest IH]; intros c i Hi; simpl in Hi;
    [lia|].
  destruct i as [|i].
  - destruct rest; reflexivity.
  - simpl. apply (IH (c + prob)%Q i). lia.
Qed.

(** For every source, the routing table built from the rules holds the
    destinations declared for that source, sorted by ascending probability
    with equal probabilities left in the order of the rules, each paired
    with the running sum of the probabilities up to and including its own;
    a source without rules has no entry. *)
Theorem routing_table_of_rules :
  forall (rules : list Rule) (src : string),
    let dests := rules_of src rules in
    let sorted := sort_by_prob dests in
    dict_get (build_routing rules) src
    = match dests with
      | [] => None
      | _ => Some (cumulative 0 sorted)
      end
    /\ Permutation sorted dests
    /\ ascending sorted
    /\ (forall p, with_prob p sorted = with_prob p dests)
    /\ map fst (cumulative 0 sorted) = map fst sorted
    /\ (forall i,
          (i < List.length sorted)%nat ->
          nth i (map snd (cumulative 0 sorted)) 0%Q
          = running_sum (S i) sorted)
    /\ (forall config s0,
          NetworkSimulator.init config = Ok s0 ->
          routing_table s0 = build_routing (network config)).
Proof.
  intros rules src dests sorted.
  split; [|split; [|split; [|split; [|split; [|split]]]]].
  - unfold build_routing.
    rewrite (dict_rebuild_get (fun l => cumulative 0 (sort_by_prob l))
               (raw_routing rules) (raw_routing_nodup rules)).
    rewrite raw_routing_get. fold dests.
    destruct dests; reflexivity.
  - apply sort_by_prob_perm.
  - apply sort_by_prob_ascending.
  - intro p. apply sort_by_prob_stable.
  - apply cumulative_targets.
  - intros i Hi. apply (cumulative_sums sorted 0%Q i Hi).
  - intros config s0. unfold NetworkSimulator.init.
    destruct (build_nodes (queues config) []); [|discriminate].
    intros [= <-]. reflexivity.
Qed.

Lemma routing_table_of_rules_witness :
  NetworkSimulator.init (Scenario.routed Scenario.rules_full (1 # 2))
  = Ok (Sample.constructed (Scenario.routed Scenario.rules_full (1 # 2)))
  /\ routing_table
       (Sample.constructed (Scenario.routed Scenario.rules_full (1 # 2)))
     = build_routing Scenario.rules_full
  /\ map fst (cumulative 0 (sort_by_prob
                              (rules_of "source" Scenario.rules_full)))
     = ["A"%string; "B"%string].
Proof.
  assert (Hi : NetworkSimulator.init
                 (Scenario.routed Scenario.rules_full (1 # 2))
               = Ok (Sample.constructed
                       (Scenario.routed Scenario.rules_full (1 # 2)))).
  { vm_compute. reflexivity. }
  split; [exact Hi|]. split.
  - apply (proj2 (proj2 (proj2 (proj2 (proj2 (proj2
             (routing_table_of_rules Scenario.rules_full "source"))))))
           _ _ Hi).
  - vm_compute. reflexivity.
Defined.

(** ** What a run can raise *)

Lemma ro_ret {S A} (ok : exn -> S -> Prop) (P : S -> Prop)
    (R : A -> S -> Prop) (a : A) :
  (forall s, P s -> R a s) -> raises_only ok P (ret a) R.
Proof. intros H s Hs. simpl. auto. Qed.

Lemma ro_bind {S A B} (ok : exn -> S -> Prop) (P : S -> Prop)
    (R1 : A -> S -> Prop) (R : B -> S -> Prop) (c : M S A)
    (f : A -> M S B) :
  raises_only ok P c R1 ->
  (forall a, raises_only ok (R1 a) (f a) R) ->
  raises_only ok P (bind c f) R.
Proof.
  intros Hc Hf s Hs. unfold bind. specialize (Hc s Hs).
  destruct (c s) as [a s'|e s']; [apply (Hf a s' Hc) | exact Hc].
Qed.

Lemma ro_get {S} (ok : exn -> S -> Prop) (P : S -> Prop) :
  raises_only ok P get (fun a s => P s /\ a = s).
Proof. intros s Hs. simpl. auto. Qed.

Lemma ro_modify {S} (ok : exn -> S -> Prop) (P R : S -> Prop)
    (f : S -> S) :
  (forall s, P s -> R (f s)) -> raises_only ok P (modify f) (fun _ => R).
Proof. intros H s Hs. simpl. auto. Qed.

Lemma ro_weaken {S A} (ok : exn -> S -> Prop) (P P' : S -> Prop)
    (R R' : A -> S -> Prop) (c : M S A) :
  raises_only ok P' c R' ->
  (forall s, P s -> P' s) ->
  (forall a s, R' a s -> R a s) ->
  raises_only ok P c R.
Proof.
  intros Hc HP HR s Hs. specialize (Hc s (HP s Hs)).
  destruct (c s); auto.
Qed.

Lemma ro_pure {S A} (ok : exn -> S -> Prop) (P : S -> Prop) (F : Prop)
    (R : A -> S -> Prop) (c : M S A) :
  (forall s, P s -> F) -> (F -> raises_only ok P c R) ->
  raises_only ok P c R.
Proof. intros HF Hc s Hs. exact (Hc (HF s Hs) s Hs). Qed.

Lemma u_raise (r : SimulationRNG.t) (e : exn) (r' : SimulationRNG.t) :
  SimulationRNG.u r = Raise e r' ->
  e = SimulationRNG.exhausted
  /\ SimulationRNG.src r' = SimulationRNG.FromList [].
Proof.
  unfold SimulationRNG.u.
  destruct (SimulationRNG.src r) as [[|x rest]|g].
  - intros [= <- <-]. split; reflexivity.
  - discriminate.
  - destruct (LinearCongruentialGenerator.next_random g). discriminate.
Qed.

Lemma ro_sample (P : NetworkSimulator.t -> Prop)
    (R : Q -> NetworkSimulator.t -> Prop) (range : Q * Q) :
  (forall s x r, P s -> R x (set_rng r s)) ->
  raises_only out_of_deviates P (sample range) R.
Proof.
  intros HR s Hs. destruct range as [lo hi].
  unfold sample, bind, rng_u, ret.
  destruct (SimulationRNG.u (rng s)) as [x r|e r] eqn:Hu.
  - apply HR. exact Hs.
  - destruct (u_raise _ _ _ Hu) as [He Hsrc]. split; assumption.
Qed.

Lemma dict_get_present {A} (d : list (string * A)) (key : string) :
  In key (map fst d) -> exists v, dict_get d key = Some v.
Proof.
  induction d as [|[k0 v0] d IH]; simpl; [tauto|].
  intro Hin. destruct (String.eqb k0 key) eqn:E; [eexists; reflexivity|].
  destruct Hin as [-> | Hin];
    [rewrite String.eqb_refl in E; discriminate | apply IH; exact Hin].
Qed.

Lemma dict_get_key {A} (d : list (string * A)) (key : string) (v : A) :
  dict_get d key = Some v -> In key (map fst d).
Proof.
  induction d as [|[k0 v0] d IH]; simpl; [discriminate|].
  destruct (String.eqb k0 key) eqn:E.
  - apply String.eqb_eq in E. intros _. left. exact E.
  - intro H. right. apply IH. exact H.
Qed.

Lemma dict_get_entry {A} (d : list (string * A)) (key : string) (v : A) :
  NoDup (map fst d) -> In (key, v) d -> dict_get d key = Some v.
Proof.
  induction d as [|[k0 v0] d IH]; simpl; [tauto|].
  intros Hnd Hin. inversion Hnd as [|x l Hnotin Hnd']; subst.
  destruct Hin as [[= -> ->] | Hin].
  - rewrite String.eqb_refl. reflexivity.
  - destruct (String.eqb k0 key) eqn:E; [|apply IH; assumption].
    apply String.eqb_eq in E. subst k0. exfalso. apply Hnotin.
    apply (in_map fst _ _ Hin).
Qed.

Lemma ro_get_node (ok : exn -> NetworkSimulator.t -> Prop)
    (P : NetworkSimulator.t -> Prop) (key : string) :
  (forall s, P s -> In key (map fst (nodes s))) ->
  raises_only ok P (get_node key)
    (fun nd s => P s /\ dict_get (nodes s) key = Some nd).
Proof.
  intros Hin s Hs. unfold get_node.
  destruct (dict_get_present _ _ (Hin s Hs)) as [nd Hg]. rewrite Hg.
  split; [exact Hs | exact Hg].
Qed.

Lemma py_index_in_range {A} (l : list A) (i : Z) :
  (0 <= i < Z.of_nat (List.length l))%Z ->
  py_index l i = Some (Z.to_nat i).
Proof.
  intros [Hlo Hhi]. unfold py_index.
  apply Z.leb_le in Hlo. apply Z.ltb_lt in Hhi. rewrite Hlo, Hhi.
  reflexivity.
Qed.

Lemma add_time_nodes_ok (dt : Q) (nds : list (string * Node.t)) :
  (forall key nd,
      In (key, nd) nds ->
      py_index (Node.tempo_estado nd) (Node.n nd) <> None) ->
  snd (add_time_nodes dt nds) = true.
Proof.
  induction nds as [|[k0 nd0] rest IH]; simpl; intro Hall; [reflexivity|].
  unfold Node.add_time.
  destruct (py_index (Node.tempo_estado nd0) (Node.n nd0)) as [pos|] eqn:Hp.
  - destruct (add_time_nodes dt rest) as [rest' ok] eqn:Ha. simpl.
    apply IH. intros key nd Hin. apply (Hall key nd). right. exact Hin.
  - exfalso. apply (Hall k0 nd0); [left; reflexivity | exact Hp].
Qed.

Lemma admit_sound (key : string) (nd nd' : Node.t) (b : bool) :
  Node.admit_ nd = (b, nd') -> node_sound key nd -> node_sound key nd'.
Proof.
  unfold Node.admit_, node_sound.
  destruct (Node.k nd <=? Node.n nd)%Z; intros [= <- <-]; simpl; auto.
Qed.

Lemma first_match_in (u : Q) (rules : list (string * Q)) (tgt : string) :
  first_match u rules = Some tgt -> exists cum, In (tgt, cum) rules.
Proof.
  induction rules as [|[t0 cum0] rest IH]; simpl; [discriminate|].
  destruct (Qltb u cum0).
  - intros [= <-]. exists cum0. left. reflexivity.
  - intro H. destruct (IH H) as [cum Hin]. exists cum. right. exact Hin.
Qed.

Lemma truthy_some (dest_name : option string) (d : string) :
  truthy dest_name = Some d -> dest_name = Some d /\ d <> EmptyString.
Proof.
  destruct dest_name as [[|a rest]|]; simpl; try discriminate.
  intros [= <-]. split; [reflexivity | discriminate].
Qed.

Section Safety.
Variable s0 : NetworkSimulator.t.
Hypothesis routes_ok : routes_declared s0.
Hypothesis names_once : NoDup (map fst (nodes s0)).

Lemma sound_schedule (s : NetworkSimulator.t) (tm : Q) (et : EType)
    (name : string) :
  sound s0 s -> In name (map fst (nodes s0)) ->
  sound s0
    (set_schedule (seq_counter s + 1)
       (heappush (events s) (mkEvent tm (seq_counter s + 1) et name)) s).
Proof.
  intros (Hk & Hr & He & Hn) Hin. unfold sound. simpl.
  split; [exact Hk|]. split; [exact Hr|]. split; [|exact Hn].
  intros ev Hev. unfold heappush in Hev. apply in_app_or in Hev.
  destruct Hev as [Hev | [<- | []]]; [apply He; exact Hev | exact Hin].
Qed.

Lemma sound_put_node (s : NetworkSimulator.t) (key : string)
    (nd nd' : Node.t) :
  sound s0 s -> dict_get (nodes s) key = Some nd -> node_sound key nd' ->
  sound s0 (set_nodes (dict_set (nodes s) key nd') s).
Proof.
  intros (Hk & Hr & He & Hn) Hg Hnd. unfold sound. simpl.
  split; [rewrite (dict_set_keys _ _ _ nd' Hg); exact Hk|].
  split; [exact Hr|]. split; [exact He|].
  intros key' x. rewrite dict_get_set.
  destruct (String.eqb key key') eqn:E.
  - apply String.eqb_eq in E. subst key'. intros [= <-]. exact Hnd.
  - apply Hn.
Qed.

Lemma sound_declared (s : NetworkSimulator.t) (key : string) :
  sound s0 s -> In key (map fst (nodes s0)) -> In key (map fst (nodes s)).
Proof. intros (Hk & _) Hin. rewrite Hk. exact Hin. Qed.

Lemma safe_sample_schedule (range : Q * Q)
    (f : NetworkSimulator.t -> Q -> Q) (et : EType) (name : string) :
  In name (map fst (nodes s0)) ->
  raises_only out_of_deviates (sound s0)
    (bind (sample range)
          (fun x => bind get (fun s => schedule (f s x) et name)))
    (fun _ => sound s0).
Proof.
  intro Hin.
  eapply ro_bind with (R1 := fun _ => sound s0).
  { apply ro_sample. intros s x r Hs. exact Hs. }
  intro x. eapply ro_bind; [apply ro_get|].
  intro s1. apply ro_modify. intros s [Hs _].
  apply sound_schedule; assumption.
Qed.

Lemma safe_admit_and_serve (key : string) :
  In key (map fst (nodes s0)) ->
  raises_only out_of_deviates (sound s0) (admit_and_serve key)
              (fun _ => sound s0).
Proof.
  intro Hin. unfold admit_and_serve.
  eapply ro_bind.
  { apply ro_get_node. intros s Hs. apply sound_declared; assumption. }
  intro fila. cbv beta.
  destruct (Node.admit_ fila) as [admitted fila'] eqn:Hadm.
  apply ro_pure with (F := node_sound key fila -> node_sound key fila').
  { intros _ _. apply (admit_sound key fila fila' admitted Hadm). }
  intro Hkeep.
  eapply ro_bind with
    (R1 := fun _ s => sound s0 s /\ Node.name fila' = key).
  { apply ro_modify. intros s [Hs Hg].
    assert (Hnd : node_sound key fila').
    { apply Hkeep. destruct Hs as (_ & _ & _ & Hn). apply (Hn _ _ Hg). }
    split; [|apply Hnd].
    apply (sound_put_node s key fila fila' Hs Hg Hnd). }
  intros ?.
  apply ro_pure with (F := Node.name fila' = key).
  { intros s [_ H]. exact H. }
  intro Hname.
  eapply ro_weaken with (P' := sound s0) (R' := fun _ => sound s0);
    [|intros s [Hs _]; exact Hs | auto].
  destruct admitted; [|apply ro_ret; auto].
  destruct (Node.n fila' <=? Node.c fila')%Z; [|apply ro_ret; auto].
  apply (safe_sample_schedule _ (fun s x => (time s + x)%Q)).
  rewrite Hname. exact Hin.
Qed.

Lemma safe_on_arrival (key : string) :
  In key (map fst (nodes s0)) ->
  raises_only out_of_deviates (sound s0) (on_arrival key)
              (fun _ => sound s0).
Proof.
  intro Hin. unfold on_arrival.
  eapply ro_bind.
  { apply ro_get_node. intros s Hs. apply sound_declared; assumption. }
  intro fila. cbv beta.
  apply ro_pure with (F := Node.name fila = key).
  { intros s [(_ & _ & _ & Hn) Hg]. apply (Hn _ _ Hg). }
  intro Hname.
  eapply ro_bind with (R1 := fun _ => sound s0).
  { apply ro_modify. intros s [Hs _]. exact Hs. }
  intros ?.
  eapply ro_bind with (R1 := fun _ => sound s0);
    [|intros ?; apply safe_admit_and_serve; exact Hin].
  destruct (Node.arrival_sampler fila) as [range|]; [|apply ro_ret; auto].
  apply (safe_sample_schedule _ (fun s x => (time s + x)%Q)).
  rewrite Hname. exact Hin.
Qed.

Lemma safe_pick_destination (src : string) :
  raises_only out_of_deviates (sound s0) (pick_destination src)
    (fun dest s =>
       sound s0 s
       /\ forall d, truthy dest = Some d -> In d (map fst (nodes s0))).
Proof.
  intros s Hs. unfold pick_destination, bind, get, ret, rng_u.
  destruct (dict_get (routing_table s) src) as [[|entry rest]|] eqn:Hg;
    try (split; [exact Hs | intros d Hd; discriminate]).
  destruct (SimulationRNG.u (rng s)) as [x r|e r] eqn:Hu.
  - split; [exact Hs|]. intros d Hd.
    destruct (truthy_some _ _ Hd) as [Hm Hne].
    destruct (first_match_in _ _ _ Hm) as [cum Hin].
    destruct Hs as (_ & Hr & _). rewrite Hr in Hg.
    destruct (routes_ok src _ d cum Hg Hin) as [H | H];
      [contradiction | exact H].
  - destruct (u_raise _ _ _ Hu) as [He Hsrc]. split; assumption.
Qed.

Lemma safe_on_departure (key : string) :
  In key (map fst (nodes s0)) ->
  raises_only out_of_deviates (sound s0) (on_departure key)
              (fun _ => sound s0).
Proof.
  intro Hin. unfold on_departure.
  eapply ro_bind.
  { apply ro_get_node. intros s Hs. apply sound_declared; assumption. }
  intro fila. cbv beta.
  apply ro_pure with (F := node_sound key fila).
  { intros s [(_ & _ & _ & Hn) Hg]. apply (Hn _ _ Hg). }
  intros (Hname & Hk & Hlen).
  eapply ro_bind with (R1 := fun _ => sound s0).
  { apply ro_modify. intros s [Hs Hg].
    apply (sound_put_node s key fila _ Hs Hg).
    unfold node_sound, Node.finish_service_one. simpl. auto. }
  intros ?.
  eapply ro_bind with (R1 := fun _ => sound s0).
  { destruct (_ <=? _)%Z; [|apply ro_ret; auto].
    apply (safe_sample_schedule _ (fun s x => (time s + x)%Q)).
    simpl. rewrite Hname. exact Hin. }
  intros ?.
  eapply ro_bind; [apply safe_pick_destination|].
  intro dest_name. cbv beta.
  destruct (truthy dest_name) as [dest|] eqn:Hd.
  - apply ro_pure with (F := In dest (map fst (nodes s0))).
    { intros s [_ H]. apply H. reflexivity. }
    intro Hdest.
    eapply ro_weaken with (P' := sound s0) (R' := fun _ => sound s0);
      [apply safe_admit_and_serve; exact Hdest
      | intros s [Hs _]; exact Hs | auto].
  - apply ro_ret. intros s [Hs _]. exact Hs.
Qed.

Lemma safe_update_time_stats (t_new : Q) :
  raises_only out_of_deviates (fun s => sound s0 s /\ bounds s)
              (update_time_stats t_new) (fun _ => sound s0).
Proof.
  intros s [Hs Hb]. pose proof Hs as (Hk & Hr & He & Hn).
  unfold update_time_stats, bind, get, modify, ret, raise.
  destruct (Qltb 0 (t_new - last_update_time s)); [|exact Hs].
  pose proof (add_time_nodes_ok (t_new - last_update_time s) (nodes s))
    as Hok.
  pose proof (add_time_nodes_keys (t_new - last_update_time s) (nodes s))
    as Hkeys.
  destruct (add_time_nodes (t_new - last_update_time s) (nodes s))
    as [nds ok] eqn:Ha.
  simpl in Hok, Hkeys.
  assert (Htrue : ok = true).
  { apply Hok. intros key nd Hin.
    assert (Hg : dict_get (nodes s) key = Some nd).
    { apply dict_get_entry; [rewrite Hk; exact names_once | exact Hin]. }
    destruct (Hn _ _ Hg) as (_ & Hk0 & Hlen).
    destruct (Hb _ _ Hg) as (_ & Hn0 & Hnk & _).
    rewrite py_index_in_range; [discriminate|].
    rewrite Hlen. specialize (Hnk Hk0). lia. }
  subst ok. simpl. unfold sound. simpl.
  split; [rewrite Hkeys; exact Hk|]. split; [exact Hr|].
  split; [exact He|].
  intros key nd' Hg'.
  destruct (add_time_nodes_get _ _ _ _ key nd' Ha Hg')
    as (nd & Hg & Hor & _).
  pose proof (same_but_tempo_advanced _ nd nd' Hor)
    as (A1 & _ & A3 & _ & _ & _ & _ & A8).
  destruct (Hn _ _ Hg) as (N1 & N2 & N3).
  unfold node_sound. rewrite A1, A3, A8. auto.
Qed.

Lemma safe_step :
  raises_only out_of_deviates
    (fun s => sound s0 s /\ bounds s /\ running s = true)
    step (fun _ => sound s0).
Proof.
  unfold step.
  eapply ro_bind; [apply ro_get|].
  intro s1. cbv beta.
  destruct (heappop (events s1)) as [[ev rest]|] eqn:Hpop.
  - destruct (heappop_min _ _ _ Hpop) as [Hperm _].
    eapply ro_bind with
      (R1 := fun _ s => (sound s0 s /\ bounds s)
                        /\ In (ev_node_name ev) (map fst (nodes s0))).
    { apply ro_modify. intros s [(Hs & Hb & _) <-].
      destruct Hs as (Hk & Hr & He & Hn).
      split; [split; [|exact Hb]|].
      - unfold sound. simpl. split; [exact Hk|]. split; [exact Hr|].
        split; [|exact Hn].
        intros x Hx. apply He.
        apply (Permutation_in _ (Permutation_sym Hperm)). right. exact Hx.
      - apply He.
        apply (Permutation_in _ (Permutation_sym Hperm)). left. reflexivity. }
    intros ?.
    apply ro_pure with (F := In (ev_node_name ev) (map fst (nodes s0))).
    { intros s [_ H]. exact H. }
    intro Hin.
    eapply ro_bind with (R1 := fun _ => sound s0).
    { eapply ro_weaken with
        (P' := fun s => sound s0 s /\ bounds s) (R' := fun _ => sound s0);
        [apply safe_update_time_stats | intros s [H _]; exact H | auto]. }
    intros ?.
    eapply ro_bind with (R1 := fun _ => sound s0).
    { apply ro_modify. intros s Hs. exact Hs. }
    intros ?. destruct (ev_etype ev).
    + apply safe_on_arrival. exact Hin.
    + apply safe_on_departure. exact Hin.
  - intros s [(_ & _ & Hrun) <-]. exfalso.
    apply heappop_nil in Hpop. unfold running in Hrun.
    rewrite Hpop in Hrun. discriminate.
Qed.

Lemma safe_first_arrivals (items : list (string * Node.t)) :
  (forall name node, In (name, node) items ->
                     In name (map fst (nodes s0))) ->
  raises_only out_of_deviates (sound s0) (schedule_first_arrivals items)
              (fun _ => sound s0).
Proof.
  induction items as [|[name node] rest IH]; simpl; intro Hall.
  - apply ro_ret. auto.
  - eapply ro_bind with (R1 := fun _ => sound s0).
    + destruct (Node.arrival_sampler node) as [range|];
        [|apply ro_ret; auto].
      eapply ro_bind with (R1 := fun _ => sound s0).
      { apply ro_sample. intros s x r Hs. exact Hs. }
      intro x. apply ro_modify. intros s Hs.
      apply sound_schedule; [exact Hs|].
      apply (Hall name node). left. reflexivity.
    + intros ?. apply IH. intros n0 nd0 Hin.
      apply (Hall n0 nd0). right. exact Hin.
Qed.

Hypothesis start_sound : sound s0 s0.
Hypothesis start_wf : wf none_in_flight s0.

Lemma head_sound (s : NetworkSimulator.t) :
  at_loop_head s0 s -> sound s0 s.
Proof.
  intro H. induction H as [s1 H1 | s s' Hhead IH Hrun Hstep].
  - assert (Hall : forall name node,
               In (name, node) (nodes s0) -> In name (map fst (nodes s0))).
    { intros name node Hin. apply (in_map fst _ _ Hin). }
    pose proof (safe_first_arrivals (nodes s0) Hall s0 start_sound) as H.
    rewrite H1 in H. exact H.
  - pose proof (wf_bounds _ _ (at_loop_head_wf _ _ start_wf Hhead)) as Hb.
    pose proof (safe_step s (conj IH (conj Hb Hrun))) as H.
    rewrite Hstep in H. exact H.
Qed.

Lemma loop_raise_at_head (fuel : nat) :
  forall s e s',
    at_loop_head s0 s ->
    loop fuel s = Some (Raise e s') ->
    exists sh,
      at_loop_head s0 sh /\ running sh = true /\ step sh = Raise e s'.
Proof.
  induction fuel as [|fuel IH]; intros s e s' Hhead; simpl.
  - destruct (running s); discriminate.
  - destruct (running s) eqn:Hr; [|discriminate].
    destruct (step s) as [[] s1|e1 s1] eqn:Hstep.
    + apply IH. apply (@head_step s0 s s1 Hhead Hr Hstep).
    + intros [= <- <-]. exists s. auto.
Qed.

Lemma run_raise_safe (fuel : nat) (e : exn) (s : NetworkSimulator.t) :
  run fuel s0 = Some (Raise e s) -> out_of_deviates e s.
Proof.
  unfold run.
  assert (Hall : forall name node,
             In (name, node) (nodes s0) -> In name (map fst (nodes s0))).
  { intros name node Hin. apply (in_map fst _ _ Hin). }
  pose proof (safe_first_arrivals (nodes s0) Hall s0 start_sound) as Hfirst.
  destruct (schedule_first_arrivals (nodes s0) s0) as [[] s1|e1 s1] eqn:H1;
    [|intros [= <- <-]; exact Hfirst].
  assert (Hh1 : at_loop_head s0 s1) by apply (@head_first s0 s1 H1).
  destruct (loop fuel s1) as [[[] s2|e2 s2]|] eqn:H2; [| |discriminate].
  - destruct (loop_at_head s0 fuel s1 s2 Hh1 H2) as [Hh2 _].
    pose proof (wf_bounds _ _ (at_loop_head_wf _ _ start_wf Hh2)) as Hb.
    pose proof (safe_update_time_stats (time s2) s2
                  (conj (head_sound s2 Hh2) Hb)) as Hu.
    destruct (update_time_stats (time s2) s2) as [[] s3|e3 s3];
      [discriminate|].
    intros [= <- <-]. exact Hu.
  - intros [= <- <-].
    destruct (loop_raise_at_head fuel s1 e2 s2 Hh1 H2)
      as (sh & Hh & Hrun & Hstep).
    pose proof (wf_bounds _ _ (at_loop_head_wf _ _ start_wf Hh)) as Hb.
    pose proof (safe_step sh (conj (head_sound sh Hh) (conj Hb Hrun))) as H.
    rewrite Hstep in H. exact H.
Qed.
End Safety.

Lemma dict_set_key_mono {A} (d : list (string * A)) (key : string) (v : A)
    (x : string) :
  x = key \/ In x (map fst d) -> In x (map fst (dict_set d key v)).
Proof.
  induction d as [|[k0 v0] d IH]; simpl.
  - intros [-> | []]. left. reflexivity.
  - destruct (String.eqb k0 key) eqn:E; simpl.
    + apply String.eqb_eq in E. subst k0. intros [-> | H]; auto.
    + intros [-> | [-> | H]]; auto.
Qed.

Lemma build_nodes_names (qs : list (string * QueueParams)) :
  forall acc built,
    build_nodes qs acc = Ok built ->
    NoDup (map fst acc) ->
    NoDup (map fst built)
    /\ forall name,
         In name (map fst qs) \/ In name (map fst acc) ->
         In name (map fst built).
Proof.
  induction qs as [|[name params] qs IH]; intros acc built; simpl.
  - intros [= <-] Hnd. split; [exact Hnd|]. intros name [[] | H]. exact H.
  - destruct (build_node name params) as [nd|e]; [|discriminate].
    intros Hb Hnd.
    destruct (IH _ _ Hb (dict_set_nodup acc name nd Hnd)) as [Hnd' Hin].
    split; [exact Hnd'|].
    intros x [[<- | Hx] | Hx]; apply Hin.
    + right. apply dict_set_key_mono. left. reflexivity.
    + left. exact Hx.
    + right. apply dict_set_key_mono. right. exact Hx.
Qed.

Lemma build_routing_get (rules : list Rule) (src : string) :
  dict_get (build_routing rules) src
  = match rules_of src rules with
    | [] => None
    | _ => Some (cumulative 0 (sort_by_prob (rules_of src rules)))
    end.
Proof.
  unfold build_routing.
  rewrite (dict_rebuild_get (fun l => cumulative 0 (sort_by_prob l))
             (raw_routing rules) (raw_routing_nodup rules)).
  rewrite raw_routing_get. destruct (rules_of src rules); reflexivity.
Qed.

Lemma init_sound (config : Config) (s0 : NetworkSimulator.t) :
  NetworkSimulator.init config = Ok s0 -> sane config ->
  sound s0 s0 /\ NoDup (map fst (nodes s0)) /\ routes_declared s0.
Proof.
  intros Hi [Hcap Htgt].
  assert (Hparts : exists built,
             build_nodes (queues config) [] = Ok built
             /\ nodes s0 = built
             /\ routing_table s0 = build_routing (network config)
             /\ events s0 = []).
  { unfold NetworkSimulator.init in Hi.
    destruct (build_nodes (queues config) []) as [built|e]; [|discriminate].
    injection Hi as <-. exists built. auto. }
  destruct Hparts as (built & Hb & Hn & Hr & He).
  destruct (build_nodes_names _ _ _ Hb (NoDup_nil _)) as [Hnd Hnames].
  split; [|split].
  - unfold sound. split; [reflexivity|]. split; [reflexivity|].
    split; [rewrite He; intros ev []|].
    intros key nd Hg.
    destruct (init_nodes _ _ _ _ Hi Hg) as (p & cap & Hin & Hc & ->).
    rewrite Forall_forall in Hcap. specialize (Hcap _ Hin cap Hc).
    unfold node_sound, Node.init. simpl.
    split; [reflexivity|]. split; [exact Hcap|]. apply repeat_length.
  - rewrite Hn. exact Hnd.
  - intros src rules tgt cum Hg Hin. rewrite Hr in Hg.
    rewrite build_routing_get in Hg.
    destruct (rules_of src (network config)) as [|d ds] eqn:Hd;
      [discriminate|].
    injection Hg as <-.
    assert (Ht : In tgt (map fst (rules_of src (network config)))).
    { rewrite Hd.
      apply (Permutation_in _ (Permutation_map fst (sort_by_prob_perm _))).
      rewrite <- (cumulative_targets _ 0%Q).
      apply (in_map fst _ _ Hin). }
    unfold rules_of in Ht. rewrite map_map in Ht. simpl in Ht.
    apply in_map_iff in Ht. destruct Ht as (rule & <- & Hrule).
    apply filter_In in Hrule. destruct Hrule as [Hrule _].
    rewrite Forall_forall in Htgt.
    destruct (Htgt _ Hrule) as [H | H]; [left; exact H|].
    right. rewrite Hn. apply Hnames. left. exact H.
Qed.

Lemma init_from_lcg (config : Config) (s0 : NetworkSimulator.t) :
  NetworkSimulator.init config = Ok s0 ->
  rndnumbers config = None \/ seeds config <> None ->
  from_lcg (rng s0).
Proof.
  intros Hi Hsrc. destruct (init_events _ _ Hi) as (_ & _ & _ & ->).
  unfold RNGInit.init, from_lcg.
  destruct (rndnumbers config) as [nums|], (seeds config) as [sds|];
    simpl; try (eexists; reflexivity).
  destruct Hsrc as [H | H]; [discriminate | contradiction].
Qed.

Lemma from_lcg_draw (r : SimulationRNG.t) (x : Q) (r' : SimulationRNG.t) :
  from_lcg r -> SimulationRNG.u r = Return x r' -> from_lcg r'.
Proof.
  intros [g Hg]. unfold SimulationRNG.u. rewrite Hg.
  destruct (LinearCongruentialGenerator.next_random g) as [y g'].
  intros [= _ <-]. exists g'. reflexivity.
Qed.

Lemma from_lcg_fail (r : SimulationRNG.t) (e : exn) (r' : SimulationRNG.t) :
  from_lcg r -> SimulationRNG.u r = Raise e r' -> from_lcg r'.
Proof.
  intros [g Hg]. unfold SimulationRNG.u. rewrite Hg.
  destruct (LinearCongruentialGenerator.next_random g). discriminate.
Qed.



(** ** External arrival streams never run dry *)

Lemma pending_arrivals_perm (key : string) (l l' : list Event) :
  Permutation l l' -> pending_arrivals key l = pending_arrivals key l'.
Proof.
  intro H. unfold pending_arrivals. f_equal.
  induction H; simpl.
  - reflexivity.
  - destruct (is_arrival_of key x); simpl; congruence.
  - destruct (is_arrival_of key x), (is_arrival_of key y); reflexivity.
  - congruence.
Qed.

Lemma pending_arrivals_pop (key : string) (h : list Event) (ev : Event)
    (rest : list Event) :
  heappop h = Some (ev, rest) ->
  pending_arrivals key h = (pending_arrivals key rest + arriving ev key)%Z.
Proof.
  intro Hpop. destruct (heappop_min _ _ _ Hpop) as [Hperm _].
  rewrite (pending_arrivals_perm key _ _ Hperm).
  unfold pending_arrivals, arriving. simpl.
  destruct (is_arrival_of key ev); simpl; lia.
Qed.

Lemma pending_arrivals_push (key : string) (evs : list Event) (e : Event) :
  pending_arrivals key (heappush evs e)
  = (pending_arrivals key evs + arriving e key)%Z.
Proof.
  unfold pending_arrivals, heappush, arriving.
  rewrite filter_app, length_app. simpl.
  destruct (is_arrival_of key e); simpl; lia.
Qed.

Lemma pending_arrivals_nonneg (key : string) (evs : list Event) :
  (0 <= pending_arrivals key evs)%Z.
Proof. unfold pending_arrivals. lia. Qed.

Lemma streams_ext (extra extra' : string -> Z) (s : NetworkSimulator.t) :
  (forall key, extra key = extra' key) -> streams extra s ->
  streams extra' s.
Proof.
  intros Hext Hs key nd Hg. rewrite <- Hext. apply (Hs key nd Hg).
Qed.

Lemma streams_put_node (extra : string -> Z) (s : NetworkSimulator.t)
    (key : string) (nd nd' : Node.t) :
  dict_get (nodes s) key = Some nd ->
  Node.name nd' = Node.name nd ->
  Node.arrival_sampler nd' = Node.arrival_sampler nd ->
  streams extra s ->
  streams extra (set_nodes (dict_set (nodes s) key nd') s).
Proof.
  intros Hg Hname Harr Hs key' x. simpl. rewrite dict_get_set.
  destruct (String.eqb key key') eqn:E.
  - apply String.eqb_eq in E. subst key'. intros [= <-].
    destruct (Hs key nd Hg) as [Hn Hp]. unfold stream_count in *.
    rewrite Hname, Harr. auto.
  - apply Hs.
Qed.

Lemma streams_push_departure (extra : string -> Z)
    (s : NetworkSimulator.t) (tm : Q) (name : string) :
  streams extra s ->
  streams extra
    (set_schedule (seq_counter s + 1)
       (heappush (events s) (mkEvent tm (seq_counter s + 1) DEPARTURE name))
       s).
Proof.
  intros Hs key nd Hg. simpl in *. destruct (Hs key nd Hg) as [Hn Hp].
  split; [exact Hn|]. rewrite pending_arrivals_push.
  unfold arriving, is_arrival_of. simpl. lia.
Qed.

Section StreamFrame.
Variable extra : string -> Z.

Lemma streams_sample_departure (range : Q * Q)
    (f : NetworkSimulator.t -> Q -> Q) (name : string) :
  triple (streams extra)
    (bind (sample range)
          (fun x => bind get (fun s => schedule (f s x) DEPARTURE name)))
    (fun _ => streams extra) (fun _ => True).
Proof.
  eapply triple_bind with (R := fun _ => streams extra).
  { destruct range as [lo hi]. apply triple_sample.
    - intros s x r Hs _. exact Hs.
    - intros s e r Hs _. exact I. }
  intro x. eapply triple_bind; [apply triple_get|].
  intro s1. apply triple_schedule. intros s [Hs _].
  apply streams_push_departure. exact Hs.
Qed.

Lemma streams_get_node (key : string) :
  triple (streams extra) (get_node key)
         (fun nd s => streams extra s /\ dict_get (nodes s) key = Some nd)
         (fun _ => True).
Proof. apply triple_get_node. auto. Qed.

Lemma streams_admit_and_serve (key : string) :
  triple (streams extra) (admit_and_serve key)
         (fun _ => streams extra) (fun _ => True).
Proof.
  unfold admit_and_serve.
  eapply triple_bind; [apply streams_get_node|].
  intro fila. cbv beta.
  destruct (Node.admit_ fila) as [admitted fila'] eqn:Hadm.
  assert (Hkeep : Node.name fila' = Node.name fila
                  /\ Node.arrival_sampler fila'
                     = Node.arrival_sampler fila).
  { unfold Node.admit_ in Hadm.
    destruct (Node.k fila <=? Node.n fila)%Z; injection Hadm as _ <-;
      simpl; auto. }
  destruct Hkeep as [Hname Harr].
  eapply triple_bind with (R := fun _ => streams extra).
  { apply triple_put_node. intros s [Hs Hg].
    apply (streams_put_node extra s key fila fila' Hg Hname Harr Hs). }
  intros ?. destruct admitted; [|apply triple_ret; auto].
  destruct (Node.n fila' <=? Node.c fila')%Z; [|apply triple_ret; auto].
  apply (streams_sample_departure _ (fun s x => (time s + x)%Q)).
Qed.

Lemma streams_on_departure (key : string) :
  triple (streams extra) (on_departure key)
         (fun _ => streams extra) (fun _ => True).
Proof.
  unfold on_departure.
  eapply triple_bind; [apply streams_get_node|].
  intro fila. cbv beta.
  eapply triple_bind with (R := fun _ => streams extra).
  { apply triple_put_node. intros s [Hs Hg].
    apply (streams_put_node extra s key fila _ Hg); [| |exact Hs];
      reflexivity. }
  intros ?.
  eapply triple_bind with (R := fun _ => streams extra).
  { destruct (_ <=? _)%Z; [|apply triple_ret; auto].
    apply (streams_sample_departure _ (fun s x => (time s + x)%Q)). }
  intros ?.
  eapply triple_bind with (R := fun _ => streams extra).
  { eapply triple_weaken with
      (P' := streams extra) (Q' := fun _ => streams extra)
      (E' := streams extra);
      [ apply pick_destination_frame; intros s r Hs; exact Hs
      | auto | auto | auto ]. }
  intro dest_name. destruct (truthy dest_name) as [dest|].
  - apply streams_admit_and_serve.
  - apply triple_ret. auto.
Qed.

Lemma streams_update_time_stats (t_new : Q) :
  triple (streams extra) (update_time_stats t_new)
         (fun _ => streams extra) (fun _ => True).
Proof.
  intros s Hs. unfold update_time_stats, bind, get, modify, ret, raise.
  destruct (Qltb 0 (t_new - last_update_time s)); [|exact Hs].
  destruct (add_time_nodes (t_new - last_update_time s) (nodes s))
    as [nds ok] eqn:Ha.
  destruct ok; simpl; [|exact I].
  intros key nd' Hg'. simpl in Hg'.
  destruct (add_time_nodes_same _ _ _ _ key nd' Ha Hg')
    as (nd & Hg & (S1 & _ & _ & _ & S5 & _)).
  destruct (Hs key nd Hg) as [Hn Hp]. unfold stream_count in *.
  simpl. rewrite S1, S5. auto.
Qed.
End StreamFrame.

Lemma streams_on_arrival (ev : Event) :
  ev_etype ev = ARRIVAL ->
  triple (streams (arriving ev)) (on_arrival (ev_node_name ev))
         (fun _ => streams none_in_flight) (fun _ => True).
Proof.
  intro Het. unfold on_arrival.
  eapply triple_bind; [apply streams_get_node|].
  intro fila. cbv beta.
  apply triple_pure with
    (F := Node.name fila = ev_node_name ev
          /\ Node.arrival_sampler fila <> None).
  { intros s [Hs Hg]. destruct (Hs _ _ Hg) as [Hn Hp].
    split; [exact Hn|].
    unfold arriving, is_arrival_of in Hp.
    rewrite Het, String.eqb_refl in Hp.
    pose proof (pending_arrivals_nonneg (ev_node_name ev) (events s)).
    unfold stream_count in Hp.
    destruct (Node.arrival_sampler fila); [discriminate | lia]. }
  intros [Hname Harr].
  eapply triple_bind with (R := fun _ => streams (arriving ev)).
  { apply triple_modify. intros s [Hs _]. exact Hs. }
  intros ?.
  eapply triple_bind with (R := fun _ => streams none_in_flight);
    [|intros ?; apply streams_admit_and_serve].
  destruct (Node.arrival_sampler fila) as [range|]; [|congruence].
  eapply triple_bind with (R := fun _ => streams (arriving ev)).
  { destruct range as [lo hi]. apply triple_sample.
    - intros s x r Hs _. exact Hs.
    - intros s e r Hs _. exact I. }
  intro x. eapply triple_bind; [apply triple_get|].
  intro s1. apply triple_schedule. intros s [Hs _] key nd Hg.
  simpl in *. destruct (Hs key nd Hg) as [Hn Hp].
  split; [exact Hn|]. rewrite pending_arrivals_push.
  unfold none_in_flight. rewrite <- Hp.
  unfold arriving, is_arrival_of. simpl. rewrite Het, Hname. lia.
Qed.

Lemma step_streams :
  triple (streams none_in_flight) step
         (fun _ => streams none_in_flight) (fun _ => True).
Proof.
  unfold step.
  eapply triple_bind; [apply triple_get|].
  intro s1. cbv beta.
  destruct (heappop (events s1)) as [[ev rest]|] eqn:Hpop;
    [|apply triple_raise; auto].
  eapply triple_bind with (R := fun _ => streams (arriving ev)).
  { apply triple_modify. intros s [Hs <-] key nd Hg. simpl in *.
    destruct (Hs key nd Hg) as [Hn Hp]. split; [exact Hn|].
    rewrite (pending_arrivals_pop key _ ev rest Hpop) in Hp.
    unfold none_in_flight in Hp. lia. }
  intros ?.
  eapply triple_bind with (R := fun _ => streams (arriving ev));
    [apply streams_update_time_stats|].
  intros ?.
  eapply triple_bind with (R := fun _ => streams (arriving ev)).
  { apply triple_modify. intros s Hs. exact Hs. }
  intros ?. destruct (ev_etype ev) eqn:Het.
  - apply streams_on_arrival. exact Het.
  - eapply triple_weaken with
      (P' := streams none_in_flight)
      (Q' := fun _ => streams none_in_flight) (E' := fun _ => True);
      [apply streams_on_departure | | auto | auto].
    intros s Hs. revert Hs. apply streams_ext. intro key.
    unfold arriving, is_arrival_of, none_in_flight. rewrite Het.
    reflexivity.
Qed.

(** The first loop of [run] schedules one ARRIVAL for every item with an
    arrival sampler. *)
Lemma first_arrivals_pending (nds : list (string * Node.t))
    (items : list (string * Node.t)) :
  NoDup (map fst items) ->
  forall c : string -> Z,
    triple
      (fun s => nodes s = nds
                /\ forall key, pending_arrivals key (events s) = c key)
      (schedule_first_arrivals items)
      (fun _ s =>
         nodes s = nds
         /\ forall key,
              pending_arrivals key (events s)
              = (c key + match dict_get items key with
                         | Some node => stream_count node
                         | None => 0
                         end)%Z)
      (fun _ => True).
Proof.
  induction items as [|[name node] rest IH]; simpl; intros Hnd c.
  - apply triple_ret. intros s [Hn Hp]. split; [exact Hn|].
    intro key. rewrite Hp. lia.
  - inversion Hnd as [|x l Hnotin Hnd']; subst.
    eapply triple_bind with
      (R := fun _ s =>
              nodes s = nds
              /\ forall key,
                   pending_arrivals key (events s)
                   = (c key + (if String.eqb name key
                               then stream_count node else 0))%Z).
    + unfold stream_count.
      destruct (Node.arrival_sampler node) as [range|].
      * eapply triple_bind with
          (R := fun _ s =>
                  nodes s = nds
                  /\ forall key, pending_arrivals key (events s) = c key).
        { destruct range as [lo hi]. apply triple_sample.
          - intros s x r Hs _. exact Hs.
          - intros s e r Hs _. exact I. }
        intro x. apply triple_schedule. intros s [Hn Hp]. simpl.
        split; [exact Hn|]. intro key.
        rewrite pending_arrivals_push, Hp.
        unfold arriving, is_arrival_of. simpl. reflexivity.
      * apply triple_ret. intros s [Hn Hp]. split; [exact Hn|].
        intro key. rewrite Hp. destruct (String.eqb name key); lia.
    + intros ?.
      eapply triple_weaken with
        (E' := fun _ => True);
        [apply (IH Hnd' (fun key =>
                           (c key + (if String.eqb name key
                                     then stream_count node else 0))%Z))
        | auto | | auto].
      intros ? s [Hn Hp]. split; [exact Hn|]. intro key.
      rewrite Hp. destruct (String.eqb name key) eqn:E; [|lia].
      apply String.eqb_eq in E. subst key.
      rewrite (dict_get_absent _ _ Hnotin). lia.
Qed.

Lemma init_names_once (config : Config) (s0 : NetworkSimulator.t) :
  NetworkSimulator.init config = Ok s0 -> NoDup (map fst (nodes s0)).
Proof.
  unfold NetworkSimulator.init.
  destruct (build_nodes (queues config) []) as [built|e] eqn:Hb;
    [|discriminate].
  intros [= <-]. simpl.
  apply (build_nodes_names _ _ _ Hb (NoDup_nil _)).
Qed.

Lemma at_loop_head_streams (config : Config) (s0 s : NetworkSimulator.t) :
  NetworkSimulator.init config = Ok s0 ->
  at_loop_head s0 s -> streams none_in_flight s.
Proof.
  intros Hi H. induction H as [s1 H1 | s s' Hhead IH Hrun Hstep].
  - pose proof (first_arrivals_pending (nodes s0) (nodes s0)
                  (init_names_once _ _ Hi) (fun _ => 0%Z) s0) as H.
    destruct (init_events _ _ Hi) as (He & _).
    assert (H0 : nodes s0 = nodes s0
                 /\ forall key, pending_arrivals key (events s0) = 0%Z).
    { split; [reflexivity|]. intro key. rewrite He. reflexivity. }
    specialize (H H0). rewrite H1 in H. destruct H as [Hn Hp].
    intros key nd Hg. rewrite Hn in Hg. rewrite Hp, Hg.
    destruct (init_wf _ _ Hi key nd Hg) as (Hname & _).
    split; [exact Hname|]. unfold none_in_flight. lia.
  - pose proof (step_streams s IH) as H. rewrite Hstep in H. exact H.
Qed.

Lemma at_loop_head_follows (s0 s : NetworkSimulator.t) :
  at_loop_head s0 s -> follows s0 s.
Proof.
  intro H. induction H as [s1 H1 | s s' Hhead IH Hrun Hstep].
  - pose proof (follows_first_arrivals s0 (nodes s0) s0 (follows_refl s0))
      as H. rewrite H1 in H. exact H.
  - pose proof (follows_step s0 s IH) as H. rewrite Hstep in H. exact H.
Qed.

Lemma stream_heap_nonempty (config : Config) (s0 s : NetworkSimulator.t) :
  NetworkSimulator.init config = Ok s0 ->
  has_stream s0 -> at_loop_head s0 s -> events s <> [].
Proof.
  intros Hi (key & nd0 & Hg0 & Harr) Hhead He.
  destruct (at_loop_head_follows _ _ Hhead) as (_ & _ & _ & _ & _ & _ & Hn).
  destruct (Hn key nd0 Hg0) as (nd & Hg & (_ & _ & _ & _ & A5 & _)).
  destruct (at_loop_head_streams _ _ _ Hi Hhead key nd Hg) as [_ Hp].
  rewrite He in Hp. unfold stream_count, none_in_flight in Hp.
  rewrite A5 in Hp. simpl in Hp.
  destruct (Node.arrival_sampler nd0); [discriminate | congruence].
Qed.

Lemma no_stream_first_arrivals (items : list (string * Node.t))
    (s : NetworkSimulator.t) :
  (forall name node, In (name, node) items ->
                     Node.arrival_sampler node = None) ->
  schedule_first_arrivals items s = Return tt s.
Proof.
  induction items as [|[name node] rest IH]; simpl; intro Hall;
    [reflexivity|].
  rewrite (Hall name node (or_introl eq_refl)). unfold bind, ret.
  apply IH. intros n0 nd0 Hin. apply (Hall n0 nd0). right. exact Hin.
Qed.

Lemma run_with_lcg_never_raises (config : Config)
    (s0 : NetworkSimulator.t) :
  NetworkSimulator.init config = Ok s0 ->
  sane config ->
  rndnumbers config = None \/ seeds config <> None ->
  forall fuel e s, run fuel s0 <> Some (Raise e s).
Proof.
  intros Hi Hsane Hsrc fuel e s Hrun.
  destruct (init_sound _ _ Hi Hsane) as (Hs & Hnd & Hroutes).
  destruct (run_raise_safe s0 Hroutes Hnd Hs (init_wf _ _ Hi) _ _ _ Hrun)
    as [_ Hlist].
  pose proof (rng_inv_run from_lcg from_lcg (fun _ H => H)
                from_lcg_draw from_lcg_fail fuel s0 (Raise e s)
                (init_from_lcg _ _ Hi Hsrc) Hrun) as [g Hg].
  rewrite Hg in Hlist. discriminate.
Qed.


